(** * mtg_webproject: the deck catalogue, its parser, its store and its statistics

    A shallow embedding of [src/DeckList.jsx] and [src/DeckDetail.jsx].

    - JavaScript strings are sequences of UTF-16 code units ([list N]).
    - The numbers the program computes with (quantities, statistics, mana
      values) are integers ([Z]); [NaN] is [None] where a built-in can
      produce it.  A quotient is an exact rational and a number read from
      JSON an exact decimal, where the engine has doubles.
    - The detail page reads a deck as a record ([Deck.t]); the list page
      and the local storage hold values as [JSON.parse] builds them
      ([jsval]).
    - Built-ins of the language ([trim], [split], regular expressions,
      [parseInt], [JSON.parse], ...) are modelled once each, and the
      functions of the repository are written over them.
    - Effects are explicit: a handler is a function from the state of the
      browser (local storage, alerts, clock) and of the page to a result
      or an exception and the state after. *)

From Stdlib Require Import ZArith NArith QArith Qround List String Ascii Bool Lia DecimalString.
From Stdlib Require Import DecimalFacts DecimalPos DecimalN.
From stdpp Require Import base option list sorting gmap.

Local Open Scope Z_scope.

(* ===================================================================== *)
(** ** JavaScript strings *)
(* ===================================================================== *)

Abbreviation jsstring := (list N).

(** An ASCII literal as a JavaScript string. *)
Definition u16 (s : string) : jsstring :=
  List.map N_of_ascii (list_ascii_of_string s).

Definition LF : N := 10%N.
Definition CR : N := 13%N.
Definition EM_DASH : N := 8212%N.   (* U+2014 *)

Fixpoint str_eqb (a b : jsstring) : bool :=
  match a, b with
  | [], [] => true
  | x :: a', y :: b' => N.eqb x y && str_eqb a' b'
  | _, _ => false
  end.

(** ECMAScript [WhiteSpace] and [LineTerminator] code points: what [trim]
    removes and what [\s] matches. *)
Definition isLineTerminator (c : N) : bool :=
  (N.eqb c 10 || N.eqb c 13 || N.eqb c 8232 || N.eqb c 8233)%N.

Definition isWhiteSpace (c : N) : bool :=
  (N.eqb c 9 || N.eqb c 11 || N.eqb c 12 || N.eqb c 32 || N.eqb c 160
   || N.eqb c 5760 || (N.leb 8192 c && N.leb c 8202) || N.eqb c 8239
   || N.eqb c 8287 || N.eqb c 12288 || N.eqb c 65279
   || isLineTerminator c)%N.

Definition isDigit (c : N) : bool := (N.leb 48 c && N.leb c 57)%N.

Fixpoint trimStart (s : jsstring) : jsstring :=
  match s with
  | c :: s' => if isWhiteSpace c then trimStart s' else s
  | [] => []
  end.

Definition trimEnd (s : jsstring) : jsstring := rev (trimStart (rev s)).

Definition trim (s : jsstring) : jsstring := trimEnd (trimStart s).

(** [s.split(sep)] for a separator of one code unit. *)
Fixpoint split (sep : N) (s : jsstring) : list jsstring :=
  match s with
  | [] => [[]]
  | c :: s' =>
      if N.eqb c sep then [] :: split sep s'
      else match split sep s' with
           | piece :: rest => (c :: piece) :: rest
           | [] => [[c]]
           end
  end.

Fixpoint startsWith (prefix s : jsstring) : bool :=
  match prefix, s with
  | [], _ => true
  | p :: prefix', c :: s' => N.eqb p c && startsWith prefix' s'
  | _ :: _, [] => false
  end.

Fixpoint includes (needle s : jsstring) : bool :=
  startsWith needle s ||
  match s with
  | [] => false
  | _ :: s' => includes needle s'
  end.

(** [toLowerCase] on the Basic Latin and Latin-1 blocks; code units beyond
    them are left as they are. *)
Definition lowerUnit (c : N) : N :=
  (if (N.leb 65 c && N.leb c 90) then c + 32
   else if (N.leb 192 c && N.leb c 222 && negb (N.eqb c 215)) then c + 32
   else c)%N.

Definition toLowerCase (s : jsstring) : jsstring := List.map lowerUnit s.

(** Truthiness of a string: only the empty string is falsy. *)
Definition truthy_str (s : jsstring) : bool :=
  match s with [] => false | _ => true end.

(* ===================================================================== *)
(** ** Regular expressions (the backtracking matcher of the language) *)
(* ===================================================================== *)

Inductive regex :=
| REmpty
| RSet (p : N → bool)            (* one code unit of a class *)
| RSeq (r1 r2 : regex)
| RStar (r : regex)              (* greedy [r*] *)
| ROpt (r : regex)               (* greedy [r?] *)
| RGroup (n : nat) (r : regex)   (* capture group number [n] *)
| RBol                           (* [^], no [m] flag *)
| REol.                          (* [$], no [m] flag *)

Definition RPlus (r : regex) : regex := RSeq r (RStar r).
Definition RChar (c : N) : regex := RSet (N.eqb c).
Definition RSeqs (rs : list regex) : regex := foldr RSeq REmpty rs.

Abbreviation captures := (list (nat * jsstring)).

(** [rmatch r pos s caps k]: match [r] at index [pos], where [s] is the
    input from [pos] on; [k] is the rest of the pattern.  Alternatives are
    tried in the engine's priority order and the first success wins. *)
Fixpoint rmatch {A} (r : regex) (pos : nat) (s : jsstring) (caps : captures)
    (k : nat → jsstring → captures → option A) {struct r} : option A :=
  match r with
  | REmpty => k pos s caps
  | RSet p =>
      match s with
      | c :: s' => if p c then k (S pos) s' caps else None
      | [] => None
      end
  | RSeq r1 r2 =>
      rmatch r1 pos s caps (fun pos' s' caps' => rmatch r2 pos' s' caps' k)
  | RStar r1 =>
      (* a turn that consumes nothing is refused, so [length s] turns are
         all there can be *)
      (fix star (fuel : nat) (pos : nat) (s : jsstring) (caps : captures)
           {struct fuel} : option A :=
         match fuel with
         | O => k pos s caps
         | S fuel' =>
             match rmatch r1 pos s caps
                     (fun pos' s' caps' =>
                        if Nat.eqb pos' pos then None
                        else star fuel' pos' s' caps') with
             | Some a => Some a
             | None => k pos s caps
             end
         end) (length s) pos s caps
  | ROpt r1 =>
      match rmatch r1 pos s caps k with
      | Some a => Some a
      | None => k pos s caps
      end
  | RGroup n r1 =>
      rmatch r1 pos s caps
        (fun pos' s' caps' => k pos' s' ((n, take (pos' - pos) s) :: caps'))
  | RBol => if Nat.eqb pos 0 then k pos s caps else None
  | REol => match s with [] => k pos s caps | _ :: _ => None end
  end.

Record MatchResult := { m_index : nat; m_end : nat; m_caps : captures }.

(** The substring a group captured; [[]] when the group took no part. *)
Fixpoint group (n : nat) (caps : captures) : jsstring :=
  match caps with
  | [] => []
  | (i, v) :: caps' => if Nat.eqb i n then v else group n caps'
  end.

(** [RegExp.prototype.exec] without the [g] flag: the first index at which
    the pattern matches. *)
Fixpoint exec_from (r : regex) (pos : nat) (s : jsstring) : option MatchResult :=
  match rmatch r pos s []
          (fun pos' _ caps => Some {| m_index := pos; m_end := pos'; m_caps := caps |}) with
  | Some m => Some m
  | None =>
      match s with
      | [] => None
      | _ :: s' => exec_from r (S pos) s'
      end
  end.

(** [s.match(r)] for a pattern without the [g] flag. *)
Definition str_match (r : regex) (s : jsstring) : option MatchResult :=
  exec_from r 0 s.

(** [s.match(r)] for a pattern with the [g] flag and without [^]: every
    match, left to right, without overlap; [None] is the [null] the
    language returns when there is none. *)
Fixpoint match_all_from (fuel : nat) (r : regex) (pos : nat) (s : jsstring)
    : list jsstring :=
  match fuel with
  | O => []
  | S fuel' =>
      let advance :=
        match s with
        | [] => []
        | _ :: s' => match_all_from fuel' r (S pos) s'
        end in
      match rmatch r pos s [] (fun pos' _ _ => Some pos') with
      | Some e =>
          let len := (e - pos)%nat in
          take len s ::
            (if Nat.eqb len 0 then advance
             else match_all_from fuel' r e (drop len s))
      | None => advance
      end
  end.

Definition str_match_all (r : regex) (s : jsstring) : option (list jsstring) :=
  match match_all_from (S (length s)) r 0 s with
  | [] => None
  | ms => Some ms
  end.

(** [s.replace(r, repl)] for a pattern with the [g] flag. *)
Fixpoint replace_all_from (fuel : nat) (r : regex) (repl : jsstring)
    (pos : nat) (s : jsstring) : jsstring :=
  match fuel with
  | O => s
  | S fuel' =>
      let advance :=
        match s with
        | [] => []
        | c :: s' => c :: replace_all_from fuel' r repl (S pos) s'
        end in
      match rmatch r pos s [] (fun pos' _ _ => Some pos') with
      | Some e =>
          let len := (e - pos)%nat in
          repl ++ (if Nat.eqb len 0 then advance
                   else replace_all_from fuel' r repl e (drop len s))
      | None => advance
      end
  end.

Definition str_replace_all (r : regex) (repl s : jsstring) : jsstring :=
  replace_all_from (S (length s)) r repl 0 s.

(* ===================================================================== *)
(** ** [parseInt] *)
(* ===================================================================== *)

Definition digitValue (radix : N) (c : N) : option Z :=
  let v :=
    (if N.leb 48 c && N.leb c 57 then Some (c - 48)
     else if N.leb 97 c && N.leb c 122 then Some (c - 87)
     else if N.leb 65 c && N.leb c 90 then Some (c - 55)
     else None)%N in
  match v with
  | Some d => if N.ltb d radix then Some (Z.of_N d) else None
  | None => None
  end.

(** The longest prefix of digits of the radix, as a number; [None] when
    there is no digit. *)
Fixpoint digitsPrefix (radix : N) (acc : option Z) (s : jsstring) : option Z :=
  match s with
  | [] => acc
  | c :: s' =>
      match digitValue radix c with
      | Some d =>
          digitsPrefix radix
            (Some (Z.of_N radix * default 0 acc + d)) s'
      | None => acc
      end
  end.

(** [parseInt(s)] with no radix argument; [None] is [NaN]. *)
Definition parseInt (s : jsstring) : option Z :=
  let s1 := trimStart s in
  let '(sign, s2) :=
    match s1 with
    | 45%N :: s' => (-1, s')
    | 43%N :: s' => (1, s')
    | _ => (1, s1)
    end in
  let '(radix, s3) :=
    match s2 with
    | 48%N :: 120%N :: s' => (16%N, s')
    | 48%N :: 88%N :: s' => (16%N, s')
    | _ => (10%N, s2)
    end in
  match digitsPrefix radix None s3 with
  | Some n => Some (sign * n)
  | None => None
  end.

(** [x || 0] for a number [x] that can be absent or [NaN]: both are
    falsy, as [0] is. *)
Definition num_or_0 (x : option Z) : Z := default 0 x.

(* ===================================================================== *)
(** ** DeckList.jsx: parseDecklist *)
(* ===================================================================== *)

Module ParsedLine.
Record t := mk { name : jsstring; quantity : Z }.
End ParsedLine.

(** [/^(\d+)\s*x?\s*-?\s*(.+)$/] *)
Definition line_re : regex :=
  RSeqs [ RBol;
          RGroup 1 (RPlus (RSet isDigit));
          RStar (RSet isWhiteSpace);
          ROpt (RChar 120);
          RStar (RSet isWhiteSpace);
          ROpt (RChar 45);
          RStar (RSet isWhiteSpace);
          RGroup 2 (RPlus (RSet (fun c => negb (isLineTerminator c))));
          REol ].

(** The test that skips comments and section headers. *)
Definition is_skipped (line : jsstring) : bool :=
  startsWith (u16 "//") line || startsWith (u16 "#") line ||
  includes (u16 "commander") (toLowerCase line) ||
  includes (u16 "sideboard") (toLowerCase line).

(** One turn of the [for (const line of lines)] loop: [cards] after it. *)
Definition parseDecklist_step (cards : list ParsedLine.t) (line : jsstring)
    : list ParsedLine.t :=
  if is_skipped line then cards
  else
    match str_match line_re line with
    | Some m =>
        let quantity := parseInt (group 1 (m_caps m)) in
        let cardName := trim (group 2 (m_caps m)) in
        match quantity with
        | Some q =>
            if truthy_str cardName && (0 <? q)
            then cards ++ [ParsedLine.mk cardName q]
            else cards
        | None => cards
        end
    | None => cards
    end.

Definition decklist_lines (text : jsstring) : list jsstring :=
  List.filter (fun line => Nat.ltb 0 (length line)) (List.map trim (split LF text)).

Definition parseDecklist (text : jsstring) : list ParsedLine.t :=
  fold_left parseDecklist_step (decklist_lines text) [].

(* ===================================================================== *)
(** ** DeckDetail.jsx: the records of a stored deck *)
(* ===================================================================== *)

(** A field that holds [None] is absent ([undefined] or [null]). *)

Module Stats.
Record t := mk {
  wins : option Z;
  losses : option Z;
  mulligans : option Z;
  totalGames : option Z
}.
End Stats.

Module CardEntry.
Record t := mk {
  name : jsstring;
  quantity : Z;
  imageUrl : option jsstring;
  manaCost : option jsstring;
  cmc : option Z;
  type : option jsstring;
  rarity : jsstring
}.
End CardEntry.

Module Commander.
Record t := mk { name : jsstring; imageUrl : option jsstring }.
End Commander.

Module Deck.
Record t := mk {
  id : jsstring;
  name : jsstring;
  commander : option Commander.t;
  decklist : list CardEntry.t;
  stats : Stats.t;
  notes : jsstring;
  createdAt : jsstring
}.
End Deck.

(** The state of the edit-stats form. *)
Module StatsInput.
Record t := mk { wins : Z; losses : Z; mulligans : Z }.
End StatsInput.

(* ===================================================================== *)
(** ** DeckDetail.jsx: statistics *)
(* ===================================================================== *)

(** The [onChange] handlers of the three number inputs:
    [setStatsInput({ ...statsInput, wins: parseInt(e.target.value) || 0 })]. *)
Definition onChange_wins (statsInput : StatsInput.t) (value : jsstring) : StatsInput.t :=
  StatsInput.mk (num_or_0 (parseInt value))
                (StatsInput.losses statsInput) (StatsInput.mulligans statsInput).

Definition onChange_losses (statsInput : StatsInput.t) (value : jsstring) : StatsInput.t :=
  StatsInput.mk (StatsInput.wins statsInput)
                (num_or_0 (parseInt value)) (StatsInput.mulligans statsInput).

Definition onChange_mulligans (statsInput : StatsInput.t) (value : jsstring) : StatsInput.t :=
  StatsInput.mk (StatsInput.wins statsInput) (StatsInput.losses statsInput)
                (num_or_0 (parseInt value)).

(** [handleUpdateStats]: the deck it hands to [saveDeck]. *)
Definition handleUpdateStats_deck (deck : Deck.t) (statsInput : StatsInput.t)
    (notes : jsstring) : Deck.t :=
  Deck.mk (Deck.id deck) (Deck.name deck) (Deck.commander deck) (Deck.decklist deck)
    (Stats.mk (Some (StatsInput.wins statsInput))
              (Some (StatsInput.losses statsInput))
              (Some (StatsInput.mulligans statsInput))
              (Some (num_or_0 (Some (StatsInput.wins statsInput))
                     + num_or_0 (Some (StatsInput.losses statsInput)))))
    notes (Deck.createdAt deck).

(** The [stat] argument of [handleQuickStatUpdate]: the three buttons pass
    ['wins'], ['losses'] and ['mulligans']. *)
Inductive stat_name := Wins | Losses | Mulligans.

Definition stat_get (stats : Stats.t) (stat : stat_name) : option Z :=
  match stat with
  | Wins => Stats.wins stats
  | Losses => Stats.losses stats
  | Mulligans => Stats.mulligans stats
  end.

Definition stat_set (stats : Stats.t) (stat : stat_name) (v : option Z) : Stats.t :=
  match stat with
  | Wins => Stats.mk v (Stats.losses stats) (Stats.mulligans stats) (Stats.totalGames stats)
  | Losses => Stats.mk (Stats.wins stats) v (Stats.mulligans stats) (Stats.totalGames stats)
  | Mulligans => Stats.mk (Stats.wins stats) (Stats.losses stats) v (Stats.totalGames stats)
  end.

Definition is_wins (stat : stat_name) : bool :=
  match stat with Wins => true | _ => false end.
Definition is_losses (stat : stat_name) : bool :=
  match stat with Losses => true | _ => false end.

(** [updatedStats] of [handleQuickStatUpdate]. *)
Definition updatedStats (stats : Stats.t) (stat : stat_name) (delta : Z) : Stats.t :=
  let s1 := stat_set stats stat (Some (Z.max 0 (num_or_0 (stat_get stats stat) + delta))) in
  Stats.mk (Stats.wins s1) (Stats.losses s1) (Stats.mulligans s1)
    (Some (if is_wins stat || is_losses stat
           then Z.max 0 (num_or_0 (Stats.wins stats) + (if is_wins stat then delta else 0)
                         + num_or_0 (Stats.losses stats) + (if is_losses stat then delta else 0))
           else num_or_0 (Stats.totalGames stats))).

(** [handleQuickStatUpdate]: the deck it hands to [saveDeck]. *)
Definition handleQuickStatUpdate_deck (deck : Deck.t) (stat : stat_name) (delta : Z) : Deck.t :=
  Deck.mk (Deck.id deck) (Deck.name deck) (Deck.commander deck) (Deck.decklist deck)
    (updatedStats (Deck.stats deck) stat delta)
    (Deck.notes deck) (Deck.createdAt deck).

(* ===================================================================== *)
(** ** DeckDetail.jsx: winRate *)
(* ===================================================================== *)

(** The numbers a division can produce.  Finite values are exact rationals
    here; the engine rounds them to doubles. *)
Inductive jsnum := Finite (q : Q) | PosInfinity | NegInfinity | NaN.

Definition js_div (a b : Z) : jsnum :=
  if b =? 0 then
    (if a =? 0 then NaN else if 0 <? a then PosInfinity else NegInfinity)
  else Finite (Qred (inject_Z a / inject_Z b)).

Definition js_mul (x : jsnum) (k : Z) : jsnum :=
  match x with
  | Finite q => Finite (Qred (q * inject_Z k))
  | other => other
  end.

(** Decimal digits of an integer. *)
Definition Z_toString (z : Z) : jsstring :=
  u16 (DecimalString.NilZero.string_of_int (Z.to_int z)).

(** [x.toFixed(1)]: the nearest number with one decimal, the larger one on
    a tie. *)
Definition toFixed1 (x : jsnum) : jsstring :=
  match x with
  | Finite q =>
      let neg := negb (Qle_bool 0 q) in
      let a := if neg then Qopp q else q in
      let n := Qfloor (a * inject_Z 10 + (1 # 2)) in
      (if neg then u16 "-" else []) ++
      Z_toString (n / 10) ++ u16 "." ++ Z_toString (n mod 10)
  | PosInfinity => u16 "Infinity"
  | NegInfinity => u16 "-Infinity"
  | NaN => u16 "NaN"
  end.

(** What the page shows: a string from [toFixed], or the number [0]. *)
Inductive rendered := Text (s : jsstring) | Number (n : Z).

(** [x > 0] for a possibly absent number. *)
Definition gt0 (x : option Z) : bool :=
  match x with Some n => 0 <? n | None => false end.

(** [winRate]; [stats] is [deck.stats], absent when [None]. *)
Definition winRate (stats : option Stats.t) : rendered :=
  match stats with
  | Some st =>
      if gt0 (Stats.totalGames st)
      then Text (toFixed1 (js_mul (js_div (num_or_0 (Stats.wins st))
                                          (num_or_0 (Stats.totalGames st))) 100))
      else Number 0
  | None => Number 0
  end.

(* ===================================================================== *)
(** ** DeckDetail.jsx: getManaValue and getCardType *)
(* ===================================================================== *)

(** [/\{(\d+)\}/g] *)
Definition mana_re : regex :=
  RSeqs [ RChar 123; RGroup 1 (RPlus (RSet isDigit)); RChar 125 ].

(** [/[{}]/g] *)
Definition braces_re : regex :=
  RSet (fun c => N.eqb c 123 || N.eqb c 125).

Definition getManaValue (card : CardEntry.t) : Z :=
  match CardEntry.cmc card with
  | Some cmc => cmc
  | None =>
      match CardEntry.manaCost card with
      | None => 0
      | Some manaCost =>
          if negb (truthy_str manaCost) then 0
          else
            match str_match_all mana_re manaCost with
            | None => 0
            | Some matches =>
                fold_left
                  (fun sum m =>
                     let num := parseInt (str_replace_all braces_re [] m) in
                     sum + match num with None => 0 | Some n => n end)
                  matches 0
            end
      end
  end.

Definition getCardType (typeLine : option jsstring) : jsstring :=
  match typeLine with
  | None => u16 "Unknown"
  | Some typeLine =>
      if negb (truthy_str typeLine) then u16 "Unknown"
      else
        let mainType := trim (hd [] (split EM_DASH typeLine)) in
        if truthy_str mainType then mainType else u16 "Unknown"
  end.

(* ===================================================================== *)
(** ** DeckDetail.jsx: getSortedDecklist *)
(* ===================================================================== *)

(** [Array.prototype.sort] with a comparator: a stable sort.  [x] goes
    before the first element it does not compare greater than. *)
Fixpoint sort_insert {A} (cmp : A → A → Z) (x : A) (l : list A) : list A :=
  match l with
  | [] => [x]
  | y :: l' => if cmp x y <=? 0 then x :: l else y :: sort_insert cmp x l'
  end.

Definition array_sort {A} (cmp : A → A → Z) (l : list A) : list A :=
  foldr (sort_insert cmp) [] l.

(** Arrays are objects: the store maps a reference to the array it
    denotes, and [deck.decklist] is a reference. *)
Abbreviation loc := nat.
Abbreviation heap := (gmap nat (list CardEntry.t)).

(** [[...a]] and [[]]: a new array. *)
Definition array_new (cards : list CardEntry.t) (h : heap) : loc * heap :=
  let l := fresh (dom h) in (l, <[l := cards]> h).

(** [a.sort(cmp)]: sorts the array [a] refers to, in place. *)
Definition array_sort_at (cmp : CardEntry.t → CardEntry.t → Z) (l : loc) (h : heap) : heap :=
  alter (array_sort cmp) l h.

Section Sorting.

(** [a.localeCompare(b)] belongs to the engine and its locale. *)
Variable localeCompare : jsstring → jsstring → Z.

Definition cmp_name (a b : CardEntry.t) : Z :=
  localeCompare (CardEntry.name a) (CardEntry.name b).

Definition cmp_mana (a b : CardEntry.t) : Z :=
  let manaA := getManaValue a in
  let manaB := getManaValue b in
  if negb (manaA =? manaB) then manaA - manaB
  else localeCompare (CardEntry.name a) (CardEntry.name b).

Definition cmp_type (a b : CardEntry.t) : Z :=
  let typeA := getCardType (CardEntry.type a) in
  let typeB := getCardType (CardEntry.type b) in
  if negb (str_eqb typeA typeB) then localeCompare typeA typeB
  else localeCompare (CardEntry.name a) (CardEntry.name b).

(** [getSortedDecklist]; [deck_decklist] is [deck.decklist], absent when
    [None].  The result is the reference it returns and the store after. *)
Definition getSortedDecklist (sortBy : jsstring) (deck_decklist : option loc)
    (h : heap) : loc * heap :=
  match deck_decklist with
  | None => array_new [] h
  | Some d =>
      let '(sorted, h1) := array_new (default [] (h !! d)) h in
      if str_eqb sortBy (u16 "name") then (sorted, array_sort_at cmp_name sorted h1)
      else if str_eqb sortBy (u16 "mana") then (sorted, array_sort_at cmp_mana sorted h1)
      else if str_eqb sortBy (u16 "type") then (sorted, array_sort_at cmp_type sorted h1)
      else (sorted, h1)
  end.

End Sorting.

(* ===================================================================== *)
(** ** JavaScript values and JSON *)
(* ===================================================================== *)

(** The values that [JSON.parse] builds and the object literals of
    [DeckList.jsx] denote.  [VNum m e] is the number [m * 10^e]; an object
    lists its properties in the order they were written. *)
#[local] Set Warnings "-register-all".
Inductive jsval :=
| VUndefined
| VNull
| VBool (b : bool)
| VNum (m e : Z)
| VStr (s : jsstring)
| VArr (vs : list jsval)
| VObj (fields : list (jsstring * jsval)).

Definition VInt (n : Z) : jsval := VNum n 0.

Definition truthy (v : jsval) : bool :=
  match v with
  | VUndefined | VNull => false
  | VBool b => b
  | VNum m _ => negb (m =? 0)
  | VStr s => truthy_str s
  | VArr _ | VObj _ => true
  end.

Definition nullish (v : jsval) : bool :=
  match v with VUndefined | VNull => true | _ => false end.

(** [a || b] and [a ?? b]. *)
Definition js_or (a b : jsval) : jsval := if truthy a then a else b.
Definition js_nullish_or (a b : jsval) : jsval := if nullish a then b else a.

Fixpoint obj_lookup (fields : list (jsstring * jsval)) (k : jsstring) : jsval :=
  match fields with
  | [] => VUndefined
  | (k', v) :: fields' => if str_eqb k' k then v else obj_lookup fields' k
  end.

(** Assignment of a property: in place when the object has it, at the end
    when it does not. *)
Fixpoint obj_set (fields : list (jsstring * jsval)) (k : jsstring) (v : jsval)
    : list (jsstring * jsval) :=
  match fields with
  | [] => [(k, v)]
  | (k', v') :: fields' =>
      if str_eqb k' k then (k', v) :: fields' else (k', v') :: obj_set fields' k v
  end.

(** [v?.k] for a data property [k] (none of the names the program reads is
    a built-in of strings, numbers or arrays). *)
Definition opt_get (v : jsval) (k : jsstring) : jsval :=
  match v with
  | VObj fields => obj_lookup fields k
  | _ => VUndefined
  end.

(** [v?.[0]] *)
Definition opt_get0 (v : jsval) : jsval :=
  match v with
  | VArr (x :: _) => x
  | VStr (c :: _) => VStr [c]
  | VObj fields => obj_lookup fields (u16 "0")
  | _ => VUndefined
  end.

(** [v === s] for a string [s]. *)
Definition strict_eq_str (v : jsval) (s : jsstring) : bool :=
  match v with VStr t => str_eqb t s | _ => false end.

(** *** Number to string *)

Fixpoint drop_zeros (l : jsstring) : jsstring :=
  match l with
  | c :: l' => if N.eqb c 48 then drop_zeros l' else l
  | [] => []
  end.

Definition strip_trailing_zeros (ds : jsstring) : jsstring :=
  rev (drop_zeros (rev ds)).

Definition zeros (n : Z) : jsstring := replicate (Z.to_nat n) 48%N.

(** [Number.prototype.toString] of [m * 10^e]. *)
Definition number_toString (m e : Z) : jsstring :=
  if m =? 0 then u16 "0"
  else
    let sign := if m <? 0 then u16 "-" else [] in
    let all := Z_toString (Z.abs m) in
    let ds := strip_trailing_zeros all in
    let k := Z.of_nat (length ds) in
    let n := Z.of_nat (length all) + e in
    sign ++
    (if (k <=? n) && (n <=? 21) then ds ++ zeros (n - k)
     else if (0 <? n) && (n <=? 21)
          then take (Z.to_nat n) ds ++ u16 "." ++ drop (Z.to_nat n) ds
     else if (-6 <? n) && (n <=? 0) then u16 "0." ++ zeros (- n) ++ ds
     else
       let x := n - 1 in
       let xs := (if x <? 0 then u16 "-" else u16 "+") ++ Z_toString (Z.abs x) in
       match ds with
       | [d] => [d] ++ u16 "e" ++ xs
       | d :: more => [d] ++ u16 "." ++ more ++ u16 "e" ++ xs
       | [] => []
       end).

(** *** JSON.stringify *)

Definition hexDigit (d : N) : N := (if N.ltb d 10 then 48 + d else 87 + d)%N.

Definition escape_u (c : N) : jsstring :=
  u16 "\u" ++ [ hexDigit (c / 4096 mod 16); hexDigit (c / 256 mod 16);
               hexDigit (c / 16 mod 16); hexDigit (c mod 16) ]%N.

Definition isHighSurrogate (c : N) : bool := (N.leb 55296 c && N.leb c 56319)%N.
Definition isLowSurrogate (c : N) : bool := (N.leb 56320 c && N.leb c 57343)%N.

Fixpoint quote_units (s : jsstring) : jsstring :=
  match s with
  | [] => []
  | c :: s' =>
      if N.eqb c 34 then u16 "\" ++ [34%N] ++ quote_units s'
      else if N.eqb c 92 then u16 "\\" ++ quote_units s'
      else if N.eqb c 8 then u16 "\b" ++ quote_units s'
      else if N.eqb c 9 then u16 "\t" ++ quote_units s'
      else if N.eqb c 10 then u16 "\n" ++ quote_units s'
      else if N.eqb c 12 then u16 "\f" ++ quote_units s'
      else if N.eqb c 13 then u16 "\r" ++ quote_units s'
      else if N.ltb c 32 then escape_u c ++ quote_units s'
      else if isHighSurrogate c then
        match s' with
        | d :: s'' =>
            if isLowSurrogate d then c :: d :: quote_units s''
            else escape_u c ++ quote_units s'
        | [] => escape_u c
        end
      else if isLowSurrogate c then escape_u c ++ quote_units s'
      else c :: quote_units s'
  end.

Definition quote (s : jsstring) : jsstring := [34%N] ++ quote_units s ++ [34%N].

Fixpoint join (sep : jsstring) (parts : list jsstring) : jsstring :=
  match parts with
  | [] => []
  | [p] => p
  | p :: parts' => p ++ sep ++ join sep parts'
  end.

(** [JSON.stringify(v)] for a value [v] that is not [undefined]; an
    [undefined] element of an array is written [null] and an [undefined]
    property is left out. *)
Fixpoint JSON_stringify (v : jsval) : jsstring :=
  match v with
  | VUndefined | VNull => u16 "null"
  | VBool true => u16 "true"
  | VBool false => u16 "false"
  | VNum m e => number_toString m e
  | VStr s => quote s
  | VArr vs =>
      u16 "[" ++
      join (u16 ",")
        ((fix elements (vs : list jsval) : list jsstring :=
            match vs with
            | [] => []
            | x :: vs' => JSON_stringify x :: elements vs'
            end) vs) ++
      u16 "]"
  | VObj fields =>
      u16 "{" ++
      join (u16 ",")
        ((fix members (fields : list (jsstring * jsval)) : list jsstring :=
            match fields with
            | [] => []
            | (k, x) :: fields' =>
                match x with
                | VUndefined => members fields'
                | _ => (quote k ++ u16 ":" ++ JSON_stringify x) :: members fields'
                end
            end) fields) ++
      u16 "}"
  end.

(** *** JSON.parse *)

Definition isJsonSpace (c : N) : bool :=
  (N.eqb c 32 || N.eqb c 9 || N.eqb c 10 || N.eqb c 13)%N.

Fixpoint skip_ws (s : jsstring) : jsstring :=
  match s with
  | c :: s' => if isJsonSpace c then skip_ws s' else s
  | [] => []
  end.

Fixpoint span_digits (s : jsstring) : jsstring * jsstring :=
  match s with
  | c :: s' =>
      if isDigit c then let '(ds, rest) := span_digits s' in (c :: ds, rest)
      else ([], s)
  | [] => ([], [])
  end.

Definition digits_to_Z (ds : jsstring) : Z :=
  fold_left (fun acc c => 10 * acc + Z.of_N (c - 48)) ds 0.

(** A JSON number: an optional minus sign, an integer part without a
    leading zero (or the single digit zero), an optional fraction and an
    optional exponent. *)
Definition parse_number (s : jsstring) : option (jsval * jsstring) :=
  let '(neg, s1) :=
    match s with
    | c :: s' => if N.eqb c 45 then (true, s') else (false, s)
    | [] => (false, s)
    end in
  let '(ip, s2) := span_digits s1 in
  let leading_zero :=
    match ip with
    | c :: _ :: _ => N.eqb c 48
    | _ => false
    end in
  if negb (truthy_str ip) || leading_zero then None
  else
    let frac :=
      match s2 with
      | c :: s' =>
          if N.eqb c 46 then
            let '(fp, s3) := span_digits s' in
            if truthy_str fp then Some (fp, s3) else None
          else Some ([], s2)
      | [] => Some ([], s2)
      end in
    match frac with
    | None => None
    | Some (fp, s3) =>
        let expo :=
          match s3 with
          | c :: s' =>
              if N.eqb c 101 || N.eqb c 69 then
                let '(eneg, s4) :=
                  match s' with
                  | d :: s'' =>
                      if N.eqb d 45 then (true, s'')
                      else if N.eqb d 43 then (false, s'')
                      else (false, s')
                  | [] => (false, s')
                  end in
                let '(ep, s5) := span_digits s4 in
                if truthy_str ep
                then Some ((if eneg then -1 else 1) * digits_to_Z ep, s5)
                else None
              else Some (0, s3)
          | [] => Some (0, s3)
          end in
        match expo with
        | None => None
        | Some (x, s5) =>
            let m := digits_to_Z (ip ++ fp) in
            Some (VNum (if neg then - m else m) (x - Z.of_nat (length fp)), s5)
        end
    end.

Definition hexValue (c : N) : option N :=
  (if N.leb 48 c && N.leb c 57 then Some (c - 48)
   else if N.leb 97 c && N.leb c 102 then Some (c - 87)
   else if N.leb 65 c && N.leb c 70 then Some (c - 55)
   else None)%N.

Definition hex4 (a b c d : N) : option N :=
  match hexValue a, hexValue b, hexValue c, hexValue d with
  | Some x, Some y, Some z, Some w => Some (x * 4096 + y * 256 + z * 16 + w)%N
  | _, _, _, _ => None
  end.

Definition simple_escape (c : N) : option N :=
  (if N.eqb c 34 || N.eqb c 92 || N.eqb c 47 then Some c
   else if N.eqb c 98 then Some 8
   else if N.eqb c 102 then Some 12
   else if N.eqb c 110 then Some 10
   else if N.eqb c 114 then Some 13
   else if N.eqb c 116 then Some 9
   else None)%N.

Definition cons_unit (c : N) (r : option (jsstring * jsstring))
    : option (jsstring * jsstring) :=
  match r with
  | Some (str, rest) => Some (c :: str, rest)
  | None => None
  end.

(** The characters of a JSON string after its opening quote, and what
    follows the closing quote. *)
Fixpoint parse_chars (s : jsstring) : option (jsstring * jsstring) :=
  match s with
  | [] => None
  | c :: s1 =>
      if N.eqb c 34 then Some ([], s1)
      else if N.eqb c 92 then
        match s1 with
        | [] => None
        | d :: s2 =>
            if N.eqb d 117 then
              match s2 with
              | h1 :: h2 :: h3 :: h4 :: s3 =>
                  match hex4 h1 h2 h3 h4 with
                  | Some u => cons_unit u (parse_chars s3)
                  | None => None
                  end
              | _ => None
              end
            else
              match simple_escape d with
              | Some u => cons_unit u (parse_chars s2)
              | None => None
              end
        end
      else if N.ltb c 32 then None
      else cons_unit c (parse_chars s1)
  end.

Fixpoint parse_value (fuel : nat) (s : jsstring) {struct fuel}
    : option (jsval * jsstring) :=
  match fuel with
  | O => None
  | S fuel' =>
      match skip_ws s with
      | [] => None
      | c :: s1 =>
          if N.eqb c 123 then
            match skip_ws s1 with
            | d :: s2 =>
                if N.eqb d 125 then Some (VObj [], s2)
                else parse_members fuel' [] s1
            | [] => None
            end
          else if N.eqb c 91 then
            match skip_ws s1 with
            | d :: s2 =>
                if N.eqb d 93 then Some (VArr [], s2)
                else parse_elements fuel' [] s1
            | [] => None
            end
          else if N.eqb c 34 then
            match parse_chars s1 with
            | Some (str, s2) => Some (VStr str, s2)
            | None => None
            end
          else if startsWith (u16 "true") (c :: s1) then Some (VBool true, drop 4 (c :: s1))
          else if startsWith (u16 "false") (c :: s1) then Some (VBool false, drop 5 (c :: s1))
          else if startsWith (u16 "null") (c :: s1) then Some (VNull, drop 4 (c :: s1))
          else parse_number (c :: s1)
      end
  end
with parse_elements (fuel : nat) (acc : list jsval) (s : jsstring) {struct fuel}
    : option (jsval * jsstring) :=
  match fuel with
  | O => None
  | S fuel' =>
      match parse_value fuel' s with
      | Some (v, s1) =>
          match skip_ws s1 with
          | c :: s2 =>
              if N.eqb c 44 then parse_elements fuel' (acc ++ [v]) s2
              else if N.eqb c 93 then Some (VArr (acc ++ [v]), s2)
              else None
          | [] => None
          end
      | None => None
      end
  end
with parse_members (fuel : nat) (acc : list (jsstring * jsval)) (s : jsstring)
    {struct fuel} : option (jsval * jsstring) :=
  match fuel with
  | O => None
  | S fuel' =>
      match skip_ws s with
      | c :: s1 =>
          if N.eqb c 34 then
            match parse_chars s1 with
            | Some (key, s2) =>
                match skip_ws s2 with
                | d :: s3 =>
                    if N.eqb d 58 then
                      match parse_value fuel' s3 with
                      | Some (v, s4) =>
                          match skip_ws s4 with
                          | e :: s5 =>
                              if N.eqb e 44 then parse_members fuel' (obj_set acc key v) s5
                              else if N.eqb e 125 then Some (VObj (obj_set acc key v), s5)
                              else None
                          | [] => None
                          end
                      | None => None
                      end
                    else None
                | [] => None
                end
            | None => None
            end
          else None
      | [] => None
      end
  end.

(** [JSON.parse(s)]; [None] is the [SyntaxError] it throws.  Of two calls
    in a row of the three functions above, one reads a code unit, so the
    fuel, twice the length, is never what ends a parse. *)
Definition JSON_parse (s : jsstring) : option jsval :=
  match parse_value (2 * length s + 2) s with
  | Some (v, rest) =>
      match skip_ws rest with
      | [] => Some v
      | _ :: _ => None
      end
  | None => None
  end.

(* ===================================================================== *)
(** ** Effects: exceptions and the state of the page *)
(* ===================================================================== *)

Inductive exn :=
| SyntaxError
| TypeError
| Error (message : jsstring).

Inductive result (A : Type) :=
| Ok (a : A)
| Throw (e : exn).
Arguments Ok {A} a.
Arguments Throw {A} e.

(** A computation over a state [S] that returns or throws; what it did to
    the state before throwing stays done. *)
Definition M (S A : Type) : Type := S → result A * S.

Definition ret {S A} (a : A) : M S A := fun st => (Ok a, st).

Definition bind {S A B} (m : M S A) (f : A → M S B) : M S B :=
  fun st =>
    match m st with
    | (Ok a, st') => f a st'
    | (Throw e, st') => (Throw e, st')
    end.

Definition throw {S A} (e : exn) : M S A := fun st => (Throw e, st).

Definition try_catch {S A} (m : M S A) (handler : exn → M S A) : M S A :=
  fun st =>
    match m st with
    | (Ok a, st') => (Ok a, st')
    | (Throw e, st') => handler e st'
    end.

(** [try { m } finally { f }] *)
Definition try_finally {S A} (m : M S A) (f : M S unit) : M S A :=
  fun st =>
    match m st with
    | (r, st') =>
        match f st' with
        | (Ok _, st'') => (r, st'')
        | (Throw e, st'') => (Throw e, st'')
        end
    end.

Definition gets {S A} (f : S → A) : M S A := fun st => (Ok (f st), st).
Definition modify {S} (f : S → S) : M S unit := fun st => (Ok tt, f st).

Notation "'let*' x ':=' m 'in' k" := (bind m (fun x => k))
  (at level 10, x binder, m at level 100, k at level 200).

(** What the browser holds besides the page. *)
Record Browser := mkBrowser {
  localStorage : gmap jsstring jsstring;
  alerts : list jsstring;           (* messages shown by [alert], oldest first *)
  console : list jsstring;          (* labels passed to [console.error] *)
  path : option jsstring;           (* where [navigate] went *)
  clock : Z                         (* [Date.now()] *)
}.

Definition mtgDecks : jsstring := u16 "mtgDecks".

Definition setItem (k v : jsstring) (b : Browser) : Browser :=
  mkBrowser (<[k := v]> (localStorage b)) (alerts b) (console b) (path b) (clock b).

Definition add_alert (msg : jsstring) (b : Browser) : Browser :=
  mkBrowser (localStorage b) (alerts b ++ [msg]) (console b) (path b) (clock b).

Definition add_console (msg : jsstring) (b : Browser) : Browser :=
  mkBrowser (localStorage b) (alerts b) (console b ++ [msg]) (path b) (clock b).

Definition set_path (p : jsstring) (b : Browser) : Browser :=
  mkBrowser (localStorage b) (alerts b) (console b) (Some p) (clock b).

Definition tick (ms : Z) (b : Browser) : Browser :=
  mkBrowser (localStorage b) (alerts b) (console b) (path b) (clock b + ms).

(** [JSON.parse] as a computation. *)
Definition JSON_parse_M {S} (s : jsstring) : M S jsval :=
  match JSON_parse s with
  | Some v => ret v
  | None => throw SyntaxError
  end.

(** [v.k] for a data property [k]: reading a property of [null] or
    [undefined] throws. *)
Definition get_prop {S} (v : jsval) (k : jsstring) : M S jsval :=
  if nullish v then throw TypeError else ret (opt_get v k).

(** A method of arrays ([map], [filter], [find]) called on [v]. *)
Definition as_array {S} (v : jsval) : M S (list jsval) :=
  match v with
  | VArr vs => ret vs
  | _ => throw TypeError
  end.

(** [d.id === id] inside a callback. *)
Definition has_id {S} (id : jsstring) (d : jsval) : M S bool :=
  let* v := get_prop d (u16 "id") in ret (strict_eq_str v id).

(** [a.map(f)], [a.filter(p)] and [a.find(p)] with callbacks that can throw. *)
Fixpoint mapM {S A B} (f : A → M S B) (l : list A) : M S (list B) :=
  match l with
  | [] => ret []
  | x :: l' => let* y := f x in let* ys := mapM f l' in ret (y :: ys)
  end.

Fixpoint filterM {S A} (p : A → M S bool) (l : list A) : M S (list A) :=
  match l with
  | [] => ret []
  | x :: l' => let* b := p x in let* ys := filterM p l' in ret (if b then x :: ys else ys)
  end.

Fixpoint findM {S A} (p : A → M S bool) (l : list A) : M S (option A) :=
  match l with
  | [] => ret None
  | x :: l' => let* b := p x in if b then ret (Some x) else findM p l'
  end.

(* ===================================================================== *)
(** ** DeckDetail.jsx: loading and saving *)
(* ===================================================================== *)

(** The load effect of the detail page.  The result is the argument of
    [setDeck]: [None] when [setDeck] is not called and the page shows
    "Deck not found". *)
Definition DeckDetail_load (id : jsstring) : M Browser (option jsval) :=
  let* savedDecks := gets (fun b => localStorage b !! mtgDecks) in
  match savedDecks with
  | Some text =>
      if truthy_str text then
        let* parsed := JSON_parse_M text in
        let* decks := as_array parsed in
        let* foundDeck := findM (has_id id) decks in
        match foundDeck with
        | Some d => if truthy d then ret (Some d) else ret None
        | None => ret None
        end
      else ret None
  | None => ret None
  end.

(** [saveDeck(updatedDeck)] on the page of deck [id].  The result tells
    whether [setDeck(updatedDeck)] was called. *)
Definition saveDeck (id : jsstring) (updatedDeck : jsval) : M Browser bool :=
  let* savedDecks := gets (fun b => localStorage b !! mtgDecks) in
  match savedDecks with
  | Some text =>
      if truthy_str text then
        let* parsed := JSON_parse_M text in
        let* decks := as_array parsed in
        let* updatedDecks :=
          mapM (fun d => let* b := has_id id d in
                         ret (if b then updatedDeck else d)) decks in
        let* _ := modify (setItem mtgDecks (JSON_stringify (VArr updatedDecks))) in
        ret true
      else ret false
  | None => ret false
  end.

(** The object literals that hold a deck. *)
Definition opt_num (x : option Z) : jsval :=
  match x with Some n => VInt n | None => VUndefined end.

Definition opt_str (x : option jsstring) : jsval :=
  match x with Some s => VStr s | None => VNull end.

Definition Stats_to_jsval (st : Stats.t) : jsval :=
  VObj [ (u16 "wins", opt_num (Stats.wins st));
         (u16 "losses", opt_num (Stats.losses st));
         (u16 "mulligans", opt_num (Stats.mulligans st));
         (u16 "totalGames", opt_num (Stats.totalGames st)) ].

Definition CardEntry_to_jsval (c : CardEntry.t) : jsval :=
  VObj [ (u16 "name", VStr (CardEntry.name c));
         (u16 "quantity", VInt (CardEntry.quantity c));
         (u16 "imageUrl", opt_str (CardEntry.imageUrl c));
         (u16 "manaCost", match CardEntry.manaCost c with Some s => VStr s | None => VUndefined end);
         (u16 "cmc", match CardEntry.cmc c with Some n => VInt n | None => VNull end);
         (u16 "type", match CardEntry.type c with Some s => VStr s | None => VUndefined end);
         (u16 "rarity", VStr (CardEntry.rarity c)) ].

Definition Commander_to_jsval (c : option Commander.t) : jsval :=
  match c with
  | Some c => VObj [ (u16 "name", VStr (Commander.name c));
                     (u16 "imageUrl", opt_str (Commander.imageUrl c)) ]
  | None => VNull
  end.

Definition Deck_to_jsval (d : Deck.t) : jsval :=
  VObj [ (u16 "id", VStr (Deck.id d));
         (u16 "name", VStr (Deck.name d));
         (u16 "commander", Commander_to_jsval (Deck.commander d));
         (u16 "decklist", VArr (List.map CardEntry_to_jsval (Deck.decklist d)));
         (u16 "stats", Stats_to_jsval (Deck.stats d));
         (u16 "notes", VStr (Deck.notes d));
         (u16 "createdAt", VStr (Deck.createdAt d)) ].

(** [handleUpdateStats] on the page of deck [id]; [deck], [statsInput] and
    [notes] are the state of the page.  The result is the deck the page
    holds afterwards and whether the modal is still shown. *)
Definition handleUpdateStats (id : jsstring) (deck : Deck.t)
    (statsInput : StatsInput.t) (notes : jsstring) : M Browser (Deck.t * bool) :=
  let updatedDeck := handleUpdateStats_deck deck statsInput notes in
  let* saved := saveDeck id (Deck_to_jsval updatedDeck) in
  ret (if saved then updatedDeck else deck, false).

(** [handleQuickStatUpdate(stat, delta)] on the page of deck [id]. *)
Definition handleQuickStatUpdate (id : jsstring) (deck : Deck.t)
    (stat : stat_name) (delta : Z) : M Browser Deck.t :=
  let updatedDeck := handleQuickStatUpdate_deck deck stat delta in
  let* saved := saveDeck id (Deck_to_jsval updatedDeck) in
  ret (if saved then updatedDeck else deck).

(* ===================================================================== *)
(** ** DeckList.jsx *)
(* ===================================================================== *)

(** The state of the [DeckList] component. *)
Record DeckListState := mkState {
  decks : jsval;
  showImportModal : bool;
  decklistText : jsstring;
  deckName : jsstring;
  commanderName : jsstring;
  importing : bool
}.

Definition initialState : DeckListState :=
  mkState (VArr []) false [] [] [] false.

(** The two queries of the card service, and what [fetch] resolves to. *)
Inductive request :=
| CardsNamedExact (cardName : jsstring)   (* /cards/named?exact=... *)
| CardsSearch (q : jsstring).             (* /cards/search?q=... *)

Record Response := mkResponse {
  ok : bool;
  body : option jsval    (* [response.json()]; [None] when it rejects *)
}.

(** [[...v]] *)
Fixpoint code_points (s : jsstring) : list jsval :=
  match s with
  | [] => []
  | c :: s' =>
      if isHighSurrogate c then
        match s' with
        | d :: s'' =>
            if isLowSurrogate d then VStr [c; d] :: code_points s''
            else VStr [c] :: code_points s'
        | [] => [VStr [c]]
        end
      else VStr [c] :: code_points s'
  end.

Definition spread {S} (v : jsval) : M S (list jsval) :=
  match v with
  | VArr vs => ret vs
  | VStr s => ret (code_points s)
  | _ => throw TypeError
  end.

(** [v.length] and [x > 0] on what the service sent.  (A length that is
    not a number would be converted by the engine; here it does not
    compare greater.) *)
Definition length_of (v : jsval) : jsval :=
  match v with
  | VArr vs => VInt (Z.of_nat (length vs))
  | VStr s => VInt (Z.of_nat (length s))
  | VObj fields => obj_lookup fields (u16 "length")
  | _ => VUndefined
  end.

Definition js_gt0 (v : jsval) : bool :=
  match v with
  | VNum m _ => 0 <? m
  | VBool b => b
  | _ => false
  end.

Section DeckList.

(** The network: [fetch] answers a request or rejects ([None]), and the
    world moves on. *)
Context {World : Type}.
Variable fetch : request → World → option Response * World.

(** [new Date(ms).toISOString()] belongs to the engine. *)
Variable toISOString : Z → jsstring.

Record Page := mkPage {
  browser : Browser;
  world : World;
  state : DeckListState
}.

Definition on_browser (f : Browser → Browser) : M Page unit :=
  modify (fun p => mkPage (f (browser p)) (world p) (state p)).

Definition on_state (f : DeckListState → DeckListState) : M Page unit :=
  modify (fun p => mkPage (browser p) (world p) (f (state p))).

Definition alert (msg : jsstring) : M Page unit := on_browser (add_alert msg).
Definition console_error (label : jsstring) : M Page unit := on_browser (add_console label).
Definition navigate (to : jsstring) : M Page unit := on_browser (set_path to).

(** [await new Promise(resolve => setTimeout(resolve, ms))] *)
Definition sleep (ms : Z) : M Page unit := on_browser (tick ms).

Definition setDecks (v : jsval) : M Page unit :=
  on_state (fun st => mkState v (showImportModal st) (decklistText st)
                              (deckName st) (commanderName st) (importing st)).
Definition setShowImportModal (b : bool) : M Page unit :=
  on_state (fun st => mkState (decks st) b (decklistText st)
                              (deckName st) (commanderName st) (importing st)).
Definition setDecklistText (t : jsstring) : M Page unit :=
  on_state (fun st => mkState (decks st) (showImportModal st) t
                              (deckName st) (commanderName st) (importing st)).
Definition setDeckName (t : jsstring) : M Page unit :=
  on_state (fun st => mkState (decks st) (showImportModal st) (decklistText st)
                              t (commanderName st) (importing st)).
Definition setCommanderName (t : jsstring) : M Page unit :=
  on_state (fun st => mkState (decks st) (showImportModal st) (decklistText st)
                              (deckName st) t (importing st)).
Definition setImporting (b : bool) : M Page unit :=
  on_state (fun st => mkState (decks st) (showImportModal st) (decklistText st)
                              (deckName st) (commanderName st) b).

(** The load effect of the list page. *)
Definition DeckList_load : M Page unit :=
  let* savedDecks := gets (fun p => localStorage (browser p) !! mtgDecks) in
  match savedDecks with
  | Some text =>
      if truthy_str text then
        let* parsed := JSON_parse_M text in
        setDecks parsed
      else ret tt
  | None => ret tt
  end.

Definition saveDecks (newDecks : jsval) : M Page unit :=
  let* _ := setDecks newDecks in
  on_browser (setItem mtgDecks (JSON_stringify newDecks)).

(** [await fetch(url)].  The request carries the name as it is; how long
    the answer takes is not modelled, so the clock stands for the least
    time that has passed. *)
Definition await_fetch (rq : request) : M Page Response :=
  fun p =>
    match fetch rq (world p) with
    | (Some r, w) => (Ok r, mkPage (browser p) w (state p))
    | (None, w) => (Throw (Error (u16 "Failed to fetch")), mkPage (browser p) w (state p))
    end.

Definition response_json (r : Response) : M Page jsval :=
  match body r with
  | Some v => ret v
  | None => throw SyntaxError
  end.

Definition fetchScryfallCard (cardName : jsstring) : M Page jsval :=
  try_catch
    (let* response := await_fetch (CardsNamedExact cardName) in
     if negb (ok response) then
       let* response := await_fetch (CardsSearch cardName) in
       if negb (ok response) then ret VNull
       else
         let* searchData := response_json response in
         let* data := get_prop searchData (u16 "data") in
         if truthy data && js_gt0 (length_of data)
         then ret (opt_get0 data)
         else ret VNull
     else response_json response)
    (fun error =>
       let* _ := console_error (u16 "Error fetching Scryfall card:") in
       ret VNull).

(** [handleDeleteDeck(deckId)]; [answer] is what [window.confirm]
    returned. *)
Definition handleDeleteDeck (answer : bool) (deckId : jsstring) : M Page unit :=
  if answer then
    let* current := gets (fun p => decks (state p)) in
    let* ds := as_array current in
    let* updatedDecks :=
      filterM (fun deck => let* b := has_id deckId deck in ret (negb b)) ds in
    saveDecks (VArr updatedDecks)
  else ret tt.

Section HandleImport.

(** The lookup that [handleImport] awaits for every card: in the
    program it is [fetchScryfallCard]. *)
Variable lookup : jsstring → M Page jsval.

Definition image_of (data : jsval) : jsval :=
  js_or (js_or (opt_get (opt_get data (u16 "image_uris")) (u16 "normal"))
               (opt_get (opt_get (opt_get0 (opt_get data (u16 "card_faces")))
                                 (u16 "image_uris")) (u16 "normal")))
        VNull.

(** The object pushed on [decklist]. *)
Definition card_entry (card : ParsedLine.t) (scryfallData : jsval) : jsval :=
  VObj [ (u16 "name", VStr (ParsedLine.name card));
         (u16 "quantity", VInt (ParsedLine.quantity card));
         (u16 "imageUrl", image_of scryfallData);
         (u16 "manaCost", js_or (opt_get scryfallData (u16 "mana_cost")) (VStr []));
         (u16 "cmc",
           js_nullish_or (opt_get scryfallData (u16 "cmc"))
             (js_nullish_or
                (opt_get (opt_get0 (opt_get scryfallData (u16 "card_faces"))) (u16 "cmc"))
                VNull));
         (u16 "type", js_or (opt_get scryfallData (u16 "type_line")) (VStr []));
         (u16 "rarity", js_or (opt_get scryfallData (u16 "rarity")) (VStr [])) ].

(** The [for (const card of parsedCards)] loop, from the values of
    [decklist] and [commanderData] before a turn to those after the
    last one. *)
Fixpoint import_loop (commanderToFind : jsstring) (parsedCards : list ParsedLine.t)
    (decklist : list jsval) (commanderData : jsval) : M Page (list jsval * jsval) :=
  match parsedCards with
  | [] => ret (decklist, commanderData)
  | card :: rest =>
      let* scryfallData := lookup (ParsedLine.name card) in
      let commanderData' :=
        if str_eqb (toLowerCase (ParsedLine.name card)) (toLowerCase commanderToFind)
           && negb (truthy commanderData)
        then scryfallData else commanderData in
      let decklist' := decklist ++ [card_entry card scryfallData] in
      let* _ := sleep 100 in
      import_loop commanderToFind rest decklist' commanderData'
  end.

Definition no_cards_message : jsstring :=
  u16 "No valid cards found in decklist. Please check the format (e.g., "
  ++ [34%N] ++ u16 "1 Card Name" ++ [34%N] ++ u16 " or " ++ [34%N]
  ++ u16 "1x Card Name" ++ [34%N] ++ u16 ")".

Definition newDeck_of (now : Z) (deckName commanderName : jsstring)
    (first : ParsedLine.t) (decklist : list jsval) (commanderData : jsval) : jsval :=
  VObj [ (u16 "id", VStr (Z_toString now));
         (u16 "name", VStr (trim deckName));
         (u16 "commander",
           if truthy commanderData then
             VObj [ (u16 "name",
                      VStr (if truthy_str (trim commanderName)
                            then trim commanderName else ParsedLine.name first));
                    (u16 "imageUrl", image_of commanderData) ]
           else if truthy_str (trim commanderName) then
             VObj [ (u16 "name", VStr (trim commanderName));
                    (u16 "imageUrl", VNull) ]
           else VNull);
         (u16 "decklist", VArr decklist);
         (u16 "stats", VObj [ (u16 "wins", VInt 0); (u16 "losses", VInt 0);
                              (u16 "mulligans", VInt 0); (u16 "totalGames", VInt 0) ]);
         (u16 "notes", VStr []);
         (u16 "createdAt", VStr (toISOString now)) ].

(** The body of the [try] block of [handleImport], with the state the
    handler closed over. *)
Definition import_try (st : DeckListState) : M Page unit :=
  let parsedCards := parseDecklist (decklistText st) in
  match parsedCards with
  | [] =>
      let* _ := alert no_cards_message in
      setImporting false
  | first :: _ =>
      let commanderToFind :=
        if truthy_str (trim (commanderName st)) then trim (commanderName st)
        else ParsedLine.name first in
      let* '(decklist, commanderData) :=
        import_loop commanderToFind parsedCards [] VNull in
      let* commanderData :=
        if truthy_str (trim (commanderName st)) && negb (truthy commanderData)
        then lookup (trim (commanderName st))
        else ret commanderData in
      let* now := gets (fun p => clock (browser p)) in
      let newDeck :=
        newDeck_of now (deckName st) (commanderName st) first decklist commanderData in
      let* old := spread (decks st) in
      let updatedDecks := old ++ [newDeck] in
      let* _ := saveDecks (VArr updatedDecks) in
      let* _ := setShowImportModal false in
      let* _ := setDecklistText [] in
      let* _ := setDeckName [] in
      let* _ := setCommanderName [] in
      navigate (u16 "/deck/" ++ Z_toString now)
  end.

Definition failure_message : jsstring :=
  u16 "Failed to import deck. Please check the decklist format and try again.".

Definition handleImport_with : M Page unit :=
  let* st := gets state in
  if negb (truthy_str (trim (decklistText st))) then
    alert (u16 "Please paste a decklist")
  else if negb (truthy_str (trim (deckName st))) then
    alert (u16 "Please enter a deck name")
  else
    let* _ := setImporting true in
    try_finally
      (try_catch (import_try st)
         (fun error =>
            let* _ := alert failure_message in
            console_error (u16 "Import error:")))
      (setImporting false).

(** What the [try] block does to the page that shows "Importing...". *)
Definition import_attempt (p : Page) : result unit * Page :=
  import_try (state p) (snd (setImporting true p)).

(** A lookup that has no hand in the local storage. *)
Definition keeps_storage : Prop :=
  ∀ name p, localStorage (browser (snd (lookup name p))) = localStorage (browser p).

End HandleImport.

Definition handleImport : M Page unit := handleImport_with fetchScryfallCard.

End DeckList.

(* ===================================================================== *)
(** ** Predicates of the statements, and sample data *)
(* ===================================================================== *)

(** "Does not compare greater": the order a comparator sorts by. *)
Definition not_greater {A} (cmp : A → A → Z) (a b : A) : Prop := cmp a b ≤ 0.

Definition sample_text : jsstring :=
  u16 "1 Sol Ring" ++ [LF] ++ u16 "2x Arcane Signet" ++ [LF] ++
  u16 "1 - Command Tower" ++ [LF] ++ u16 "// comment" ++ [LF] ++
  u16 "Commander: Foo" ++ [LF] ++ [LF].

(** A line has a leading integer when its first code unit is a digit. *)
Definition leading_integer (line : jsstring) : bool :=
  match line with
  | c :: _ => isDigit c
  | [] => false
  end.

Definition card_with (manaCost : option jsstring) (cmc : option Z) : CardEntry.t :=
  CardEntry.mk (u16 "Card") 1 None manaCost cmc None [].

Definition zero_stats : Stats.t := Stats.mk (Some 0) (Some 0) (Some 0) (Some 0).

(** [d.id === id] as a test on a value that is not [null]. *)
Definition id_matches (id : jsstring) (d : jsval) : bool :=
  strict_eq_str (opt_get d (u16 "id")) id.

Definition deck_17 : Deck.t :=
  Deck.mk (u16 "17") (u16 "Golems") None [] zero_stats [] (u16 "2023-11-14").
Definition deck_18 : Deck.t :=
  Deck.mk (u16 "18") (u16 "Elves") None [] zero_stats [] (u16 "2023-11-15").
Definition deck_18_won : Deck.t := handleQuickStatUpdate_deck deck_18 Wins 1.

Definition two_decks : list jsval := [Deck_to_jsval deck_17; Deck_to_jsval deck_18].

Definition browser_with (text : jsstring) : Browser :=
  mkBrowser {[ mtgDecks := text ]} [] [] None 1700000000000.

Definition page_with (text : jsstring) (st : DeckListState) : Page (World := unit) :=
  mkPage (browser_with text) tt st.

Definition empty_browser : Browser := mkBrowser ∅ [] [] None 1700000000000.

(** A lookup that answers for the first card and fails for the others. *)
Definition failing_lookup (cardName : jsstring) : M (Page (World := unit)) jsval :=
  if str_eqb cardName (u16 "Sol Ring") then ret VNull
  else throw (Error (u16 "Failed to fetch")).

Definition import_page : Page (World := unit) :=
  page_with (JSON_stringify (VArr two_decks))
    (mkState (VArr two_decks) true
       (u16 "1 Sol Ring" ++ [LF] ++ u16 "1 Arcane Signet")
       (u16 "Artifacts") [] false).

Definition fixed_date (_ : Z) : jsstring := u16 "2023-11-14T22:13:20.000Z".

(** A comparator is consistent when "does not compare greater" is a total
    preorder: these are the comparators on which the engine's sort is
    specified. *)
Record consistent {A} (cmp : A → A → Z) : Prop := {
  cmp_antisym : ∀ a b, Z.sgn (cmp b a) = - Z.sgn (cmp a b);
  cmp_trans : ∀ a b c, cmp a b ≤ 0 → cmp b c ≤ 0 → cmp a c ≤ 0
}.

(** A collation to run the sort with: the order of the code units. *)
Fixpoint compare_units (a b : jsstring) : Z :=
  match a, b with
  | [], [] => 0
  | [], _ :: _ => -1
  | _ :: _, [] => 1
  | x :: a', y :: b' =>
      if N.ltb x y then -1
      else if N.ltb y x then 1
      else compare_units a' b'
  end.

Definition card_named (name : string) (cost : string) (ty : string) : CardEntry.t :=
  CardEntry.mk (u16 name) 1 None (Some (u16 cost)) None (Some (u16 ty)) (u16 "common").

Definition sample_cards : list CardEntry.t :=
  [ card_named "Sol Ring" "{1}" "Artifact";
    card_named "Command Tower" "" "Land";
    card_named "Arcane Signet" "{2}" "Artifact" ].

Definition sample_heap : heap := {[ 0%nat := sample_cards ]}.

(** The deck [d] with other statistics. *)
Definition with_stats (d : Deck.t) (st : Stats.t) : Deck.t :=
  Deck.mk (Deck.id d) (Deck.name d) (Deck.commander d) (Deck.decklist d) st
          (Deck.notes d) (Deck.createdAt d).

(** A browser in which the two sample decks are stored. *)
Definition stored_two_decks : Browser := browser_with (JSON_stringify (VArr two_decks)).

(** What the card service knows: one card. *)
Definition sol_ring_data : jsval :=
  VObj [ (u16 "name", VStr (u16 "Sol Ring"));
         (u16 "mana_cost", VStr (u16 "{1}"));
         (u16 "cmc", VInt 1);
         (u16 "type_line", VStr (u16 "Artifact"));
         (u16 "rarity", VStr (u16 "uncommon"));
         (u16 "image_uris", VObj [ (u16 "normal", VStr (u16 "https://cards.example/sol-ring.jpg")) ]) ].

Definition sample_fetch (rq : request) (w : unit) : option Response * unit :=
  match rq with
  | CardsNamedExact cardName =>
      if str_eqb cardName (u16 "Sol Ring")
      then (Some (mkResponse true (Some sol_ring_data)), tt)
      else (Some (mkResponse false None), tt)
  | CardsSearch _ => (Some (mkResponse false None), tt)
  end.

(* ===================================================================== *)
(** ** Predicates and sample data of the further properties *)
(* ===================================================================== *)

(** What can stand between the quantity and the name of a line: white
    space, an [x], white space, a dash, white space, each optional. *)
Definition separator (ws1 : jsstring) (x : bool) (ws2 : jsstring) (dash : bool)
    (ws3 : jsstring) : jsstring :=
  ws1 ++ (if x then [120%N] else []) ++ ws2 ++ (if dash then [45%N] else []) ++ ws3.

(** A code unit that the pattern cannot take for a part of the separator
    or of the quantity. *)
Definition name_can_start (c : N) : bool :=
  negb (isWhiteSpace c || isDigit c || N.eqb c 120 || N.eqb c 45).

(** The class of [.] in a pattern. *)
Definition not_terminator (c : N) : bool := negb (isLineTerminator c).

(** The pattern of a line from its [n]-th part on. *)
Definition line_re_from (n : nat) : regex :=
  RSeqs (drop n [ RBol;
                  RGroup 1 (RPlus (RSet isDigit));
                  RStar (RSet isWhiteSpace);
                  ROpt (RChar 120);
                  RStar (RSet isWhiteSpace);
                  ROpt (RChar 45);
                  RStar (RSet isWhiteSpace);
                  RGroup 2 (RPlus (RSet not_terminator));
                  REol ]).

(** A string is trimmed when neither its first nor its last code unit is
    white space. *)
Definition starts_clean (s : jsstring) : Prop :=
  match s with [] => True | c :: _ => isWhiteSpace c = false end.
Definition trimmed (s : jsstring) : Prop := starts_clean s ∧ starts_clean (rev s).

(** What every parsed card satisfies. *)
Definition well_formed_card (card : ParsedLine.t) : Prop :=
  0 < ParsedLine.quantity card
  ∧ ParsedLine.name card ≠ []
  ∧ trimmed (ParsedLine.name card).

(** The units a separator is made of. *)
Definition separator_unit (c : N) : bool :=
  isWhiteSpace c || N.eqb c 120 || N.eqb c 45.

(** Statistics as the data model wants them: no negative number, and the
    total the sum of wins and losses. *)
Definition consistent_stats (s : Stats.t) : Prop :=
  ∃ w l m, 0 ≤ w ∧ 0 ≤ l ∧ 0 ≤ m
           ∧ s = Stats.mk (Some w) (Some l) (Some m) (Some (w + l)).

(** A run of clicks on the quick-adjust buttons. *)
Definition quick_adjusts (clicks : list (stat_name * Z)) (s : Stats.t) : Stats.t :=
  fold_left (fun s click => updatedStats s (fst click) (snd click)) clicks s.

(** The [onBlur] handler of the notes field on the page of deck [id]:
    [saveDeck({ ...deck, notes: notes })].  The result is the deck the page
    holds afterwards. *)
Definition handleNotesBlur (id : jsstring) (deck : Deck.t) (notes : jsstring)
    : M Browser Deck.t :=
  let updatedDeck :=
    Deck.mk (Deck.id deck) (Deck.name deck) (Deck.commander deck) (Deck.decklist deck)
            (Deck.stats deck) notes (Deck.createdAt deck) in
  let* saved := saveDeck id (Deck_to_jsval updatedDeck) in
  ret (if saved then updatedDeck else deck).

(** The page after a confirmed deletion that keeps the decks [kept]. *)
Definition page_keeping {World : Type} (kept : list jsval) (p : Page (World := World))
    : Page (World := World) :=
  mkPage (setItem mtgDecks (JSON_stringify (VArr kept)) (browser p))
         (world p)
         (mkState (VArr kept) (showImportModal (state p)) (decklistText (state p))
                  (deckName (state p)) (commanderName (state p)) (importing (state p))).

(** The decks a deletion of [deckId] keeps. *)
Definition without_id (deckId : jsstring) (ds : list jsval) : list jsval :=
  List.filter (fun d => negb (id_matches deckId d)) ds.

(** The page [p] with another console and another world: all a lookup of
    the program changes. *)
Definition set_console_world {World : Type} (c : list jsstring) (w : World)
    (p : Page (World := World)) : Page (World := World) :=
  mkPage (mkBrowser (localStorage (browser p)) (alerts (browser p)) c
                    (path (browser p)) (clock (browser p)))
         w (state p).

(** A lookup that always returns, with a value that satisfies [P], and
    changes the console and the world only. *)
Definition lookup_returns {World : Type} (P : jsstring → jsval → Prop)
    (lookup : jsstring → M (Page (World := World)) jsval) : Prop :=
  ∀ name p, ∃ v c w, P name v ∧ lookup name p = (Ok v, set_console_world c w p).

(** [commanderData] after the loop over [cards], when the lookups returned
    [datas]. *)
Fixpoint capture (commanderToFind : jsstring) (cards : list ParsedLine.t)
    (datas : list jsval) (commanderData : jsval) : jsval :=
  match cards, datas with
  | card :: cards', data :: datas' =>
      capture commanderToFind cards' datas'
        (if str_eqb (toLowerCase (ParsedLine.name card)) (toLowerCase commanderToFind)
            && negb (truthy commanderData)
         then data else commanderData)
  | _, _ => commanderData
  end.

(** The page after [n] turns of the loop: the clock has moved by the
    pacing delays. *)
Definition page_after_loop {World : Type} (n : nat) (c : list jsstring) (w : World)
    (p : Page (World := World)) : Page (World := World) :=
  mkPage (mkBrowser (localStorage (browser p)) (alerts (browser p)) c
                    (path (browser p)) (clock (browser p) + 100 * Z.of_nat n))
         w (state p).

(** The page after an import of [n] cards that appended [newDeck] to [old]. *)
Definition page_after_import {World : Type} (n : nat) (old : list jsval)
    (newDeck : jsval) (c : list jsstring) (w : World) (p : Page (World := World))
    : Page (World := World) :=
  let now := clock (browser p) + 100 * Z.of_nat n in
  mkPage (mkBrowser (<[ mtgDecks := JSON_stringify (VArr (old ++ [newDeck])) ]>
                       (localStorage (browser p)))
                    (alerts (browser p)) c
                    (Some (u16 "/deck/" ++ Z_toString now)) now)
         w (mkState (VArr (old ++ [newDeck])) false [] [] [] false).

(** The target of the commander search. *)
Definition commander_target (st : DeckListState) (first : ParsedLine.t) : jsstring :=
  if truthy_str (trim (commanderName st)) then trim (commanderName st)
  else ParsedLine.name first.

(** A card service that cannot be reached or knows no card: every request
    is rejected or answered with a status that is not ok. *)
Definition unavailable {World : Type}
    (fetch : request → World → option Response * World) : Prop :=
  ∀ rq w, match fst (fetch rq w) with
          | Some r => ok r = false
          | None => True
          end.

(** The entry of a card the service knew nothing about. *)
Definition bare_entry (card : ParsedLine.t) : jsval :=
  VObj [ (u16 "name", VStr (ParsedLine.name card));
         (u16 "quantity", VInt (ParsedLine.quantity card));
         (u16 "imageUrl", VNull);
         (u16 "manaCost", VStr []);
         (u16 "cmc", VNull);
         (u16 "type", VStr []);
         (u16 "rarity", VStr []) ].

(** A service that is down. *)
Definition no_service (rq : request) (w : unit) : option Response * unit := (None, tt).

(** The import form filled with a comment only. *)
Definition comment_page : Page (World := unit) :=
  mkPage empty_browser tt
    (mkState (VArr []) true (u16 "// nothing yet") (u16 "Artifacts") [] false).

(** The import form with a commander that is not in the list. *)
Definition commander_page : Page (World := unit) :=
  mkPage empty_browser tt
    (mkState (VArr []) true (u16 "1 Arcane Signet") (u16 "Artifacts") (u16 " Sol Ring ") false).

(** What a successful import of [n] cards leaves: [newDeck] is appended to
    the [old] collection, in the state and in the storage; no alert was
    shown; the form is closed and cleared; the page went to the new deck;
    the pacing delays were taken. *)
Definition imported {World : Type} (n : nat) (old : list jsval) (newDeck : jsval)
    (p p' : Page (World := World)) : Prop :=
  state p' = mkState (VArr (old ++ [newDeck])) false [] [] [] false
  ∧ localStorage (browser p')
    = <[ mtgDecks := JSON_stringify (VArr (old ++ [newDeck])) ]> (localStorage (browser p))
  ∧ alerts (browser p') = alerts (browser p)
  ∧ (∃ id, opt_get newDeck (u16 "id") = VStr id
           ∧ path (browser p') = Some (u16 "/deck/" ++ id))
  ∧ clock (browser p) + 100 * Z.of_nat n ≤ clock (browser p').



(** The sort keys of the page. *)
Definition is_sort_key (sortBy : jsstring) : bool :=
  str_eqb sortBy (u16 "name") || str_eqb sortBy (u16 "mana") || str_eqb sortBy (u16 "type").

(** The comparator that [getSortedDecklist] passes to [sort] for a key. *)
Definition comparator (localeCompare : jsstring → jsstring → Z) (sortBy : jsstring)
    : option (CardEntry.t → CardEntry.t → Z) :=
  if str_eqb sortBy (u16 "name") then Some (cmp_name localeCompare)
  else if str_eqb sortBy (u16 "mana") then Some (cmp_mana localeCompare)
  else if str_eqb sortBy (u16 "type") then Some (cmp_type localeCompare)
  else None.


(** A text without the dash that separates the types from the subtypes. *)
Definition dashless (s : jsstring) : bool := forallb (fun c => negb (N.eqb c EM_DASH)) s.

(** A mana cost is a row of symbols in braces; the generic symbols are
    the numbers. *)
Definition braced (t : jsstring) : jsstring := 123%N :: t ++ [125%N].

Definition mana_cost (symbols : list jsstring) : jsstring := concat (map braced symbols).

Definition is_number (t : jsstring) : bool := truthy_str t && forallb isDigit t.

Definition no_brace (c : N) : bool := negb (N.eqb c 123 || N.eqb c 125).

Definition symbol_value (t : jsstring) : Z := if is_number t then digits_to_Z t else 0.

(** The code units of a decimal numeral. *)
Definition uint_units (d : Decimal.uint) : jsstring := u16 (NilEmpty.string_of_uint d).

(** What can follow a value in a JSON text: nothing, a comma, or the end
    of an array or of an object. *)
Definition closes (rest : jsstring) : Prop :=
  match rest with
  | [] => True
  | c :: _ => c = 44%N ∨ c = 93%N ∨ c = 125%N
  end.

(** A string of the language: its code units are 16 bits wide. *)
Definition valid_string (s : jsstring) : bool := forallb (fun c => N.ltb c 65536) s.

(** A property name that is not an array index: the language keeps those
    apart, before the other properties. *)
Definition valid_name (k : jsstring) : bool :=
  valid_string k && match k with c :: _ => negb (isDigit c) | [] => true end.

(** What [JSON.parse] gives back for what [JSON.stringify] wrote: an
    [undefined] element of an array has become [null] and an [undefined]
    property is gone. *)
Definition is_defined (v : jsval) : bool :=
  match v with VUndefined => false | _ => true end.

Fixpoint stored_form (v : jsval) : jsval :=
  match v with
  | VUndefined => VNull
  | VArr vs =>
      VArr ((fix elements (vs : list jsval) : list jsval :=
               match vs with
               | [] => []
               | x :: vs' => stored_form x :: elements vs'
               end) vs)
  | VObj fields =>
      VObj ((fix members (fields : list (jsstring * jsval)) : list (jsstring * jsval) :=
               match fields with
               | [] => []
               | (k, x) :: fields' =>
                   if is_defined x then (k, stored_form x) :: members fields'
                   else members fields'
               end) fields)
  | _ => v
  end.

(** The properties that are written. *)
Definition defined_fields (fields : list (jsstring * jsval)) : list (jsstring * jsval) :=
  List.filter (fun kv => is_defined (snd kv)) fields.

Definition member (kv : jsstring * jsval) : jsstring :=
  quote (fst kv) ++ u16 ":" ++ JSON_stringify (snd kv).

Fixpoint distinct (ks : list jsstring) : bool :=
  match ks with
  | [] => true
  | k :: ks' => negb (existsb (str_eqb k) ks') && distinct ks'
  end.

(** The values that are written without loss: integers of at most 21
    digits, strings of 16-bit code units, and arrays and objects of such
    values, the properties of an object under different names, none of
    them an array index. *)
Fixpoint writable (v : jsval) : bool :=
  match v with
  | VUndefined | VNull | VBool _ => true
  | VNum m e => (e =? 0) && (length (Z_toString (Z.abs m)) <=? 21)%nat
  | VStr s => valid_string s
  | VArr vs =>
      (fix elements (vs : list jsval) : bool :=
         match vs with
         | [] => true
         | x :: vs' => writable x && elements vs'
         end) vs
  | VObj fields =>
      (fix members (fields : list (jsstring * jsval)) : bool :=
         match fields with
         | [] => true
         | (k, x) :: fields' => valid_name k && writable x && members fields'
         end) fields
      && distinct (List.map fst fields)
  end.

(** The number of values in a value. *)
Fixpoint size (v : jsval) : nat :=
  match v with
  | VArr vs =>
      S ((fix elements (vs : list jsval) : nat :=
            match vs with
            | [] => O
            | x :: vs' => S (size x + elements vs')
            end) vs)
  | VObj fields =>
      S ((fix members (fields : list (jsstring * jsval)) : nat :=
            match fields with
            | [] => O
            | (_, x) :: fields' =>
                if is_defined x then S (size x + members fields') else members fields'
            end) fields)
  | _ => 1%nat
  end.

Definition sizes (vs : list jsval) : nat :=
  fold_right (fun x n => S (size x + n)) 0%nat vs.

(** A value without [undefined]. *)
Fixpoint plain (v : jsval) : bool :=
  match v with
  | VUndefined => false
  | VArr vs =>
      (fix elements (vs : list jsval) : bool :=
         match vs with
         | [] => true
         | x :: vs' => plain x && elements vs'
         end) vs
  | VObj fields =>
      (fix members (fields : list (jsstring * jsval)) : bool :=
         match fields with
         | [] => true
         | (_, x) :: fields' => plain x && members fields'
         end) fields
  | _ => true
  end.

(** The browser in which [newDecks] was saved by the list page. *)
Definition saved_browser {World : Type} (newDecks : jsval) (p : Page (World := World))
    : Browser :=
  browser (snd (saveDecks newDecks p)).

(** The state of the list page with another collection. *)
Definition with_decks (v : jsval) (st : DeckListState) : DeckListState :=
  mkState v (showImportModal st) (decklistText st) (deckName st) (commanderName st)
          (importing st).

(** The collection after [saveDeck] replaced the decks of the page. *)
Definition replaced (id : jsstring) (updatedDeck : jsval) (ds : list jsval) : list jsval :=
  List.map (fun d => if id_matches id d then updatedDeck else d) ds.

(** The page after the sample import, and the deck it created. *)
Definition sample_imported_page : Page (World := unit) :=
  snd (handleImport sample_fetch fixed_date import_page).

Definition sample_new_deck : jsval :=
  match decks (state sample_imported_page) with
  | VArr ds => List.last ds VNull
  | _ => VNull
  end.

(** What the load effect of the detail page puts in the edit form for the
    deck it found: [wins: foundDeck.stats?.wins || 0] and so on. *)
Definition loaded_statsInput (foundDeck : Deck.t) : StatsInput.t :=
  StatsInput.mk (num_or_0 (Stats.wins (Deck.stats foundDeck)))
                (num_or_0 (Stats.losses (Deck.stats foundDeck)))
                (num_or_0 (Stats.mulligans (Deck.stats foundDeck))).

(** A collation that, as the one of the engine does, takes canonically
    equivalent strings for equal: the letter [e] followed by the
    combining acute accent U+0301 is read as the one code unit U+00E9,
    and the strings are then compared by their code units. *)
Fixpoint compose_acute (s : jsstring) : jsstring :=
  match s with
  | [] => []
  | c :: s' =>
      if N.eqb c 101 then
        match s' with
        | d :: s'' =>
            if N.eqb d 769 then 233%N :: compose_acute s'' else c :: compose_acute s'
        | [] => [c]
        end
      else c :: compose_acute s'
  end.

Definition canonical_compare (a b : jsstring) : Z :=
  compare_units (compose_acute a) (compose_acute b).

(** Entries of mana value 2 with a name and a type line. *)
Definition entry (name ty : jsstring) : CardEntry.t :=
  CardEntry.mk name 1 None None (Some 2) (Some ty) (u16 "common").

(** One name and one type line, each written with the precomposed letter
    and with the letter followed by the accent. *)
Definition cafe_composed : jsstring := u16 "Caf" ++ [233%N].
Definition cafe_decomposed : jsstring := u16 "Cafe" ++ [769%N].
Definition fee_composed : jsstring := u16 "F" ++ [233%N] ++ u16 "e".
Definition fee_decomposed : jsstring := u16 "Fe" ++ [769%N] ++ u16 "e".

Definition card_cafe_composed : CardEntry.t := entry cafe_composed (u16 "Land").
Definition card_cafe_decomposed : CardEntry.t := entry cafe_decomposed (u16 "Land").
Definition card_z : CardEntry.t := entry (u16 "z") fee_composed.
Definition card_a : CardEntry.t := entry (u16 "a") fee_decomposed.
Definition card_m : CardEntry.t := entry (u16 "m") fee_decomposed.

(** The main type of an entry. *)
Definition main_type (a : CardEntry.t) : jsstring := getCardType (CardEntry.type a).

(** A string of the Latin-1 block: on these the [toLowerCase] of the model
    is the one of the language, and every one of them can be encoded in
    a request. *)
Definition latin1 (s : jsstring) : bool := forallb (fun c => N.ltb c 256) s.

(* ===================================================================== *)
(** * Properties *)
(* ===================================================================== *)

(** ** Strings *)

Lemma str_eqb_eq (a b : jsstring) : str_eqb a b = true ↔ a = b.
Proof.
  revert b. induction a as [|x a IH]; intros [|y b]; simpl; try (split; congruence).
  rewrite andb_true_iff, N.eqb_eq, IH. split.
  - intros [-> ->]. reflexivity.
  - intros [= -> ->]. split; reflexivity.
Qed.

Lemma str_eqb_refl (a : jsstring) : str_eqb a a = true.
Proof. apply str_eqb_eq. reflexivity. Qed.

Lemma str_eqb_neq (a b : jsstring) : str_eqb a b = false ↔ a ≠ b.
Proof.
  rewrite <- str_eqb_eq. destruct (str_eqb a b); split; congruence.
Qed.

(** ** The built-ins and the functions of the program on small inputs *)

Example trim_sample : trim (u16 "  2x Arcane Signet ") = u16 "2x Arcane Signet".
Proof. reflexivity. Qed.

Example split_sample :
  split LF (u16 "a" ++ [LF] ++ [LF] ++ u16 "b") = [u16 "a"; []; u16 "b"].
Proof. reflexivity. Qed.

Example parseInt_samples :
  parseInt (u16 "42") = Some 42 ∧ parseInt (u16 " -5") = Some (-5)
  ∧ parseInt (u16 "12px") = Some 12 ∧ parseInt (u16 "0x1f") = Some 31
  ∧ parseInt (u16 "") = None ∧ parseInt (u16 "x1") = None.
Proof. repeat split. Qed.

(** The pattern backtracks: in a line of digits only, the last digit is
    the name. *)
Example parseDecklist_digits_only :
  parseDecklist (u16 "12") = [ParsedLine.mk (u16 "2") 1]
  ∧ parseDecklist (u16 "7") = [].
Proof. split; vm_compute; reflexivity. Qed.

Example parseDecklist_no_quantity :
  parseDecklist (u16 "Sol Ring") = []
  ∧ parseDecklist (u16 "0 Sol Ring") = []
  ∧ parseDecklist (u16 "1 Commander's Sphere") = [].
Proof. repeat split; vm_compute; reflexivity. Qed.

Example getCardType_samples :
  getCardType (Some (u16 "Artifact Creature " ++ [EM_DASH] ++ u16 " Golem"))
    = u16 "Artifact Creature"
  ∧ getCardType (Some (u16 "Instant")) = u16 "Instant"
  ∧ getCardType (Some []) = u16 "Unknown"
  ∧ getCardType None = u16 "Unknown".
Proof. repeat split; vm_compute; reflexivity. Qed.

Example getManaValue_samples :
  getManaValue (card_with (Some (u16 "{1}{R}")) None) = 1
  ∧ getManaValue (card_with (Some (u16 "{2}{2}")) None) = 4
  ∧ getManaValue (card_with (Some (u16 "{X}{10}")) None) = 10
  ∧ getManaValue (card_with (Some (u16 "{G}")) None) = 0.
Proof. repeat split; vm_compute; reflexivity. Qed.

Example winRate_samples :
  winRate (Some (Stats.mk (Some 3) (Some 2) (Some 0) (Some 5))) = Text (u16 "60.0")
  ∧ winRate (Some (Stats.mk (Some 1) (Some 15) (Some 0) (Some 16))) = Text (u16 "6.3")
  ∧ winRate (Some zero_stats) = Number 0
  ∧ winRate None = Number 0.
Proof. repeat split; vm_compute; reflexivity. Qed.

Example JSON_samples :
  JSON_parse (u16 " [1, 2.50, -3e2, [], {}, null, true] ")
    = Some (VArr [VNum 1 0; VNum 250 (-2); VNum (-3) 2; VArr []; VObj []; VNull; VBool true])
  ∧ JSON_stringify (VArr [VNum 1 0; VNum 250 (-2); VNum (-3) 2; VNull; VUndefined])
    = u16 "[1,2.5,-300,null,null]"
  ∧ JSON_parse (u16 "[1,]") = None
  ∧ JSON_parse (u16 "[01]") = None
  ∧ JSON_parse (u16 "") = None
  ∧ JSON_parse (u16 "undefined") = None.
Proof. repeat split; vm_compute; reflexivity. Qed.

(** What the program writes, it reads back. *)
Example JSON_round_trip_sample :
  JSON_parse (JSON_stringify (VArr two_decks)) = Some (VArr two_decks).
Proof. vm_compute. reflexivity. Qed.

(** An import that succeeds: one card known to the service, one not. *)
Example handleImport_sample :
  let '(r, p) := handleImport sample_fetch fixed_date import_page in
  r = Ok tt
  ∧ alerts (browser p) = []
  ∧ path (browser p) = Some (u16 "/deck/1700000000200")
  ∧ state p = mkState (decks (state p)) false [] [] [] false
  ∧ localStorage (browser p) !! mtgDecks = Some (JSON_stringify (decks (state p)))
  ∧ decks (state p)
    = VArr (two_decks ++
            [ newDeck_of fixed_date 1700000000200 (u16 "Artifacts") []
                (ParsedLine.mk (u16 "Sol Ring") 1)
                [ card_entry (ParsedLine.mk (u16 "Sol Ring") 1) sol_ring_data;
                  card_entry (ParsedLine.mk (u16 "Arcane Signet") 1) VNull ]
                sol_ring_data ]).
Proof. vm_compute. repeat split. Qed.

(** ** The parser *)

Lemma line_re_needs_start {A} pos s caps (k : nat → jsstring → captures → option A) :
  pos ≠ 0%nat → rmatch line_re pos s caps k = None.
Proof.
  intros Hpos. destruct pos as [|pos]; [congruence|]. reflexivity.
Qed.

Lemma line_re_needs_digit {A} s caps (k : nat → jsstring → captures → option A) :
  leading_integer s = false → rmatch line_re 0 s caps k = None.
Proof.
  intros H. destruct s as [|c s]; [reflexivity|].
  simpl in H. cbn. rewrite H. reflexivity.
Qed.

Lemma exec_line_re_later pos s :
  pos ≠ 0%nat → exec_from line_re pos s = None.
Proof.
  revert pos. induction s as [|c s IH]; intros pos Hpos.
  - unfold exec_from. rewrite line_re_needs_start by assumption. reflexivity.
  - change (exec_from line_re pos (c :: s)) with
      (match rmatch line_re pos (c :: s) []
               (fun pos' _ caps =>
                  Some {| m_index := pos; m_end := pos'; m_caps := caps |}) with
       | Some m => Some m
       | None => exec_from line_re (S pos) s
       end).
    rewrite line_re_needs_start by assumption. apply IH. lia.
Qed.

Lemma str_match_no_integer line :
  leading_integer line = false → str_match line_re line = None.
Proof.
  intros H. unfold str_match. destruct line as [|c line].
  - reflexivity.
  - change (exec_from line_re 0 (c :: line)) with
      (match rmatch line_re 0 (c :: line) []
               (fun pos' _ caps =>
                  Some {| m_index := 0%nat; m_end := pos'; m_caps := caps |}) with
       | Some m => Some m
       | None => exec_from line_re 1 line
       end).
    rewrite line_re_needs_digit by assumption.
    apply exec_line_re_later. lia.
Qed.

Lemma step_no_integer cards line :
  leading_integer line = false → parseDecklist_step cards line = cards.
Proof.
  intros H. unfold parseDecklist_step.
  destruct (is_skipped line); [reflexivity|].
  rewrite str_match_no_integer by assumption. reflexivity.
Qed.

Lemma fold_step_filter lines cards :
  fold_left parseDecklist_step lines cards =
  fold_left parseDecklist_step (List.filter leading_integer lines) cards.
Proof.
  revert cards. induction lines as [|line lines IH]; intros cards; [reflexivity|].
  simpl. destruct (leading_integer line) eqn:E.
  - simpl. apply IH.
  - rewrite step_no_integer by assumption. apply IH.
Qed.

(** C5.  On the sample text of the specification the parser returns the
    three cards, in order, and nothing that mentions Foo; and on every
    input a line without a leading integer adds no card: one turn of the
    loop on such a line leaves the cards as they are, and the result of
    the parser is the one it computes from the lines that start with a
    digit. *)
Theorem parseDecklist_sample_and_no_leading_integer :
  parseDecklist sample_text =
    [ ParsedLine.mk (u16 "Sol Ring") 1;
      ParsedLine.mk (u16 "Arcane Signet") 2;
      ParsedLine.mk (u16 "Command Tower") 1 ]
  ∧ Forall (fun card => includes (u16 "Foo") (ParsedLine.name card) = false)
           (parseDecklist sample_text)
  ∧ (∀ cards line,
       leading_integer line = false → parseDecklist_step cards line = cards)
  ∧ (∀ text,
       parseDecklist text =
       fold_left parseDecklist_step
         (List.filter leading_integer (decklist_lines text)) []).
Proof.
  split; [vm_compute; reflexivity|].
  split; [vm_compute; repeat constructor|].
  split; [apply step_no_integer|].
  intros text. unfold parseDecklist. apply fold_step_filter.
Qed.

Lemma parseDecklist_sample_and_no_leading_integer_witness :
  leading_integer (u16 "Sol Ring") = false
  ∧ parseDecklist_step [] (u16 "Sol Ring") = [].
Proof.
  split; [reflexivity|].
  apply (proj1 (proj2 (proj2 parseDecklist_sample_and_no_leading_integer))).
  reflexivity.
Defined.

(** ** Mana value *)

Lemma getManaValue_cmc name q img cost n ty r :
  getManaValue (CardEntry.mk name q img cost (Some n) ty r) = n.
Proof. reflexivity. Qed.

Lemma getManaValue_no_cost name q img ty r :
  getManaValue (CardEntry.mk name q img None None ty r) = 0
  ∧ getManaValue (CardEntry.mk name q img (Some []) None ty r) = 0.
Proof. split; reflexivity. Qed.

(** C6.  The stored cmc is returned whenever it is present, an explicit 0
    included, and without cmc a missing or empty cost gives 0; but the
    fallback counts the numbers only, so the cost of three generic and two
    green mana gives 3 where the documentation of the function says 5. *)
Theorem getManaValue_fallback_counts_numbers_only :
  (∀ name q img cost n ty r,
     getManaValue (CardEntry.mk name q img cost (Some n) ty r) = n)
  ∧ getManaValue (card_with (Some (u16 "{3}{G}{G}")) (Some 0)) = 0
  ∧ getManaValue (card_with None None) = 0
  ∧ getManaValue (card_with (Some []) None) = 0
  ∧ str_match_all mana_re (u16 "{3}{G}{G}") = Some [u16 "{3}"]
  ∧ getManaValue (card_with (Some (u16 "{3}{G}{G}")) None) = 3.
Proof.
  split; [intros; reflexivity|].
  repeat split; vm_compute; reflexivity.
Qed.

(** ** Statistics *)

(** The stat a quick adjust targets is never negative afterwards, and
    neither is the total. *)
Lemma updatedStats_floor stats stat delta :
  (∃ v, stat_get (updatedStats stats stat delta) stat = Some v ∧ 0 ≤ v)
  ∧ (∃ t, Stats.totalGames (updatedStats stats stat delta) = Some t
          ∧ (stat ≠ Mulligans → 0 ≤ t)).
Proof.
  split.
  - exists (Z.max 0 (num_or_0 (stat_get stats stat) + delta)).
    split; [destruct stat; reflexivity | lia].
  - destruct stat; simpl; eexists; (split; [reflexivity|]); intros; try lia; congruence.
Qed.

(** A quick adjust of the mulligans leaves wins, losses and the total. *)
Lemma updatedStats_mulligans stats delta :
  Stats.wins (updatedStats stats Mulligans delta) = Stats.wins stats
  ∧ Stats.losses (updatedStats stats Mulligans delta) = Stats.losses stats
  ∧ Stats.totalGames (updatedStats stats Mulligans delta)
    = Some (num_or_0 (Stats.totalGames stats)).
Proof. repeat split. Qed.

(** When the adjusted stat does not hit the floor, the total is the sum. *)
Lemma updatedStats_total_unclamped stats stat delta :
  stat ≠ Mulligans →
  0 ≤ num_or_0 (Stats.wins stats) → 0 ≤ num_or_0 (Stats.losses stats) →
  0 ≤ num_or_0 (stat_get stats stat) + delta →
  Stats.totalGames (updatedStats stats stat delta)
  = Some (num_or_0 (Stats.wins (updatedStats stats stat delta))
          + num_or_0 (Stats.losses (updatedStats stats stat delta))).
Proof.
  intros Hs Hw Hl Hd. destruct stat; [| |congruence]; simpl in *; f_equal; lia.
Qed.

(** C1.  From a new deck, one win and then a decrement of the losses, which
    are 0: the losses stay 0, but the total drops to 0 while wins + losses
    is 1.  The floor is applied to the stat and not to the delta that
    enters the total.  The same two clicks on the page of a stored deck
    leave these statistics in the page and in the local storage. *)
Theorem quick_adjust_total_differs_from_sum :
  let s1 := updatedStats zero_stats Wins 1 in
  let s2 := updatedStats s1 Losses (-1) in
  s1 = Stats.mk (Some 1) (Some 0) (Some 0) (Some 1)
  ∧ s2 = Stats.mk (Some 1) (Some 0) (Some 0) (Some 0)
  ∧ Stats.totalGames s2 ≠ Stats.totalGames s1
  ∧ num_or_0 (Stats.totalGames s2)
    ≠ num_or_0 (Stats.wins s2) + num_or_0 (Stats.losses s2)
  ∧ (let click1 := handleQuickStatUpdate (u16 "18") deck_18 Wins 1 stored_two_decks in
     let click2 := handleQuickStatUpdate (u16 "18") (with_stats deck_18 s1) Losses (-1)
                     (snd click1) in
     fst click1 = Ok (with_stats deck_18 s1)
     ∧ fst click2 = Ok (with_stats deck_18 s2)
     ∧ localStorage (snd click2) !! mtgDecks ≫= JSON_parse
       = Some (VArr [Deck_to_jsval deck_17; Deck_to_jsval (with_stats deck_18 s2)])).
Proof.
  cbv zeta. repeat split; vm_compute; congruence.
Qed.

(** The bulk overwrite stores the sum of wins and losses as the total. *)
Lemma handleUpdateStats_total deck statsInput notes :
  let stats := Deck.stats (handleUpdateStats_deck deck statsInput notes) in
  Stats.wins stats = Some (StatsInput.wins statsInput)
  ∧ Stats.losses stats = Some (StatsInput.losses statsInput)
  ∧ Stats.mulligans stats = Some (StatsInput.mulligans statsInput)
  ∧ Stats.totalGames stats
    = Some (StatsInput.wins statsInput + StatsInput.losses statsInput).
Proof. repeat split. Qed.

(** C4.  The total of the bulk overwrite is always wins + losses, but the
    form takes a negative number as it is typed: with -5 in the wins field
    the deck is saved with -5 wins and a total of -5, in the page and in
    the local storage. *)
Theorem bulk_overwrite_keeps_negative_input :
  (∀ deck statsInput notes,
     Stats.totalGames (Deck.stats (handleUpdateStats_deck deck statsInput notes))
     = Some (StatsInput.wins statsInput + StatsInput.losses statsInput))
  ∧ onChange_wins (StatsInput.mk 0 0 0) (u16 "-5") = StatsInput.mk (-5) 0 0
  ∧ Deck.stats (handleUpdateStats_deck deck_18
                  (onChange_wins (StatsInput.mk 0 0 0) (u16 "-5")) [])
    = Stats.mk (Some (-5)) (Some 0) (Some 0) (Some (-5))
  ∧ (let save := handleUpdateStats (u16 "18") deck_18
                   (onChange_wins (StatsInput.mk 0 0 0) (u16 "-5")) []
                   stored_two_decks in
     let saved := with_stats deck_18 (Stats.mk (Some (-5)) (Some 0) (Some 0) (Some (-5))) in
     fst save = Ok (saved, false)
     ∧ localStorage (snd save) !! mtgDecks ≫= JSON_parse
       = Some (VArr [Deck_to_jsval deck_17; Deck_to_jsval saved])).
Proof.
  split; [intros; reflexivity|].
  cbv zeta. repeat split; vm_compute; reflexivity.
Qed.

(** ** Win rate *)

(** C9.  The quotient is taken only when totalGames is greater than 0: it
    is then a finite number, and its divisor is not 0.  When the stats or
    totalGames are absent, or totalGames is 0 or negative, the win rate is
    the number 0 and nothing is divided. *)
Theorem winRate_divides_only_by_positive (stats : option Stats.t) :
  (gt0 (stats ≫= Stats.totalGames) = false → winRate stats = Number 0)
  ∧ (∀ st, stats = Some st → gt0 (Stats.totalGames st) = true →
       0 < num_or_0 (Stats.totalGames st)
       ∧ ∃ q, js_div (num_or_0 (Stats.wins st)) (num_or_0 (Stats.totalGames st))
              = Finite q
              ∧ winRate stats = Text (toFixed1 (js_mul (Finite q) 100))).
Proof.
  split.
  - destruct stats as [st|]; simpl; [|reflexivity].
    intros H. rewrite H. reflexivity.
  - intros st -> H. simpl. rewrite H.
    destruct (Stats.totalGames st) as [tg|]; simpl in *; [|discriminate].
    apply Z.ltb_lt in H. split; [assumption|].
    unfold js_div. destruct (tg =? 0) eqn:E; [apply Z.eqb_eq in E; lia|].
    eexists. split; reflexivity.
Qed.

Lemma winRate_divides_only_by_positive_witness :
  winRate (Some (Stats.mk (Some 3) (Some 2) (Some 0) (Some 0))) = Number 0
  ∧ winRate (Some (Stats.mk (Some 3) (Some 2) (Some 0) (Some 5)))
    = Text (u16 "60.0").
Proof.
  split.
  - apply (proj1 (winRate_divides_only_by_positive
                    (Some (Stats.mk (Some 3) (Some 2) (Some 0) (Some 0))))).
    reflexivity.
  - destruct (proj2 (winRate_divides_only_by_positive
                       (Some (Stats.mk (Some 3) (Some 2) (Some 0) (Some 5))))
                    _ eq_refl eq_refl) as [_ [q [_ H]]].
    vm_compute. reflexivity.
Defined.

(** ** The stored collection *)

Lemma has_id_object {S} id d (st : S) :
  nullish d = false → has_id id d st = (Ok (id_matches id d), st).
Proof.
  intros H. unfold has_id, get_prop, bind. rewrite H. reflexivity.
Qed.

Lemma has_id_null {S} id d (st : S) :
  nullish d = true → has_id id d st = (Throw TypeError, st).
Proof.
  intros H. unfold has_id, get_prop, bind. rewrite H. reflexivity.
Qed.

Lemma mapM_replace {S} id updatedDeck ds (st : S) :
  Forall (fun d => nullish d = false) ds →
  mapM (fun d => let* b := has_id id d in ret (if b then updatedDeck else d)) ds st
  = (Ok (List.map (fun d => if id_matches id d then updatedDeck else d) ds), st).
Proof.
  induction 1 as [|d ds Hd Hds IH]; [reflexivity|].
  simpl. unfold bind at 1. unfold bind at 1. rewrite has_id_object by assumption.
  unfold ret at 1. unfold bind at 1. rewrite IH. reflexivity.
Qed.

Lemma filterM_other {S} id ds (st : S) :
  Forall (fun d => nullish d = false) ds →
  filterM (fun d => let* b := has_id id d in ret (negb b)) ds st
  = (Ok (List.filter (fun d => negb (id_matches id d)) ds), st).
Proof.
  induction 1 as [|d ds Hd Hds IH]; [reflexivity|].
  simpl. unfold bind at 1. unfold bind at 1. rewrite has_id_object by assumption.
  unfold ret at 1. unfold bind at 1. rewrite IH. reflexivity.
Qed.

Lemma JSON_parse_nonempty text v : JSON_parse text = Some v → truthy_str text = true.
Proof. destruct text; [discriminate | reflexivity]. Qed.

(** Without a stored collection [saveDeck] does nothing. *)
Lemma saveDeck_absent b id updatedDeck :
  localStorage b !! mtgDecks = None → saveDeck id updatedDeck b = (Ok false, b).
Proof.
  intros H. unfold saveDeck, bind, gets. rewrite H. reflexivity.
Qed.

(** C7.  [saveDeck] on a stored collection of decks writes back the
    collection in which every element with the given id is the new deck
    and every other element is as it was, at the same index: the length
    and the order are kept, and when no element has the id the collection
    written is the one that was read. *)
Theorem saveDeck_replaces_matching_element
    (b : Browser) (id : jsstring) (updatedDeck : jsval)
    (text : jsstring) (ds : list jsval) :
  localStorage b !! mtgDecks = Some text →
  JSON_parse text = Some (VArr ds) →
  Forall (fun d => nullish d = false) ds →
  let updated := List.map (fun d => if id_matches id d then updatedDeck else d) ds in
  saveDeck id updatedDeck b
    = (Ok true, setItem mtgDecks (JSON_stringify (VArr updated)) b)
  ∧ length updated = length ds
  ∧ (∀ (i : nat) d, ds !! i = Some d →
       updated !! i = Some (if id_matches id d then updatedDeck else d))
  ∧ (Forall (fun d => id_matches id d = false) ds → updated = ds).
Proof.
  intros Hget Hparse Hobj updated.
  split; [|split; [|split]].
  - unfold saveDeck, bind at 1, gets. rewrite Hget.
    rewrite (JSON_parse_nonempty _ _ Hparse).
    unfold JSON_parse_M. rewrite Hparse.
    unfold bind at 1, ret at 1. unfold bind at 1, as_array, ret at 1.
    unfold bind at 1. rewrite mapM_replace by assumption.
    reflexivity.
  - apply length_map.
  - intros i d Hi. subst updated.
    change (List.map ?f ds) with (f <$> ds).
    rewrite list_lookup_fmap, Hi. reflexivity.
  - intros Hnone. subst updated. clear - Hnone.
    induction Hnone as [|d ds' Hd _ IH]; [reflexivity|].
    simpl. rewrite Hd. f_equal. exact IH.
Qed.

Lemma saveDeck_replaces_matching_element_witness :
  saveDeck (u16 "18") (Deck_to_jsval deck_18_won)
    (browser_with (JSON_stringify (VArr two_decks)))
  = (Ok true,
     setItem mtgDecks
       (JSON_stringify (VArr [Deck_to_jsval deck_17; Deck_to_jsval deck_18_won]))
       (browser_with (JSON_stringify (VArr two_decks)))).
Proof.
  refine (proj1 (saveDeck_replaces_matching_element
                   (browser_with (JSON_stringify (VArr two_decks)))
                   (u16 "18") (Deck_to_jsval deck_18_won)
                   (JSON_stringify (VArr two_decks)) two_decks _ _ _)).
  - reflexivity.
  - vm_compute. reflexivity.
  - repeat constructor.
Defined.

(** C10.  A confirmed deletion keeps exactly the decks whose id differs
    from the given one, each as it was and in the order they had, shows
    them and stores them; a declined one changes nothing. *)
Theorem handleDeleteDeck_removes_only_that_id
    {World : Type} (p : Page (World := World)) (deckId : jsstring) (ds : list jsval) :
  decks (state p) = VArr ds →
  Forall (fun d => nullish d = false) ds →
  let kept := List.filter (fun d => negb (id_matches deckId d)) ds in
  handleDeleteDeck true deckId p
    = (Ok tt,
       mkPage (setItem mtgDecks (JSON_stringify (VArr kept)) (browser p))
              (world p)
              (mkState (VArr kept) (showImportModal (state p)) (decklistText (state p))
                       (deckName (state p)) (commanderName (state p))
                       (importing (state p))))
  ∧ (∀ d, In d kept ↔ In d ds ∧ id_matches deckId d = false)
  ∧ kept `sublist_of` ds
  ∧ handleDeleteDeck false deckId p = (Ok tt, p).
Proof.
  intros Hdecks Hobj kept.
  split; [|split; [|split]].
  - unfold handleDeleteDeck, bind at 1, gets. rewrite Hdecks.
    unfold bind at 1, as_array, ret at 1.
    unfold bind at 1. rewrite filterM_other by assumption.
    reflexivity.
  - intros d. subst kept. rewrite filter_In, negb_true_iff. reflexivity.
  - subst kept. clear. induction ds as [|d ds IH]; simpl; [constructor|].
    destruct (negb (id_matches deckId d)); [apply sublist_skip | apply sublist_cons];
      exact IH.
  - reflexivity.
Qed.

Lemma handleDeleteDeck_removes_only_that_id_witness :
  fst (handleDeleteDeck true (u16 "17")
         (page_with (JSON_stringify (VArr two_decks))
                    (mkState (VArr two_decks) false [] [] [] false)))
  = Ok tt
  ∧ decks (state (snd (handleDeleteDeck true (u16 "17")
         (page_with (JSON_stringify (VArr two_decks))
                    (mkState (VArr two_decks) false [] [] [] false)))))
    = VArr [Deck_to_jsval deck_18].
Proof.
  pose proof (proj1 (handleDeleteDeck_removes_only_that_id
                (page_with (JSON_stringify (VArr two_decks))
                           (mkState (VArr two_decks) false [] [] [] false))
                (u16 "17") two_decks eq_refl
                ltac:(repeat constructor))) as H.
  rewrite H. split; reflexivity.
Defined.

(** ** Loading *)

(** The load effects when nothing is stored, or the empty string. *)
Lemma load_without_item {World : Type} (p : Page (World := World)) (id : jsstring) :
  localStorage (browser p) !! mtgDecks = None
  ∨ localStorage (browser p) !! mtgDecks = Some [] →
  DeckList_load p = (Ok tt, p)
  ∧ DeckDetail_load id (browser p) = (Ok None, browser p).
Proof.
  intros [H|H]; unfold DeckList_load, DeckDetail_load, bind, gets; rewrite H;
    split; reflexivity.
Qed.

(** C3, as the code has it.  With no stored item (or the empty string)
    neither load effect raises: the list page keeps the collection it
    has, which is the empty one on a new page, and the detail page finds
    no deck.  Stored text that is not JSON is not taken for an empty
    collection: [JSON.parse] throws a SyntaxError out of both load
    effects, and nothing is loaded.  Stored text that is JSON is loaded
    by the list page as it parses. *)
Theorem load_absent_is_empty_malformed_raises
    {World : Type} (p : Page (World := World)) (id : jsstring) :
  (localStorage (browser p) !! mtgDecks = None
   ∨ localStorage (browser p) !! mtgDecks = Some [] →
     DeckList_load p = (Ok tt, p)
     ∧ (state p = initialState → decks (state (snd (DeckList_load p))) = VArr [])
     ∧ DeckDetail_load id (browser p) = (Ok None, browser p))
  ∧ (∀ text,
       localStorage (browser p) !! mtgDecks = Some text →
       text ≠ [] → JSON_parse text = None →
       DeckList_load p = (Throw SyntaxError, p)
       ∧ DeckDetail_load id (browser p) = (Throw SyntaxError, browser p))
  ∧ (∀ text v,
       localStorage (browser p) !! mtgDecks = Some text →
       JSON_parse text = Some v →
       DeckList_load p
       = (Ok tt,
          mkPage (browser p) (world p)
            (mkState v (showImportModal (state p)) (decklistText (state p))
                     (deckName (state p)) (commanderName (state p))
                     (importing (state p))))).
Proof.
  split; [|split].
  - intros H. destruct (load_without_item p id H) as [H1 H2].
    split; [assumption|]. split; [|assumption].
    intros Hinit. rewrite H1. simpl. rewrite Hinit. reflexivity.
  - intros text Hget Hne Hparse.
    assert (truthy_str text = true) as Ht by (destruct text; [congruence | reflexivity]).
    unfold DeckList_load, DeckDetail_load, bind, gets. rewrite Hget, Ht.
    unfold JSON_parse_M. rewrite Hparse. split; reflexivity.
  - intros text v Hget Hparse.
    unfold DeckList_load, bind, gets. rewrite Hget.
    rewrite (JSON_parse_nonempty _ _ Hparse).
    unfold JSON_parse_M. rewrite Hparse. reflexivity.
Qed.

Lemma load_absent_is_empty_malformed_raises_witness :
  DeckList_load (mkPage empty_browser tt initialState)
    = (Ok tt, mkPage empty_browser tt initialState)
  ∧ DeckList_load (page_with (u16 "{") initialState)
    = (Throw SyntaxError, page_with (u16 "{") initialState).
Proof.
  split.
  - apply (proj1 (load_absent_is_empty_malformed_raises
                    (mkPage empty_browser tt initialState) (u16 "17"))).
    left. reflexivity.
  - apply (proj1 (proj2 (load_absent_is_empty_malformed_raises
                           (page_with (u16 "{") initialState) (u16 "17")))
             (u16 "{")).
    + reflexivity.
    + discriminate.
    + reflexivity.
Defined.

(** A stored item that is not JSON makes both load effects throw. *)
Lemma load_malformed_raises :
  JSON_parse (u16 "{") = None
  ∧ fst (DeckList_load (page_with (u16 "{") initialState)) = Throw SyntaxError
  ∧ fst (DeckDetail_load (u16 "17") (browser_with (u16 "{"))) = Throw SyntaxError.
Proof. repeat split. Qed.

(** ** Import *)

Section ImportProperties.

Context {World : Type}.
Variable toISOString : Z → jsstring.
Variable lookup : jsstring → M (Page (World := World)) jsval.

Hypothesis lookup_keeps_storage : keeps_storage lookup.

Lemma import_loop_storage commanderToFind parsedCards decklist commanderData p :
  localStorage (browser (snd (import_loop lookup commanderToFind parsedCards
                                decklist commanderData p)))
  = localStorage (browser p).
Proof.
  revert decklist commanderData p.
  induction parsedCards as [|card rest IH]; intros decklist commanderData p.
  - reflexivity.
  - simpl. unfold bind at 1.
    pose proof (lookup_keeps_storage (ParsedLine.name card) p) as Hl.
    destruct (lookup (ParsedLine.name card) p) as [[v|e] p1]; simpl in Hl.
    + unfold bind at 1. simpl. rewrite IH. simpl. exact Hl.
    + simpl. exact Hl.
Qed.

Lemma import_loop_length commanderToFind parsedCards decklist commanderData p
    decklist' commanderData' p' :
  import_loop lookup commanderToFind parsedCards decklist commanderData p
    = (Ok (decklist', commanderData'), p') →
  length decklist' = (length decklist + length parsedCards)%nat.
Proof.
  revert decklist commanderData p.
  induction parsedCards as [|card rest IH]; intros decklist commanderData p.
  - simpl. unfold ret. intros [= <- _ _]. lia.
  - simpl. unfold bind at 1.
    destruct (lookup (ParsedLine.name card) p) as [[v|e] p1]; [|discriminate].
    unfold bind at 1. simpl. intros H. apply IH in H.
    rewrite length_app in H. simpl in H. lia.
Qed.

Lemma import_try_throw_storage st p e p' :
  import_try toISOString lookup st p = (Throw e, p') →
  localStorage (browser p') = localStorage (browser p).
Proof.
  unfold import_try.
  destruct (parseDecklist (decklistText st)) as [|first others] eqn:Hparsed.
  - unfold bind, alert, on_browser, modify. simpl. discriminate.
  - set (cf := if truthy_str (trim (commanderName st)) then _ else _).
    unfold bind at 1.
    pose proof (import_loop_storage cf (first :: others) [] VNull p) as Hloop.
    destruct (import_loop lookup cf (first :: others) [] VNull p)
      as [[[decklist commanderData]|e1] p1]; simpl in Hloop.
    2:{ intros [= _ <-]. exact Hloop. }
    unfold bind at 1.
    set (extra := if truthy_str (trim (commanderName st)) && negb (truthy commanderData)
                  then _ else _).
    assert (localStorage (browser (snd (extra p1))) = localStorage (browser p1)) as Hextra.
    { subst extra. destruct (_ && _); [apply lookup_keeps_storage | reflexivity]. }
    destruct (extra p1) as [[commanderData2|e2] p2]; simpl in Hextra.
    2:{ intros [= _ <-]. congruence. }
    unfold bind at 1, gets. unfold bind at 1.
    destruct (decks st); simpl; try discriminate;
      intros [= _ <-]; congruence.
Qed.

Lemma handleImport_with_valid (p : Page (World := World)) :
  truthy_str (trim (decklistText (state p))) = true →
  truthy_str (trim (deckName (state p))) = true →
  handleImport_with toISOString lookup p
  = try_finally
      (try_catch (import_try toISOString lookup (state p))
         (fun _ => let* _ := alert failure_message in
                   console_error (u16 "Import error:")))
      (setImporting false) (snd (setImporting true p)).
Proof.
  intros Htext Hname. unfold handleImport_with, bind at 1, gets.
  rewrite Htext, Hname. reflexivity.
Qed.

(** An attempt that throws: the handler returns, the failure message is
    shown and the local storage is as it was. *)
Lemma import_throw_outcome (p : Page (World := World)) e p1 :
  truthy_str (trim (decklistText (state p))) = true →
  truthy_str (trim (deckName (state p))) = true →
  import_attempt toISOString lookup p = (Throw e, p1) →
  fst (handleImport_with toISOString lookup p) = Ok tt
  ∧ localStorage (browser (snd (handleImport_with toISOString lookup p)))
    = localStorage (browser p)
  ∧ alerts (browser (snd (handleImport_with toISOString lookup p)))
    = alerts (browser p1) ++ [failure_message]
  ∧ importing (state (snd (handleImport_with toISOString lookup p))) = false.
Proof.
  intros Htext Hname Hthrow.
  rewrite (handleImport_with_valid p Htext Hname).
  unfold import_attempt in Hthrow.
  unfold try_finally, try_catch. rewrite Hthrow.
  apply import_try_throw_storage in Hthrow.
  simpl. repeat split. simpl in Hthrow. exact Hthrow.
Qed.

(** An attempt that runs to its end with parsed cards: the storage holds
    the collection of the page with the whole new deck appended. *)
Lemma import_success_outcome (p : Page (World := World)) p1 first others :
  truthy_str (trim (decklistText (state p))) = true →
  truthy_str (trim (deckName (state p))) = true →
  import_attempt toISOString lookup p = (Ok tt, p1) →
  parseDecklist (decklistText (state p)) = first :: others →
  ∃ old decklist commanderData now,
    (∀ q : Page (World := World), spread (decks (state p)) q = (Ok old, q))
    ∧ length decklist = length (first :: others)
    ∧ localStorage (browser (snd (handleImport_with toISOString lookup p)))
      = <[ mtgDecks :=
             JSON_stringify
               (VArr (old ++ [newDeck_of toISOString now (deckName (state p))
                                (commanderName (state p)) first
                                decklist commanderData])) ]>
        (localStorage (browser p)).
Proof.
  intros Htext Hname Hok Hparsed.
  rewrite (handleImport_with_valid p Htext Hname).
  unfold import_attempt in Hok.
  unfold try_finally, try_catch. rewrite Hok.
  unfold import_try in Hok. rewrite Hparsed in Hok.
  set (cf := if truthy_str (trim (commanderName (state p))) then _ else _) in Hok.
  unfold bind at 1 in Hok.
  pose proof (import_loop_storage cf (first :: others) [] VNull
                (snd (setImporting true p))) as Hloop.
  destruct (import_loop lookup cf (first :: others) [] VNull
              (snd (setImporting true p)))
    as [[[decklist commanderData]|e1] p2] eqn:Eloop; [|discriminate].
  apply import_loop_length in Eloop.
  simpl in Hloop.
  unfold bind at 1 in Hok.
  set (extra := if truthy_str (trim (commanderName (state p)))
                   && negb (truthy commanderData) then _ else _) in Hok.
  assert (localStorage (browser (snd (extra p2))) = localStorage (browser p2)) as Hextra.
  { subst extra. destruct (_ && _); [apply lookup_keeps_storage | reflexivity]. }
  destruct (extra p2) as [[commanderData2|e2] p3]; [|discriminate].
  simpl in Hextra.
  unfold bind at 1, gets in Hok. unfold bind at 1 in Hok.
  assert (∃ old, ∀ q : Page (World := World),
             spread (decks (state p)) q = (Ok old, q)) as [old Hold].
  { destruct (decks (state p)); simpl in Hok; try discriminate; eexists; reflexivity. }
  rewrite Hold in Hok.
  exists old, decklist, commanderData2, (clock (browser p3)).
  split; [exact Hold|]. split; [exact Eloop|].
  injection Hok as <-. simpl. rewrite Hextra, Hloop. reflexivity.
Qed.

(** C2.  Once the form is valid, an exception anywhere in the import
    sequence ends the import with the failure message and leaves the
    local storage as it was: nothing of the deck under construction is
    stored.  A deck is stored only by an attempt that runs to its end,
    and then it is the whole deck, one entry per parsed line, appended
    to the collection the page has. *)
Theorem import_is_atomic (p : Page (World := World)) :
  truthy_str (trim (decklistText (state p))) = true →
  truthy_str (trim (deckName (state p))) = true →
  (∀ e p1,
     import_attempt toISOString lookup p = (Throw e, p1) →
     fst (handleImport_with toISOString lookup p) = Ok tt
     ∧ localStorage (browser (snd (handleImport_with toISOString lookup p)))
       = localStorage (browser p)
     ∧ alerts (browser (snd (handleImport_with toISOString lookup p)))
       = alerts (browser p1) ++ [failure_message]
     ∧ importing (state (snd (handleImport_with toISOString lookup p))) = false)
  ∧ (∀ p1 first others,
       import_attempt toISOString lookup p = (Ok tt, p1) →
       parseDecklist (decklistText (state p)) = first :: others →
       ∃ old decklist commanderData now,
         (∀ q : Page (World := World), spread (decks (state p)) q = (Ok old, q))
         ∧ length decklist = length (first :: others)
         ∧ localStorage (browser (snd (handleImport_with toISOString lookup p)))
           = <[ mtgDecks :=
                  JSON_stringify
                    (VArr (old ++ [newDeck_of toISOString now (deckName (state p))
                                     (commanderName (state p)) first
                                     decklist commanderData])) ]>
             (localStorage (browser p))).
Proof.
  intros Htext Hname. split.
  - intros e p1. apply import_throw_outcome; assumption.
  - intros p1 first others. apply import_success_outcome; assumption.
Qed.

End ImportProperties.

(** The lookup of the program: it answers whatever the network does, never
    throws, and has no hand in the local storage. *)
Lemma fetchScryfallCard_returns {World : Type}
    (fetch : request → World → option Response * World) cardName
    (p : Page (World := World)) :
  ∃ v p', fetchScryfallCard fetch cardName p = (Ok v, p')
          ∧ localStorage (browser p') = localStorage (browser p).
Proof.
  unfold fetchScryfallCard, try_catch, bind at 1, await_fetch.
  destruct (fetch (CardsNamedExact cardName) (world p)) as [[[ok1 body1]|] w1]; simpl.
  2:{ eexists _, _. split; reflexivity. }
  destruct ok1; simpl.
  { unfold response_json. simpl. destruct body1; simpl; eexists _, _; split; reflexivity. }
  unfold bind at 1. simpl.
  destruct (fetch (CardsSearch cardName) w1) as [[[ok2 body2]|] w2]; simpl.
  2:{ eexists _, _. split; reflexivity. }
  destruct ok2; simpl.
  2:{ eexists _, _. split; reflexivity. }
  unfold bind at 1, response_json. simpl.
  destruct body2 as [searchData|]; simpl.
  2:{ eexists _, _. split; reflexivity. }
  unfold bind at 1, get_prop.
  destruct (nullish searchData); simpl.
  { eexists _, _. split; reflexivity. }
  destruct (truthy _ && js_gt0 _); simpl; eexists _, _; split; reflexivity.
Qed.

Lemma fetchScryfallCard_keeps_storage {World : Type}
    (fetch : request → World → option Response * World) :
  keeps_storage (fetchScryfallCard fetch).
Proof.
  intros name p.
  destruct (fetchScryfallCard_returns fetch name p) as (v & p' & -> & H).
  exact H.
Qed.

(** The import of the program is atomic in the same sense. *)
Corollary handleImport_is_atomic {World : Type}
    (fetch : request → World → option Response * World)
    (toISOString : Z → jsstring) (p : Page (World := World)) e p1 :
  truthy_str (trim (decklistText (state p))) = true →
  truthy_str (trim (deckName (state p))) = true →
  import_attempt toISOString (fetchScryfallCard fetch) p = (Throw e, p1) →
  fst (handleImport fetch toISOString p) = Ok tt
  ∧ localStorage (browser (snd (handleImport fetch toISOString p)))
    = localStorage (browser p).
Proof.
  intros Htext Hname Hthrow.
  destruct (import_throw_outcome toISOString (fetchScryfallCard fetch)
              (fetchScryfallCard_keeps_storage fetch) p e p1 Htext Hname Hthrow)
    as (H1 & H2 & _).
  split; assumption.
Qed.

Lemma failing_lookup_keeps_storage : keeps_storage failing_lookup.
Proof.
  intros name p. unfold failing_lookup.
  destruct (str_eqb name (u16 "Sol Ring")); reflexivity.
Qed.

Lemma import_is_atomic_witness :
  fst (handleImport_with fixed_date failing_lookup import_page) = Ok tt
  ∧ localStorage (browser (snd (handleImport_with fixed_date failing_lookup import_page)))
    = localStorage (browser import_page)
  ∧ alerts (browser (snd (handleImport_with fixed_date failing_lookup import_page)))
    = [failure_message].
Proof.
  destruct (proj1 (import_is_atomic fixed_date failing_lookup
                     failing_lookup_keeps_storage import_page eq_refl eq_refl)
              (Error (u16 "Failed to fetch"))
              (snd (import_attempt fixed_date failing_lookup import_page))
              ltac:(vm_compute; reflexivity)) as (H1 & H2 & H3 & _).
  split; [exact H1|]. split; [exact H2|].
  rewrite H3. reflexivity.
Defined.

(** ** Sorting *)

Section SortLemmas.

Context {A : Type} (cmp : A → A → Z).
Hypothesis cmp_ok : consistent cmp.

Lemma cmp_total a b : 0 < cmp a b → cmp b a ≤ 0.
Proof.
  intros H. pose proof (cmp_antisym cmp cmp_ok a b) as Hs.
  destruct (cmp a b), (cmp b a); simpl in *; lia.
Qed.

Lemma sort_insert_Forall (P : A → Prop) x l :
  P x → Forall P l → Forall P (sort_insert cmp x l).
Proof.
  intros Hx Hl. induction Hl as [|y l Hy Hl IH]; simpl.
  - constructor; [assumption | constructor].
  - destruct (cmp x y <=? 0); repeat constructor; assumption.
Qed.

Lemma sort_insert_perm x l : sort_insert cmp x l ≡ₚ x :: l.
Proof.
  induction l as [|y l IH]; simpl; [reflexivity|].
  destruct (cmp x y <=? 0); [reflexivity|].
  rewrite IH. apply perm_swap.
Qed.

Lemma array_sort_perm l : array_sort cmp l ≡ₚ l.
Proof.
  induction l as [|x l IH]; simpl; [reflexivity|].
  rewrite sort_insert_perm, IH. reflexivity.
Qed.

Lemma sort_insert_sorted x l :
  StronglySorted (not_greater cmp) l → StronglySorted (not_greater cmp) (sort_insert cmp x l).
Proof.
  induction 1 as [|y l Hl IH Hy]; simpl.
  - repeat constructor.
  - destruct (cmp x y <=? 0) eqn:E.
    + apply Z.leb_le in E. constructor; [constructor; assumption|].
      constructor; [exact E|].
      eapply Forall_impl; [exact Hy|].
      intros z Hz. exact (cmp_trans cmp cmp_ok x y z E Hz).
    + apply Z.leb_gt in E. constructor; [exact IH|].
      apply sort_insert_Forall; [|exact Hy].
      apply cmp_total. exact E.
Qed.

Lemma array_sort_sorted l : StronglySorted (not_greater cmp) (array_sort cmp l).
Proof.
  induction l as [|x l IH]; simpl; [constructor|].
  apply sort_insert_sorted. exact IH.
Qed.

(** The sort leaves a sorted array as it is. *)
Lemma array_sort_of_sorted l : StronglySorted (not_greater cmp) l → array_sort cmp l = l.
Proof.
  induction 1 as [|x l Hl IH Hx]; simpl; [reflexivity|].
  rewrite IH. destruct Hx as [|y l Hy _]; simpl; [reflexivity|].
  unfold not_greater in Hy. apply Z.leb_le in Hy. rewrite Hy. reflexivity.
Qed.

Lemma array_sort_idempotent l :
  array_sort cmp (array_sort cmp l) = array_sort cmp l.
Proof. apply array_sort_of_sorted, array_sort_sorted. Qed.

End SortLemmas.

(** The store after [getSortedDecklist]: every array that existed is as it
    was, and the result is a new one. *)
Lemma getSortedDecklist_frame localeCompare sortBy deck_decklist (h : heap) :
  let '(sorted, h') := getSortedDecklist localeCompare sortBy deck_decklist h in
  h !! sorted = None
  ∧ (∀ l : loc, l ≠ sorted → h' !! l = h !! l)
  ∧ (∀ l cards, h !! l = Some cards → h' !! l = Some cards).
Proof.
  assert (h !! fresh (dom h) = None) as Hfresh
    by (apply not_elem_of_dom, is_fresh).
  assert (∀ l cards, h !! l = Some cards → l ≠ fresh (dom h)) as Hold
    by (intros l cards H ->; congruence).
  unfold getSortedDecklist, array_new, array_sort_at.
  destruct deck_decklist as [d|].
  - repeat (destruct (str_eqb sortBy _)); (split; [exact Hfresh|]); split;
      try (intros l Hl; rewrite ?lookup_alter_ne by congruence;
           rewrite lookup_insert_ne by congruence; reflexivity);
      intros l cards H; specialize (Hold l cards H);
      rewrite ?lookup_alter_ne by congruence;
      rewrite lookup_insert_ne by congruence; exact H.
  - split; [exact Hfresh|]. split.
    + intros l Hl. rewrite lookup_insert_ne by congruence. reflexivity.
    + intros l cards H. specialize (Hold l cards H).
      rewrite lookup_insert_ne by congruence. exact H.
Qed.

(** What [getSortedDecklist] returns for the key [name]. *)
Lemma getSortedDecklist_name localeCompare d cards (h : heap) :
  h !! d = Some cards →
  let '(sorted, h') := getSortedDecklist localeCompare (u16 "name") (Some d) h in
  h' !! sorted = Some (array_sort (cmp_name localeCompare) cards).
Proof.
  intros Hd. unfold getSortedDecklist, array_new, array_sort_at.
  rewrite Hd. simpl.
  rewrite lookup_alter_eq, lookup_insert_eq. reflexivity.
Qed.

Section SortingProperties.

Variable localeCompare : jsstring → jsstring → Z.

(** The collation is consistent and tells different strings apart. *)
Hypothesis collation_consistent : consistent localeCompare.
Hypothesis collation_separates : ∀ a b, localeCompare a b = 0 → a = b.

Lemma collation_refl a : localeCompare a a = 0.
Proof.
  pose proof (cmp_antisym _ collation_consistent a a).
  destruct (localeCompare a a); simpl in *; lia.
Qed.



Lemma cmp_name_consistent : consistent (cmp_name localeCompare).
Proof.
  split; unfold cmp_name.
  - intros a b. apply (cmp_antisym _ collation_consistent).
  - intros a b c. apply (cmp_trans _ collation_consistent).
Qed.

Lemma cmp_mana_le a b :
  cmp_mana localeCompare a b ≤ 0 ↔
  getManaValue a < getManaValue b
  ∨ (getManaValue a = getManaValue b
     ∧ localeCompare (CardEntry.name a) (CardEntry.name b) ≤ 0).
Proof.
  unfold cmp_mana. destruct (getManaValue a =? getManaValue b) eqn:E; simpl.
  - apply Z.eqb_eq in E. split; [right; split; assumption | intros [?|[_ ?]]; [lia|assumption]].
  - apply Z.eqb_neq in E. split; [left; lia | intros [?|[? _]]; lia].
Qed.

Lemma cmp_mana_consistent : consistent (cmp_mana localeCompare).
Proof.
  split.
  - intros a b. unfold cmp_mana. rewrite (Z.eqb_sym (getManaValue b)).
    destruct (getManaValue a =? getManaValue b); simpl.
    + apply (cmp_antisym _ collation_consistent).
    + rewrite <- Z.sgn_opp. f_equal. lia.
  - intros a b c. rewrite !cmp_mana_le.
    intros [H1|[H1 N1]] [H2|[H2 N2]]; [left; lia | left; lia | left; lia |].
    right. split; [lia|]. exact (cmp_trans _ collation_consistent _ _ _ N1 N2).
Qed.

Lemma cmp_mana_zero a b :
  cmp_mana localeCompare a b = 0 → CardEntry.name a = CardEntry.name b.
Proof.
  unfold cmp_mana. destruct (getManaValue a =? getManaValue b) eqn:E; simpl.
  - apply collation_separates.
  - apply Z.eqb_neq in E. lia.
Qed.



Lemma cmp_type_zero a b :
  cmp_type localeCompare a b = 0 → CardEntry.name a = CardEntry.name b.
Proof.
  unfold cmp_type.
  destruct (str_eqb (getCardType (CardEntry.type a)) (getCardType (CardEntry.type b))) eqn:E;
    simpl.
  - apply collation_separates.
  - intros H. apply collation_separates in H. apply str_eqb_neq in E. contradiction.
Qed.

End SortingProperties.

Lemma compare_units_consistent : consistent compare_units.
Proof.
  split.
  - intros a. induction a as [|x a IH]; intros [|y b]; simpl; try reflexivity.
    destruct (N.ltb_spec x y), (N.ltb_spec y x); try reflexivity; try lia.
    apply IH.
  - intros a. induction a as [|x a IH]; intros [|y b] [|z c]; simpl; try lia.
    destruct (N.ltb_spec x y), (N.ltb_spec y z), (N.ltb_spec x z),
      (N.ltb_spec y x), (N.ltb_spec z y), (N.ltb_spec z x); try lia.
    apply IH.
Qed.


Example sort_by_name_sample :
  List.map CardEntry.name (array_sort (cmp_name compare_units) sample_cards)
  = [u16 "Arcane Signet"; u16 "Command Tower"; u16 "Sol Ring"].
Proof. vm_compute. reflexivity. Qed.

Example sort_by_mana_sample :
  List.map CardEntry.name (array_sort (cmp_mana compare_units) sample_cards)
  = [u16 "Command Tower"; u16 "Sol Ring"; u16 "Arcane Signet"].
Proof. vm_compute. reflexivity. Qed.

Example sort_by_type_sample :
  List.map CardEntry.name (array_sort (cmp_type compare_units) sample_cards)
  = [u16 "Arcane Signet"; u16 "Sol Ring"; u16 "Command Tower"].
Proof. vm_compute. reflexivity. Qed.

(** The comparators under a collation that is consistent, whether or not it
    tells different strings apart. *)
Lemma consistent_pullback {A B} (f : A → B) (cmp : B → B → Z) :
  consistent cmp → consistent (fun a b => cmp (f a) (f b)).
Proof.
  intros H. split.
  - intros a b. apply (cmp_antisym _ H).
  - intros a b c. apply (cmp_trans _ H).
Qed.

Lemma canonical_compare_consistent : consistent canonical_compare.
Proof. exact (consistent_pullback compose_acute compare_units compare_units_consistent). Qed.

Lemma cmp_mana_zero_iff localeCompare a b :
  cmp_mana localeCompare a b = 0
  ↔ getManaValue a = getManaValue b
    ∧ localeCompare (CardEntry.name a) (CardEntry.name b) = 0.
Proof.
  unfold cmp_mana. destruct (getManaValue a =? getManaValue b) eqn:E; simpl.
  - apply Z.eqb_eq in E. split; [intros H; split; assumption | intros [_ H]; exact H].
  - apply Z.eqb_neq in E. split; [lia | intros [H _]; contradiction].
Qed.

Lemma cmp_type_antisym localeCompare a b :
  consistent localeCompare →
  Z.sgn (cmp_type localeCompare b a) = - Z.sgn (cmp_type localeCompare a b).
Proof.
  intros Hc. unfold cmp_type.
  destruct (str_eqb (getCardType (CardEntry.type a)) (getCardType (CardEntry.type b))) eqn:E.
  - apply str_eqb_eq in E. rewrite E, str_eqb_refl. simpl. apply (cmp_antisym _ Hc).
  - apply str_eqb_neq in E.
    assert (str_eqb (getCardType (CardEntry.type b)) (getCardType (CardEntry.type a)) = false)
      as -> by (apply str_eqb_neq; congruence).
    simpl. apply (cmp_antisym _ Hc).
Qed.

Lemma cmp_type_zero_iff localeCompare a b :
  cmp_type localeCompare a b = 0
  ↔ (main_type a = main_type b
     ∧ localeCompare (CardEntry.name a) (CardEntry.name b) = 0)
    ∨ (main_type a ≠ main_type b ∧ localeCompare (main_type a) (main_type b) = 0).
Proof.
  unfold cmp_type, main_type.
  destruct (str_eqb (getCardType (CardEntry.type a)) (getCardType (CardEntry.type b))) eqn:E;
    simpl.
  - apply str_eqb_eq in E. split.
    + intros H. left. split; assumption.
    + intros [[_ H]|[Hne _]]; [exact H | contradiction].
  - apply str_eqb_neq in E. split.
    + intros H. right. split; assumption.
    + intros [[Heq _]|[_ H]]; [contradiction | exact H].
Qed.

Lemma cmp_type_le_any localeCompare a b :
  cmp_type localeCompare a b ≤ 0
  ↔ (main_type a = main_type b
     ∧ localeCompare (CardEntry.name a) (CardEntry.name b) ≤ 0)
    ∨ (main_type a ≠ main_type b ∧ localeCompare (main_type a) (main_type b) ≤ 0).
Proof.
  unfold cmp_type, main_type.
  destruct (str_eqb (getCardType (CardEntry.type a)) (getCardType (CardEntry.type b))) eqn:E;
    simpl.
  - apply str_eqb_eq in E. split.
    + intros H. left. split; assumption.
    + intros [[_ H]|[Hne _]]; [exact H | contradiction].
  - apply str_eqb_neq in E. split.
    + intros H. right. split; assumption.
    + intros [[Heq _]|[_ H]]; [contradiction | exact H].
Qed.

(** The comparator of the key [type] is transitive where the collation
    tells the two main types apart. *)
Lemma cmp_type_trans_apart localeCompare a b c :
  consistent localeCompare →
  (localeCompare (main_type a) (main_type b) = 0 → main_type a = main_type b) →
  cmp_type localeCompare a b ≤ 0 → cmp_type localeCompare b c ≤ 0 →
  cmp_type localeCompare a c ≤ 0.
Proof.
  intros Hc Hapart. rewrite !cmp_type_le_any.
  intros [[T1 N1]|[T1 L1]] [[T2 N2]|[T2 L2]].
  - left. split; [congruence|]. exact (cmp_trans _ Hc _ _ _ N1 N2).
  - right. rewrite T1. split; assumption.
  - right. rewrite <- T2. split; assumption.
  - destruct (decide (main_type a = main_type c)) as [E|E].
    + exfalso. apply T1, Hapart. rewrite <- E in L2.
      pose proof (cmp_antisym _ Hc (main_type a) (main_type b)) as Hs.
      destruct (localeCompare (main_type a) (main_type b)),
        (localeCompare (main_type b) (main_type a)); simpl in *; lia.
    + right. split; [exact E|]. exact (cmp_trans _ Hc _ _ _ L1 L2).
Qed.

(** C8, as the code has it.  With a collation that is consistent, as the
    one of the engine is: sorting by name the array that a sort by name
    returned gives the same order again; the comparator of the key
    [mana] is consistent (antisymmetric and transitive, hence total),
    and returns 0 exactly for two entries of one mana value whose names
    the collation takes for equal; the comparator of the key [type] is
    antisymmetric, returns 0 exactly for two entries of one main type
    whose names the collation takes for equal and for two entries of
    different main types that the collation takes for equal, and is
    transitive where the collation tells the main types of the first two
    entries apart; and whatever the key, [getSortedDecklist] returns a
    new array and leaves every array of the store, the decklist of the
    deck among them, as it was. *)
Theorem getSortedDecklist_idempotent_total_and_pure
    (localeCompare : jsstring → jsstring → Z)
    (h : heap) (d : loc) (cards : list CardEntry.t) :
  consistent localeCompare →
  h !! d = Some cards →
  (let '(sorted1, h1) := getSortedDecklist localeCompare (u16 "name") (Some d) h in
   let '(sorted2, h2) := getSortedDecklist localeCompare (u16 "name") (Some sorted1) h1 in
   h1 !! sorted1 = Some (array_sort (cmp_name localeCompare) cards)
   ∧ h2 !! sorted2 = h1 !! sorted1)
  ∧ array_sort (cmp_name localeCompare) (array_sort (cmp_name localeCompare) cards)
    = array_sort (cmp_name localeCompare) cards
  ∧ (consistent (cmp_mana localeCompare)
     ∧ ∀ a b, cmp_mana localeCompare a b = 0
              ↔ getManaValue a = getManaValue b
                ∧ localeCompare (CardEntry.name a) (CardEntry.name b) = 0)
  ∧ ((∀ a b, Z.sgn (cmp_type localeCompare b a) = - Z.sgn (cmp_type localeCompare a b))
     ∧ (∀ a b, cmp_type localeCompare a b = 0
               ↔ (main_type a = main_type b
                  ∧ localeCompare (CardEntry.name a) (CardEntry.name b) = 0)
                 ∨ (main_type a ≠ main_type b
                    ∧ localeCompare (main_type a) (main_type b) = 0))
     ∧ (∀ a b c,
          (localeCompare (main_type a) (main_type b) = 0 → main_type a = main_type b) →
          cmp_type localeCompare a b ≤ 0 → cmp_type localeCompare b c ≤ 0 →
          cmp_type localeCompare a c ≤ 0))
  ∧ (∀ sortBy,
       let '(sorted, h') := getSortedDecklist localeCompare sortBy (Some d) h in
       sorted ≠ d ∧ h' !! d = Some cards
       ∧ ∀ l other, h !! l = Some other → h' !! l = Some other).
Proof.
  intros Hc Hd.
  split; [|split; [|split; [|split]]].
  - pose proof (getSortedDecklist_name localeCompare d cards h Hd) as H1.
    destruct (getSortedDecklist localeCompare (u16 "name") (Some d) h)
      as [sorted1 h1].
    pose proof (getSortedDecklist_name localeCompare sorted1 _ h1 H1) as H2.
    destruct (getSortedDecklist localeCompare (u16 "name") (Some sorted1) h1)
      as [sorted2 h2].
    split; [exact H1|].
    rewrite H2, H1. f_equal.
    apply array_sort_idempotent, cmp_name_consistent, Hc.
  - apply array_sort_idempotent, cmp_name_consistent, Hc.
  - split; [apply cmp_mana_consistent, Hc | apply cmp_mana_zero_iff].
  - split; [intros a b; apply cmp_type_antisym, Hc|].
    split; [apply cmp_type_zero_iff|].
    intros a b c. apply cmp_type_trans_apart, Hc.
  - intros sortBy.
    pose proof (getSortedDecklist_frame localeCompare sortBy (Some d) h) as H.
    destruct (getSortedDecklist localeCompare sortBy (Some d) h) as [sorted h'].
    destruct H as (Hnew & _ & Hold).
    split; [congruence|]. split; [apply Hold; exact Hd | exact Hold].
Qed.

Lemma getSortedDecklist_idempotent_total_and_pure_witness :
  array_sort (cmp_name canonical_compare)
    (array_sort (cmp_name canonical_compare) sample_cards)
  = array_sort (cmp_name canonical_compare) sample_cards
  ∧ consistent (cmp_mana canonical_compare)
  ∧ (cmp_type canonical_compare card_z card_a = 0
     ↔ (main_type card_z = main_type card_a
        ∧ canonical_compare (CardEntry.name card_z) (CardEntry.name card_a) = 0)
       ∨ (main_type card_z ≠ main_type card_a
          ∧ canonical_compare (main_type card_z) (main_type card_a) = 0)).
Proof.
  destruct (getSortedDecklist_idempotent_total_and_pure canonical_compare
              sample_heap 0%nat sample_cards canonical_compare_consistent eq_refl)
    as (_ & Hidem & [Hmana _] & (_ & Htype & _) & _).
  split; [exact Hidem|]. split; [exact Hmana | exact (Htype card_z card_a)].
Defined.

(** The claim as the specification has it fails with a collation that is
    consistent and, like the one of the engine, takes the two ways of
    writing an accented letter for equal: under the keys [mana] and
    [type] two entries of different names compare equal, and the
    comparator of the key [type] is not transitive, hence no order. *)
Theorem collation_ties_entries_of_different_names :
  consistent canonical_compare
  ∧ CardEntry.name card_cafe_composed ≠ CardEntry.name card_cafe_decomposed
  ∧ cmp_mana canonical_compare card_cafe_composed card_cafe_decomposed = 0
  ∧ cmp_type canonical_compare card_cafe_composed card_cafe_decomposed = 0
  ∧ cmp_type canonical_compare card_m card_z ≤ 0
  ∧ cmp_type canonical_compare card_z card_a ≤ 0
  ∧ 0 < cmp_type canonical_compare card_m card_a.
Proof.
  split; [exact canonical_compare_consistent|].
  split; [discriminate|].
  repeat split; vm_compute; congruence.
Qed.

(* ===================================================================== *)
(** * Further properties *)
(* ===================================================================== *)

(** ** The pattern of a line *)

Lemma rmatch_seq {A} r1 r2 pos s caps (k : nat → jsstring → captures → option A) :
  rmatch (RSeq r1 r2) pos s caps k
  = rmatch r1 pos s caps (fun pos' s' caps' => rmatch r2 pos' s' caps' k).
Proof. reflexivity. Qed.

Lemma rmatch_group {A} n r pos s caps (k : nat → jsstring → captures → option A) :
  rmatch (RGroup n r) pos s caps k
  = rmatch r pos s caps (fun pos' s' caps' => k pos' s' ((n, take (pos' - pos) s) :: caps')).
Proof. reflexivity. Qed.

Lemma rmatch_set_cons {A} p c s pos caps (k : nat → jsstring → captures → option A) :
  rmatch (RSet p) pos (c :: s) caps k = if p c then k (S pos) s caps else None.
Proof. reflexivity. Qed.

Lemma rmatch_star_nil {A} r pos caps (k : nat → jsstring → captures → option A) :
  rmatch (RStar r) pos [] caps k = k pos [] caps.
Proof. reflexivity. Qed.

Lemma rmatch_star_set_cons {A} p c s pos caps (k : nat → jsstring → captures → option A) :
  rmatch (RStar (RSet p)) pos (c :: s) caps k
  = match (if p c then
             (if Nat.eqb (S pos) pos then None
              else rmatch (RStar (RSet p)) (S pos) s caps k)
           else None) with
    | Some a => Some a
    | None => k pos (c :: s) caps
    end.
Proof. reflexivity. Qed.

Lemma succ_neqb n : Nat.eqb (S n) n = false.
Proof. apply Nat.eqb_neq. lia. Qed.

(** The greedy star takes a whole run of the class when what follows does
    not belong to it and the rest of the pattern then matches. *)
Lemma rmatch_star_run {A} p run rest pos caps
    (k : nat → jsstring → captures → option A) a :
  forallb p run = true →
  match rest with [] => True | c :: _ => p c = false end →
  k (pos + length run)%nat rest caps = Some a →
  rmatch (RStar (RSet p)) pos (run ++ rest) caps k = Some a.
Proof.
  revert pos. induction run as [|c run IH]; intros pos Hrun Hrest Hk.
  - change ([] ++ rest) with rest. simpl in Hk.
    rewrite Nat.add_0_r in Hk. destruct rest as [|c rest].
    + rewrite rmatch_star_nil. exact Hk.
    + rewrite rmatch_star_set_cons, Hrest. exact Hk.
  - simpl in Hrun. apply andb_true_iff in Hrun as [Hc Hrun].
    change ((c :: run) ++ rest) with (c :: (run ++ rest)).
    rewrite rmatch_star_set_cons, Hc, succ_neqb.
    rewrite (IH (S pos) Hrun Hrest); [reflexivity|].
    simpl in Hk. rewrite <- Nat.add_succ_comm in Hk. exact Hk.
Qed.

Lemma rmatch_opt_take {A} c s pos caps (k : nat → jsstring → captures → option A) a :
  k (S pos) s caps = Some a →
  rmatch (ROpt (RChar c)) pos (c :: s) caps k = Some a.
Proof.
  intros Hk. change (rmatch (ROpt (RChar c)) pos (c :: s) caps k)
    with (match (if N.eqb c c then k (S pos) s caps else None) with
          | Some a => Some a | None => k pos (c :: s) caps end).
  rewrite N.eqb_refl, Hk. reflexivity.
Qed.

Lemma rmatch_opt_skip {A} c s pos caps (k : nat → jsstring → captures → option A) a :
  match s with [] => True | d :: _ => N.eqb c d = false end →
  k pos s caps = Some a →
  rmatch (ROpt (RChar c)) pos s caps k = Some a.
Proof.
  intros Hs Hk. destruct s as [|d s].
  - change (rmatch (ROpt (RChar c)) pos [] caps k) with (k pos [] caps). exact Hk.
  - change (rmatch (ROpt (RChar c)) pos (d :: s) caps k)
      with (match (if N.eqb c d then k (S pos) s caps else None) with
            | Some a => Some a | None => k pos (d :: s) caps end).
    rewrite Hs. exact Hk.
Qed.

Lemma can_start_facts c :
  name_can_start c = true →
  isWhiteSpace c = false ∧ isDigit c = false ∧ N.eqb 120 c = false
  ∧ N.eqb 45 c = false ∧ not_terminator c = true.
Proof.
  unfold name_can_start, not_terminator. intros H.
  apply negb_true_iff in H.
  apply orb_false_iff in H as [H H45].
  apply orb_false_iff in H as [H H120].
  apply orb_false_iff in H as [Hw Hd].
  assert (isLineTerminator c = false) as Ht.
  { unfold isWhiteSpace in Hw. apply orb_false_iff in Hw as [_ Hw]. exact Hw. }
  rewrite Ht, (N.eqb_sym 120), (N.eqb_sym 45).
  repeat split; assumption.
Qed.

Lemma whitespace_not_digit c : isWhiteSpace c = true → isDigit c = false.
Proof.
  unfold isWhiteSpace, isLineTerminator, isDigit. intros H.
  repeat (apply orb_true_iff in H as [H|H]);
    try (apply N.eqb_eq in H; subst c; reflexivity).
  apply andb_true_iff in H as [H1 H2]. apply N.leb_le in H1.
  apply andb_false_iff. right. apply N.leb_gt. lia.
Qed.

Section LineTail.
Context {A : Type} (K : nat → jsstring → captures → option A).

Lemma line_name pos caps c0 name' a :
  not_terminator c0 = true → forallb not_terminator name' = true →
  K (pos + S (length name'))%nat [] ((2%nat, c0 :: name') :: caps) = Some a →
  rmatch (line_re_from 7) pos (c0 :: name') caps K = Some a.
Proof.
  intros Hc Hn Hk.
  change (line_re_from 7)
    with (RSeq (RGroup 2 (RSeq (RSet not_terminator) (RStar (RSet not_terminator))))
               (RSeq REol REmpty)).
  rewrite rmatch_seq, rmatch_group, rmatch_seq, rmatch_set_cons, Hc.
  rewrite <- (app_nil_r name') at 1.
  apply rmatch_star_run; [exact Hn | exact I |].
  cbv beta. rewrite Nat.add_succ_comm.
  replace (pos + S (length name') - pos)%nat with (length (c0 :: name')) by (simpl; lia).
  rewrite firstn_all. exact Hk.
Qed.

Lemma line_ws_name pos caps ws3 c0 name' a :
  forallb isWhiteSpace ws3 = true →
  name_can_start c0 = true → forallb not_terminator name' = true →
  K (pos + length ws3 + S (length name'))%nat [] ((2%nat, c0 :: name') :: caps) = Some a →
  rmatch (line_re_from 6) pos (ws3 ++ c0 :: name') caps K = Some a.
Proof.
  intros Hws Hc Hn Hk. destruct (can_start_facts c0 Hc) as (Hw & _ & _ & _ & Ht).
  change (line_re_from 6) with (RSeq (RStar (RSet isWhiteSpace)) (line_re_from 7)).
  rewrite rmatch_seq. apply rmatch_star_run; [exact Hws | exact Hw |].
  apply line_name; assumption.
Qed.

Lemma line_dash pos caps (dash : bool) ws3 c0 name' a :
  forallb isWhiteSpace ws3 = true → (dash = false → ws3 = []) →
  name_can_start c0 = true → forallb not_terminator name' = true →
  K (pos + length ((if dash then [45%N] else []) ++ ws3) + S (length name'))%nat []
    ((2%nat, c0 :: name') :: caps) = Some a →
  rmatch (line_re_from 5) pos (((if dash then [45%N] else []) ++ ws3) ++ c0 :: name') caps K
  = Some a.
Proof.
  intros Hws Hd Hc Hn Hk. destruct (can_start_facts c0 Hc) as (_ & _ & _ & H45 & _).
  change (line_re_from 5) with (RSeq (ROpt (RChar 45)) (line_re_from 6)).
  rewrite rmatch_seq. destruct dash.
  - change (([45%N] ++ ws3) ++ c0 :: name') with (45%N :: (ws3 ++ c0 :: name')).
    apply rmatch_opt_take. apply line_ws_name; try assumption.
    simpl in Hk. rewrite <- Hk. f_equal. lia.
  - rewrite (Hd eq_refl) in *. change (([] ++ []) ++ c0 :: name') with ([] ++ c0 :: name').
    apply rmatch_opt_skip; [exact H45|].
    apply line_ws_name; assumption.
Qed.

Lemma line_ws_dash pos caps ws2 (dash : bool) ws3 c0 name' a :
  forallb isWhiteSpace ws2 = true →
  forallb isWhiteSpace ws3 = true → (dash = false → ws3 = []) →
  name_can_start c0 = true → forallb not_terminator name' = true →
  K (pos + length (ws2 ++ (if dash then [45%N] else []) ++ ws3) + S (length name'))%nat []
    ((2%nat, c0 :: name') :: caps) = Some a →
  rmatch (line_re_from 4) pos
    ((ws2 ++ (if dash then [45%N] else []) ++ ws3) ++ c0 :: name') caps K
  = Some a.
Proof.
  intros Hws2 Hws3 Hd Hc Hn Hk.
  destruct (can_start_facts c0 Hc) as (Hw & _ & _ & _ & _).
  change (line_re_from 4) with (RSeq (RStar (RSet isWhiteSpace)) (line_re_from 5)).
  rewrite rmatch_seq, <- app_assoc.
  apply rmatch_star_run; [exact Hws2 | |].
  - destruct dash; [reflexivity|]. rewrite (Hd eq_refl). exact Hw.
  - apply line_dash; try assumption.
    rewrite length_app, Nat.add_assoc in Hk. exact Hk.
Qed.

Lemma line_x pos caps (x : bool) ws2 (dash : bool) ws3 c0 name' a :
  forallb isWhiteSpace ws2 = true → (x = false → ws2 = []) →
  forallb isWhiteSpace ws3 = true → (dash = false → ws3 = []) →
  name_can_start c0 = true → forallb not_terminator name' = true →
  K (pos + length (separator [] x ws2 dash ws3) + S (length name'))%nat []
    ((2%nat, c0 :: name') :: caps) = Some a →
  rmatch (line_re_from 3) pos (separator [] x ws2 dash ws3 ++ c0 :: name') caps K
  = Some a.
Proof.
  intros Hws2 Hx Hws3 Hd Hc Hn Hk.
  destruct (can_start_facts c0 Hc) as (_ & _ & H120 & _ & _).
  change (line_re_from 3) with (RSeq (ROpt (RChar 120)) (line_re_from 4)).
  rewrite rmatch_seq. unfold separator in *. destruct x.
  - change (([] ++ [120%N] ++ ws2 ++ (if dash then [45%N] else []) ++ ws3) ++ c0 :: name')
      with (120%N :: ((ws2 ++ (if dash then [45%N] else []) ++ ws3) ++ c0 :: name')).
    apply rmatch_opt_take. apply line_ws_dash; try assumption.
    simpl in Hk. rewrite <- Hk. f_equal. lia.
  - rewrite (Hx eq_refl) in *.
    change (([] ++ [] ++ [] ++ (if dash then [45%N] else []) ++ ws3) ++ c0 :: name')
      with (([] ++ (if dash then [45%N] else []) ++ ws3) ++ c0 :: name').
    apply rmatch_opt_skip.
    + destruct dash; [reflexivity|]. rewrite (Hd eq_refl). exact H120.
    + apply line_ws_dash; first [assumption | reflexivity | exact Hk].
Qed.

Lemma line_ws_x pos caps ws1 (x : bool) ws2 (dash : bool) ws3 c0 name' a :
  forallb isWhiteSpace ws1 = true →
  forallb isWhiteSpace ws2 = true → (x = false → ws2 = []) →
  forallb isWhiteSpace ws3 = true → (dash = false → ws3 = []) →
  name_can_start c0 = true → forallb not_terminator name' = true →
  K (pos + length (separator ws1 x ws2 dash ws3) + S (length name'))%nat []
    ((2%nat, c0 :: name') :: caps) = Some a →
  rmatch (line_re_from 2) pos (separator ws1 x ws2 dash ws3 ++ c0 :: name') caps K
  = Some a.
Proof.
  intros Hws1 Hws2 Hx Hws3 Hd Hc Hn Hk.
  destruct (can_start_facts c0 Hc) as (Hw & _ & _ & _ & _).
  change (line_re_from 2) with (RSeq (RStar (RSet isWhiteSpace)) (line_re_from 3)).
  rewrite rmatch_seq.
  change (separator ws1 x ws2 dash ws3)
    with (ws1 ++ separator [] x ws2 dash ws3) in *.
  rewrite <- app_assoc.
  apply rmatch_star_run; [exact Hws1 | |].
  - unfold separator. destruct x; [reflexivity|]. rewrite (Hx eq_refl).
    destruct dash; [reflexivity|]. rewrite (Hd eq_refl). exact Hw.
  - apply line_x; try assumption.
    rewrite length_app, Nat.add_assoc in Hk. exact Hk.
Qed.

End LineTail.

Lemma exec_from_hit r pos s m :
  rmatch r pos s []
    (fun pos' _ caps => Some {| m_index := pos; m_end := pos'; m_caps := caps |}) = Some m →
  exec_from r pos s = Some m.
Proof.
  intros H. destruct s; cbn [exec_from]; rewrite H; reflexivity.
Qed.

Lemma str_match_line q ws1 x ws2 dash ws3 c0 name' :
  q ≠ [] → forallb isDigit q = true →
  forallb isWhiteSpace ws1 = true →
  forallb isWhiteSpace ws2 = true → (x = false → ws2 = []) →
  forallb isWhiteSpace ws3 = true → (dash = false → ws3 = []) →
  name_can_start c0 = true → forallb not_terminator name' = true →
  ∃ m, str_match line_re (q ++ separator ws1 x ws2 dash ws3 ++ c0 :: name') = Some m
       ∧ group 1 (m_caps m) = q ∧ group 2 (m_caps m) = c0 :: name'.
Proof.
  intros Hq Hdig Hws1 Hws2 Hx Hws3 Hd Hc Hn.
  destruct q as [|q0 q']; [congruence|]. clear Hq.
  simpl in Hdig. apply andb_true_iff in Hdig as [Hq0 Hq'].
  eexists. split.
  - unfold str_match. apply exec_from_hit.
    change line_re
      with (RSeq RBol (RSeq (RGroup 1 (RSeq (RSet isDigit) (RStar (RSet isDigit))))
                            (line_re_from 2))).
    rewrite rmatch_seq.
    change (rmatch RBol 0 ?s ?caps ?k) with (k 0%nat s caps). cbv beta.
    rewrite rmatch_seq, rmatch_group, rmatch_seq.
    change ((q0 :: q') ++ ?r) with (q0 :: (q' ++ r)).
    rewrite rmatch_set_cons, Hq0.
    apply rmatch_star_run; [exact Hq' | |].
    + destruct (can_start_facts c0 Hc) as (_ & Hnd & _ & _ & _).
      unfold separator. destruct ws1 as [|w ws1].
      * destruct x; [reflexivity|]. rewrite (Hx eq_refl).
        destruct dash; [reflexivity|]. rewrite (Hd eq_refl). exact Hnd.
      * simpl in Hws1. apply andb_true_iff in Hws1 as [Hw _].
        apply whitespace_not_digit. exact Hw.
    + cbv beta. apply line_ws_x; try assumption. reflexivity.
  - simpl. split; [|reflexivity].
    replace (1 + length q' - 0)%nat with (length (q0 :: q')) by (simpl; lia).
    change (q0 :: q' ++ ?r) with ((q0 :: q') ++ r).
    rewrite take_app_length. reflexivity.
Qed.

Lemma digit_cases c :
  isDigit c = true →
  In c [48; 49; 50; 51; 52; 53; 54; 55; 56; 57]%N.
Proof.
  unfold isDigit. intros H. apply andb_true_iff in H as [H1 H2].
  apply N.leb_le in H1. apply N.leb_le in H2. simpl.
  assert (c = 48 ∨ c = 49 ∨ c = 50 ∨ c = 51 ∨ c = 52 ∨ c = 53 ∨ c = 54
          ∨ c = 55 ∨ c = 56 ∨ c = 57)%N as Hc by lia.
  intuition.
Qed.

Lemma digitValue_digit c :
  isDigit c = true → digitValue 10 c = Some (Z.of_N (c - 48)).
Proof.
  intros H. apply digit_cases in H. simpl in H.
  repeat (destruct H as [<-|H]; [reflexivity|]). destruct H.
Qed.

Lemma digitsPrefix_digits q acc :
  forallb isDigit q = true →
  digitsPrefix 10 (Some acc) q = Some (fold_left (fun a c => 10 * a + Z.of_N (c - 48)) q acc).
Proof.
  revert acc. induction q as [|c q IH]; intros acc H; [reflexivity|].
  simpl in H. apply andb_true_iff in H as [Hc Hq].
  cbn [digitsPrefix fold_left]. rewrite (digitValue_digit c Hc).
  rewrite IH by assumption. reflexivity.
Qed.

(** [parseInt] of a string of decimal digits is its decimal value. *)
Lemma parseInt_digits q :
  q ≠ [] → forallb isDigit q = true → parseInt q = Some (digits_to_Z q).
Proof.
  intros Hne H. destruct q as [|q0 q]; [congruence|].
  simpl in H. apply andb_true_iff in H as [H0 Hq].
  assert (digitsPrefix 10 None (q0 :: q) = Some (digits_to_Z (q0 :: q))) as Hval.
  { cbn [digitsPrefix]. rewrite (digitValue_digit q0 H0).
    rewrite digitsPrefix_digits by assumption. reflexivity. }
  pose proof (digit_cases q0 H0) as Hc. simpl in Hc.
  destruct Hc as [<-|Hc].
  - (* a leading 0: what follows is a digit, not an x *)
    destruct q as [|q1 q].
    + reflexivity.
    + simpl in Hq. apply andb_true_iff in Hq as [H1 Hq].
      pose proof (digit_cases q1 H1) as Hc1. simpl in Hc1.
      unfold parseInt.
      repeat (destruct Hc1 as [<-|Hc1];
              [cbn -[digitsPrefix digits_to_Z]; rewrite Hval; f_equal; lia|]).
      destruct Hc1.
  - repeat (destruct Hc as [<-|Hc];
            [unfold parseInt; cbn -[digitsPrefix digits_to_Z]; rewrite Hval; f_equal; lia|]).
    destruct Hc.
Qed.

Lemma trimStart_clean s : starts_clean (trimStart s).
Proof.
  induction s as [|c s IH]; simpl; [exact I|].
  destruct (isWhiteSpace c) eqn:E; [exact IH | exact E].
Qed.

Lemma trimStart_of_clean s : starts_clean s → trimStart s = s.
Proof. destruct s as [|c s]; simpl; [reflexivity|]. intros ->. reflexivity. Qed.

Lemma trimStart_keeps_last l c :
  isWhiteSpace c = false → ∃ l', trimStart (l ++ [c]) = l' ++ [c].
Proof.
  intros Hc. induction l as [|d l IH]; simpl.
  - rewrite Hc. exists []. reflexivity.
  - destruct (isWhiteSpace d); [exact IH|]. exists (d :: l). reflexivity.
Qed.

Lemma trim_trimmed s : trimmed (trim s).
Proof.
  unfold trim, trimEnd. pose proof (trimStart_clean s) as Hhead.
  destruct (trimStart s) as [|c t] eqn:E.
  - split; exact I.
  - simpl in Hhead. split.
    + simpl. destruct (trimStart_keeps_last (rev t) c Hhead) as [l' Hl'].
      rewrite Hl', rev_app_distr. exact Hhead.
    + rewrite rev_involutive. apply trimStart_clean.
Qed.

Lemma trim_of_trimmed s : trimmed s → trim s = s.
Proof.
  intros [H1 H2]. unfold trim, trimEnd.
  rewrite (trimStart_of_clean s H1), (trimStart_of_clean _ H2).
  apply rev_involutive.
Qed.

Lemma trim_idempotent s : trim (trim s) = trim s.
Proof. apply trim_of_trimmed, trim_trimmed. Qed.

Lemma trim_nonempty c s : isWhiteSpace c = false → truthy_str (trim (c :: s)) = true.
Proof.
  intros Hc. unfold trim, trimEnd.
  rewrite (trimStart_of_clean (c :: s) Hc). simpl.
  destruct (trimStart_keeps_last (rev s) c Hc) as [l' ->].
  rewrite rev_app_distr. reflexivity.
Qed.

(** X1.  A line that is a quantity written in digits, then a separator
    (white space, an x, white space, a dash, white space, each of them
    optional) and then a name that starts with none of these is read as
    one card: the quantity is the number, the name is the rest of the
    line without the white space at its end.  The line is not one of
    those the parser skips, and the quantity is positive and in the
    range where the numbers of the language are the integers. *)
Theorem parseDecklist_step_reads_quantity_and_name
    cards q ws1 (x : bool) ws2 (dash : bool) ws3 c0 name' :
  q ≠ [] → forallb isDigit q = true →
  forallb isWhiteSpace ws1 = true →
  forallb isWhiteSpace ws2 = true → (x = false → ws2 = []) →
  forallb isWhiteSpace ws3 = true → (dash = false → ws3 = []) →
  name_can_start c0 = true → forallb not_terminator name' = true →
  0 < digits_to_Z q < 2 ^ 53 →
  is_skipped (q ++ separator ws1 x ws2 dash ws3 ++ c0 :: name') = false →
  parseDecklist_step cards (q ++ separator ws1 x ws2 dash ws3 ++ c0 :: name')
  = cards ++ [ParsedLine.mk (trim (c0 :: name')) (digits_to_Z q)].
Proof.
  intros Hq Hdig Hws1 Hws2 Hx Hws3 Hd Hc Hn Hpos Hskip.
  destruct (str_match_line q ws1 x ws2 dash ws3 c0 name'
              Hq Hdig Hws1 Hws2 Hx Hws3 Hd Hc Hn) as (m & Hm & Hg1 & Hg2).
  unfold parseDecklist_step. rewrite Hskip, Hm, Hg1, Hg2.
  rewrite (parseInt_digits q Hq Hdig).
  destruct (can_start_facts c0 Hc) as (Hw & _).
  rewrite (trim_nonempty c0 name' Hw).
  destruct Hpos as [Hpos _]. apply Z.ltb_lt in Hpos. rewrite Hpos. reflexivity.
Qed.

Lemma parseDecklist_step_reads_quantity_and_name_witness :
  parseDecklist_step [] (u16 "2x Arcane Signet")
  = [ParsedLine.mk (u16 "Arcane Signet") 2].
Proof.
  exact (parseDecklist_step_reads_quantity_and_name [] (u16 "2") [] true (u16 " ") false []
           65%N (u16 "rcane Signet")
           ltac:(discriminate) eq_refl eq_refl eq_refl ltac:(discriminate) eq_refl
           ltac:(reflexivity) eq_refl eq_refl ltac:(vm_compute; split; reflexivity) eq_refl).
Defined.

Lemma step_cases cards line :
  parseDecklist_step cards line = cards
  ∨ ∃ card, well_formed_card card ∧ parseDecklist_step cards line = cards ++ [card]
            ∧ parseDecklist_step [] line = [card].
Proof.
  unfold parseDecklist_step.
  destruct (is_skipped line); [left; reflexivity|].
  destruct (str_match line_re line) as [m|]; [|left; reflexivity].
  destruct (parseInt (group 1 (m_caps m))) as [n|]; [|left; reflexivity].
  destruct (truthy_str (trim (group 2 (m_caps m)))) eqn:Hname; [|left; reflexivity].
  destruct (0 <? n) eqn:Hn; [|left; reflexivity].
  right. eexists. split; [|split; reflexivity].
  split; [|split]; simpl.
  - apply Z.ltb_lt. exact Hn.
  - intros E. rewrite E in Hname. discriminate.
  - apply trim_trimmed.
Qed.

Lemma step_appends cards line :
  parseDecklist_step cards line = cards ++ parseDecklist_step [] line.
Proof.
  destruct (step_cases cards line) as [H|(card & _ & H & H0)].
  - destruct (step_cases [] line) as [H'|(card & _ & _ & H')].
    + rewrite H, H', app_nil_r. reflexivity.
    + exfalso. unfold parseDecklist_step in *.
      destruct (is_skipped line); [discriminate|].
      destruct (str_match line_re line) as [m|]; [|discriminate].
      destruct (parseInt (group 1 (m_caps m))) as [n|]; [|discriminate].
      destruct (truthy_str (trim (group 2 (m_caps m))) && (0 <? n)); [|discriminate].
      apply (f_equal length) in H. rewrite length_app in H. simpl in H. lia.
  - rewrite H, H0. reflexivity.
Qed.

Lemma fold_step_appends lines cards :
  fold_left parseDecklist_step lines cards
  = cards ++ fold_left parseDecklist_step lines [].
Proof.
  revert cards. induction lines as [|line lines IH]; intros cards; simpl.
  - rewrite app_nil_r. reflexivity.
  - rewrite IH, (IH (parseDecklist_step [] line)), step_appends, app_assoc. reflexivity.
Qed.

Lemma fold_step_app l1 l2 :
  fold_left parseDecklist_step (l1 ++ l2) []
  = fold_left parseDecklist_step l1 [] ++ fold_left parseDecklist_step l2 [].
Proof. rewrite fold_left_app. apply fold_step_appends. Qed.

Lemma split_nonempty sep s : split sep s ≠ [].
Proof.
  destruct s as [|c s]; simpl; [discriminate|].
  destruct (N.eqb c sep); [discriminate|].
  destruct (split sep s); discriminate.
Qed.

Lemma split_app_sep sep a b :
  split sep (a ++ sep :: b) = split sep a ++ split sep b.
Proof.
  induction a as [|c a IH]; simpl.
  - rewrite N.eqb_refl. reflexivity.
  - destruct (N.eqb c sep); [rewrite IH; reflexivity|].
    rewrite IH. pose proof (split_nonempty sep a) as Hne.
    destruct (split sep a); [congruence | reflexivity].
Qed.

Lemma decklist_lines_app a b :
  decklist_lines (a ++ LF :: b) = decklist_lines a ++ decklist_lines b.
Proof.
  unfold decklist_lines. rewrite split_app_sep, List.map_app, List.filter_app. reflexivity.
Qed.

(** X3.  [parseDecklist] reads a text line by line: the cards of two
    texts joined by a line feed are the cards of the first followed by
    the cards of the second. *)
Theorem parseDecklist_reads_line_by_line a b :
  parseDecklist (a ++ LF :: b) = parseDecklist a ++ parseDecklist b.
Proof.
  unfold parseDecklist. rewrite decklist_lines_app. apply fold_step_app.
Qed.

(** X2.  Every card that [parseDecklist] returns has a positive
    quantity and a name that is not empty and neither starts nor ends
    with white space; and there are no more cards than lines that are
    not blank. *)
Theorem parseDecklist_cards_are_well_formed text :
  Forall well_formed_card (parseDecklist text)
  ∧ (length (parseDecklist text) ≤ length (decklist_lines text))%nat.
Proof.
  unfold parseDecklist.
  induction (decklist_lines text) as [|line lines [IH1 IH2]] using rev_ind.
  - split; [constructor | reflexivity].
  - rewrite fold_left_app. simpl.
    destruct (step_cases (fold_left parseDecklist_step lines []) line)
      as [->|(card & Hcard & -> & _)].
    + split; [exact IH1|]. rewrite length_app. simpl. lia.
    + split.
      * apply Forall_app. split; [exact IH1 | constructor; [exact Hcard | constructor]].
      * rewrite !length_app. simpl. lia.
Qed.

(** Inversion: what a successful match went through. *)
Lemma rmatch_star_inv {A} p s pos caps (k : nat → jsstring → captures → option A) a :
  rmatch (RStar (RSet p)) pos s caps k = Some a →
  ∃ run rest, s = run ++ rest ∧ forallb p run = true
              ∧ k (pos + length run)%nat rest caps = Some a.
Proof.
  revert pos. induction s as [|c s IH]; intros pos H.
  - rewrite rmatch_star_nil in H. exists [], []. rewrite Nat.add_0_r. auto.
  - rewrite rmatch_star_set_cons, succ_neqb in H.
    destruct (p c) eqn:Hc.
    + destruct (rmatch (RStar (RSet p)) (S pos) s caps k) as [a'|] eqn:E.
      * injection H as <-. destruct (IH _ E) as (run & rest & -> & Hrun & Hk).
        exists (c :: run), rest. simpl. rewrite Hc, Hrun.
        rewrite <- Nat.add_succ_comm. auto.
      * exists [], (c :: s). rewrite Nat.add_0_r. auto.
    + exists [], (c :: s). rewrite Nat.add_0_r. auto.
Qed.

Lemma rmatch_opt_inv {A} c s pos caps (k : nat → jsstring → captures → option A) a :
  rmatch (ROpt (RChar c)) pos s caps k = Some a →
  (∃ s', s = c :: s' ∧ k (S pos) s' caps = Some a) ∨ k pos s caps = Some a.
Proof.
  destruct s as [|d s].
  - change (rmatch (ROpt (RChar c)) pos [] caps k) with (k pos [] caps). auto.
  - change (rmatch (ROpt (RChar c)) pos (d :: s) caps k)
      with (match (if N.eqb c d then k (S pos) s caps else None) with
            | Some a => Some a | None => k pos (d :: s) caps end).
    destruct (N.eqb c d) eqn:E.
    + apply N.eqb_eq in E. subst d.
      destruct (k (S pos) s caps) as [a'|] eqn:Ek; [|auto].
      intros [= <-]. left. eauto.
    + auto.
Qed.

Lemma whitespace_separator l :
  forallb isWhiteSpace l = true → forallb separator_unit l = true.
Proof.
  intros H. rewrite forallb_forall in *. intros c Hc.
  unfold separator_unit. rewrite (H c Hc). reflexivity.
Qed.

Lemma str_match_line_inv line m :
  str_match line_re line = Some m →
  ∃ q sep name,
    line = q ++ sep ++ name
    ∧ q ≠ [] ∧ forallb isDigit q = true
    ∧ forallb separator_unit sep = true
    ∧ name ≠ [] ∧ forallb not_terminator name = true
    ∧ group 1 (m_caps m) = q ∧ group 2 (m_caps m) = name.
Proof.
  unfold str_match. intros H.
  assert (rmatch line_re 0 line []
            (fun pos' _ caps => Some {| m_index := 0%nat; m_end := pos'; m_caps := caps |})
          = Some m) as Hm.
  { destruct line as [|c line]; cbn [exec_from] in H.
    - destruct (rmatch line_re 0 [] [] _); [exact H | discriminate].
    - destruct (rmatch line_re 0 (c :: line) [] _) eqn:E; [exact H|].
      rewrite exec_line_re_later in H by lia. discriminate. }
  clear H.
  change line_re
    with (RSeq RBol (RSeq (RGroup 1 (RSeq (RSet isDigit) (RStar (RSet isDigit))))
                          (line_re_from 2))) in Hm.
  rewrite rmatch_seq in Hm.
  change (rmatch RBol 0 ?s ?caps ?k) with (k 0%nat s caps) in Hm. cbv beta in Hm.
  rewrite rmatch_seq, rmatch_group, rmatch_seq in Hm.
  destruct line as [|q0 line]; [discriminate|].
  rewrite rmatch_set_cons in Hm. destruct (isDigit q0) eqn:Hq0; [|discriminate].
  apply rmatch_star_inv in Hm as (q' & r1 & -> & Hq' & Hm). cbv beta in Hm.
  replace (1 + length q' - 0)%nat with (length (q0 :: q')) in Hm by (simpl; lia).
  change (q0 :: q' ++ r1) with ((q0 :: q') ++ r1) in Hm.
  rewrite take_app_length in Hm.
  change (line_re_from 2) with (RSeq (RStar (RSet isWhiteSpace)) (line_re_from 3)) in Hm.
  rewrite rmatch_seq in Hm.
  apply rmatch_star_inv in Hm as (ws1 & r2 & -> & Hws1 & Hm). cbv beta in Hm.
  change (line_re_from 3) with (RSeq (ROpt (RChar 120)) (line_re_from 4)) in Hm.
  rewrite rmatch_seq in Hm.
  assert (∃ xs r3 pos3, r2 = xs ++ r3 ∧ forallb separator_unit xs = true
            ∧ rmatch (line_re_from 4) pos3 r3 [(1%nat, q0 :: q')]
                (fun pos' _ caps => Some {| m_index := 0%nat; m_end := pos'; m_caps := caps |})
              = Some m) as (xs & r3 & pos3 & -> & Hxs & Hm3).
  { apply rmatch_opt_inv in Hm as [(s' & -> & Hm)|Hm].
    - exists [120%N], s'. eexists. split; [reflexivity|]. split; [reflexivity | exact Hm].
    - exists [], r2. eexists. split; [reflexivity|]. split; [reflexivity | exact Hm]. }
  clear Hm.
  change (line_re_from 4) with (RSeq (RStar (RSet isWhiteSpace)) (line_re_from 5)) in Hm3.
  rewrite rmatch_seq in Hm3.
  apply rmatch_star_inv in Hm3 as (ws2 & r4 & -> & Hws2 & Hm). cbv beta in Hm.
  change (line_re_from 5) with (RSeq (ROpt (RChar 45)) (line_re_from 6)) in Hm.
  rewrite rmatch_seq in Hm.
  assert (∃ ds r5 pos5, r4 = ds ++ r5 ∧ forallb separator_unit ds = true
            ∧ rmatch (line_re_from 6) pos5 r5 [(1%nat, q0 :: q')]
                (fun pos' _ caps => Some {| m_index := 0%nat; m_end := pos'; m_caps := caps |})
              = Some m) as (ds & r5 & pos5 & -> & Hds & Hm5).
  { apply rmatch_opt_inv in Hm as [(s' & -> & Hm)|Hm].
    - exists [45%N], s'. eexists. split; [reflexivity|]. split; [reflexivity | exact Hm].
    - exists [], r4. eexists. split; [reflexivity|]. split; [reflexivity | exact Hm]. }
  clear Hm.
  change (line_re_from 6) with (RSeq (RStar (RSet isWhiteSpace)) (line_re_from 7)) in Hm5.
  rewrite rmatch_seq in Hm5.
  apply rmatch_star_inv in Hm5 as (ws3 & name & -> & Hws3 & Hm). cbv beta in Hm.
  change (line_re_from 7)
    with (RSeq (RGroup 2 (RSeq (RSet not_terminator) (RStar (RSet not_terminator))))
               (RSeq REol REmpty)) in Hm.
  rewrite rmatch_seq, rmatch_group, rmatch_seq in Hm.
  destruct name as [|c0 name']; [discriminate|].
  rewrite rmatch_set_cons in Hm. destruct (not_terminator c0) eqn:Hc0; [|discriminate].
  apply rmatch_star_inv in Hm as (run & rest & -> & Hrun & Hm). cbv beta in Hm.
  rewrite rmatch_seq in Hm.
  destruct rest as [|r rest]; [|discriminate].
  change (rmatch REol ?p [] ?caps ?k) with (k p [] caps) in Hm. cbv beta in Hm.
  change (rmatch REmpty ?p ?s ?caps ?k) with (k p s caps) in Hm. cbv beta in Hm.
  injection Hm as <-.
  exists (q0 :: q'), (ws1 ++ xs ++ ws2 ++ ds ++ ws3), (c0 :: run ++ []).
  split; [rewrite <- !app_assoc; reflexivity|].
  split; [discriminate|].
  split; [simpl; rewrite Hq0, Hq'; reflexivity|].
  split.
  { rewrite !forallb_app, Hxs, Hds, !whitespace_separator by assumption. reflexivity. }
  split; [discriminate|].
  split; [simpl; rewrite Hc0, app_nil_r, Hrun; reflexivity|].
  simpl. split; [reflexivity|].
  replace (S (pos5 + length ws3 + length run) - (pos5 + length ws3))%nat
    with (length (c0 :: run ++ [])) by (simpl; rewrite length_app; simpl; lia).
  apply firstn_all.
Qed.

Lemma fold_step_provenance lines card :
  In card (fold_left parseDecklist_step lines []) →
  ∃ line, In line lines ∧ parseDecklist_step [] line = [card].
Proof.
  induction lines as [|line lines IH] using rev_ind; [intros []|].
  rewrite fold_left_app. simpl.
  destruct (step_cases (fold_left parseDecklist_step lines []) line)
    as [->|(c & _ & -> & Hc)].
  - intros H. destruct (IH H) as (l & Hl & Hs). exists l. split; [|exact Hs].
    apply in_or_app. left. exact Hl.
  - intros H. apply in_app_or in H as [H|[<-|[]]].
    + destruct (IH H) as (l & Hl & Hs). exists l. split; [|exact Hs].
      apply in_or_app. left. exact Hl.
    + exists line. split; [|exact Hc]. apply in_or_app. right. left. reflexivity.
Qed.

Lemma step_single_inv line card :
  parseDecklist_step [] line = [card] →
  ∃ q sep name,
    is_skipped line = false ∧ line = q ++ sep ++ name
    ∧ q ≠ [] ∧ forallb isDigit q = true
    ∧ forallb separator_unit sep = true
    ∧ name ≠ [] ∧ forallb not_terminator name = true
    ∧ card = ParsedLine.mk (trim name) (digits_to_Z q).
Proof.
  unfold parseDecklist_step.
  destruct (is_skipped line) eqn:Hskip; [discriminate|].
  destruct (str_match line_re line) as [m|] eqn:Hm; [|discriminate].
  destruct (str_match_line_inv line m Hm)
    as (q & sep & name & -> & Hq & Hdig & Hsep & Hname & Hterm & -> & ->).
  rewrite (parseInt_digits q Hq Hdig).
  destruct (truthy_str (trim name) && (0 <? digits_to_Z q)); [|discriminate].
  intros [= <-]. exists q, sep, name. repeat split; assumption.
Qed.

(** X4.  Every card that [parseDecklist] returns comes from one line of
    the text that is not skipped: the line is a run of digits, whose
    number is the quantity, then units of a separator, then the text
    whose trimmed form is the name.  (For a quantity in the range where
    the numbers of the language are the integers.) *)
Theorem parseDecklist_cards_come_from_lines text card :
  In card (parseDecklist text) →
  ParsedLine.quantity card < 2 ^ 53 →
  ∃ line q sep name,
    In line (decklist_lines text)
    ∧ is_skipped line = false
    ∧ line = q ++ sep ++ name
    ∧ q ≠ [] ∧ forallb isDigit q = true
    ∧ forallb separator_unit sep = true
    ∧ name ≠ [] ∧ forallb not_terminator name = true
    ∧ card = ParsedLine.mk (trim name) (digits_to_Z q).
Proof.
  intros H _. apply fold_step_provenance in H as (line & Hline & Hstep).
  apply step_single_inv in Hstep
    as (q & sep & name & Hskip & Hl & Hq & Hdig & Hsep & Hname & Hterm & Hcard).
  exists line, q, sep, name. repeat split; assumption.
Qed.

Lemma parseDecklist_cards_come_from_lines_witness :
  ∃ line q sep name,
    In line (decklist_lines sample_text)
    ∧ is_skipped line = false
    ∧ line = q ++ sep ++ name
    ∧ q ≠ [] ∧ forallb isDigit q = true
    ∧ forallb separator_unit sep = true
    ∧ name ≠ [] ∧ forallb not_terminator name = true
    ∧ ParsedLine.mk (u16 "Arcane Signet") 2 = ParsedLine.mk (trim name) (digits_to_Z q).
Proof.
  apply (parseDecklist_cards_come_from_lines sample_text
           (ParsedLine.mk (u16 "Arcane Signet") 2)).
  - vm_compute. right. left. reflexivity.
  - reflexivity.
Defined.

(** ** Statistics, further *)

Lemma updatedStats_consistent s stat delta :
  consistent_stats s →
  delta = 1 ∨ delta = -1 →
  stat = Mulligans ∨ delta = 1 ∨ 0 < num_or_0 (stat_get s stat) →
  consistent_stats (updatedStats s stat delta).
Proof.
  intros (w & l & m & Hw & Hl & Hm & ->) Hdelta Hsafe.
  destruct stat; cbn in *.
  - assert (0 ≤ w + delta) by (destruct Hsafe as [?|[?|?]]; [discriminate| |]; lia).
    exists (Z.max 0 (w + delta)), l, m. repeat split; try lia.
    clear Hsafe. unfold updatedStats. simpl. f_equal; f_equal; lia.
  - assert (0 ≤ l + delta) by (destruct Hsafe as [?|[?|?]]; [discriminate| |]; lia).
    exists w, (Z.max 0 (l + delta)), m. repeat split; try lia.
    clear Hsafe. unfold updatedStats. simpl. f_equal; f_equal; lia.
  - exists w, l, (Z.max 0 (m + delta)). repeat split; try lia.
Qed.

(** X5.  From statistics that are not negative and whose total is the
    sum of wins and losses, a quick adjustment gives such statistics
    again whenever it is not cut off at zero: an adjustment of the
    mulligans, an increment, or a decrement of a count that is positive.
    Hence every run of increments keeps them. *)
Theorem quick_adjust_keeps_invariant_unless_clamped s :
  consistent_stats s →
  (∀ stat delta,
     delta = 1 ∨ delta = -1 →
     stat = Mulligans ∨ delta = 1 ∨ 0 < num_or_0 (stat_get s stat) →
     consistent_stats (updatedStats s stat delta))
  ∧ (∀ clicks,
       Forall (fun click => snd click = 1) clicks →
       consistent_stats (quick_adjusts clicks s)).
Proof.
  intros Hs. split.
  - intros stat delta. apply updatedStats_consistent. exact Hs.
  - intros clicks Hclicks. revert s Hs.
    induction Hclicks as [|[stat delta] clicks Hd _ IH]; intros s Hs; [exact Hs|].
    simpl in *. apply IH. apply updatedStats_consistent; auto.
Qed.

Lemma quick_adjust_keeps_invariant_unless_clamped_witness :
  consistent_stats (quick_adjusts [(Wins, 1); (Losses, 1); (Mulligans, 1)] zero_stats)
  ∧ consistent_stats (updatedStats (Stats.mk (Some 2) (Some 1) (Some 0) (Some 3)) Losses (-1)).
Proof.
  assert (consistent_stats zero_stats) as H0
    by (exists 0, 0, 0; repeat split; lia).
  assert (consistent_stats (Stats.mk (Some 2) (Some 1) (Some 0) (Some 3))) as H1
    by (exists 2, 1, 0; repeat split; lia).
  split.
  - apply (proj2 (quick_adjust_keeps_invariant_unless_clamped zero_stats H0)).
    repeat constructor.
  - apply (proj1 (quick_adjust_keeps_invariant_unless_clamped _ H1)).
    + right. reflexivity.
    + right. right. reflexivity.
Defined.

(** ** The stored collection, further *)

Lemma has_id_cases {S} id d (st : S) :
  has_id id d st = (Ok (id_matches id d), st) ∧ nullish d = false
  ∨ has_id id d st = (Throw TypeError, st) ∧ nullish d = true.
Proof.
  destruct (nullish d) eqn:E.
  - right. split; [apply has_id_null; exact E | reflexivity].
  - left. split; [apply has_id_object; exact E | reflexivity].
Qed.

Lemma mapM_replace_state {S} id updatedDeck ds (st : S) :
  snd (mapM (fun d => let* b := has_id id d in ret (if b then updatedDeck else d)) ds st) = st.
Proof.
  induction ds as [|d ds IH]; [reflexivity|].
  simpl. unfold bind at 1. unfold bind at 1.
  destruct (has_id_cases id d st) as [[-> _]|[-> _]]; [|reflexivity].
  unfold ret at 1. unfold bind at 1.
  destruct (mapM _ ds st) as [[ys|e] st'] eqn:E; simpl in IH; subst st'; reflexivity.
Qed.

Lemma filterM_other_state {S} id ds (st : S) :
  snd (filterM (fun d => let* b := has_id id d in ret (negb b)) ds st) = st.
Proof.
  induction ds as [|d ds IH]; [reflexivity|].
  simpl. unfold bind at 1. unfold bind at 1.
  destruct (has_id_cases id d st) as [[-> _]|[-> _]]; [|reflexivity].
  unfold ret at 1. unfold bind at 1.
  destruct (filterM _ ds st) as [[ys|e] st'] eqn:E; simpl in IH; subst st'; reflexivity.
Qed.

Lemma findM_first {S} id ds (st : S) :
  Forall (fun d => nullish d = false) ds →
  findM (has_id id) ds st = (Ok (List.find (id_matches id) ds), st).
Proof.
  induction 1 as [|d ds Hd _ IH]; [reflexivity|].
  simpl. unfold bind at 1. rewrite has_id_object by assumption.
  destruct (id_matches id d); [reflexivity | exact IH].
Qed.

Lemma id_matches_truthy id d : id_matches id d = true → truthy d = true.
Proof.
  unfold id_matches. destruct d; simpl; try discriminate. reflexivity.
Qed.

Lemma saveDeck_outcome id updatedDeck (b : Browser) :
  saveDeck id updatedDeck b = (Ok false, b)
  ∨ (∃ e, saveDeck id updatedDeck b = (Throw e, b))
  ∨ (∃ text, saveDeck id updatedDeck b = (Ok true, setItem mtgDecks text b)).
Proof.
  destruct (saveDeck id updatedDeck b) as [r b'] eqn:H.
  unfold saveDeck, bind at 1, gets in H.
  destruct (localStorage b !! mtgDecks) as [text|]; [|left; symmetry; exact H].
  destruct (truthy_str text); [|left; symmetry; exact H].
  unfold JSON_parse_M in H.
  destruct (JSON_parse text) as [parsed|];
    [|right; left; eexists; symmetry; exact H].
  unfold bind at 1, ret at 1 in H. unfold bind at 1, as_array in H.
  destruct parsed; try (right; left; eexists; symmetry; exact H).
  unfold ret at 1 in H. unfold bind at 1 in H.
  pose proof (mapM_replace_state id updatedDeck vs b) as Hst.
  destruct (mapM _ vs b) as [[updated|e] b''] eqn:E; simpl in Hst; subst b''.
  - right. right. eexists. symmetry. exact H.
  - right. left. eexists. symmetry. exact H.
Qed.

(** X6.  [saveDeck] touches the stored collection and nothing else: the
    alerts, the console, the location, the clock and every other key of
    the storage are as before, and when it does not report that it saved
    the browser is as it was. *)
Theorem saveDeck_changes_only_the_collection id updatedDeck (b : Browser) :
  alerts (snd (saveDeck id updatedDeck b)) = alerts b
  ∧ console (snd (saveDeck id updatedDeck b)) = console b
  ∧ path (snd (saveDeck id updatedDeck b)) = path b
  ∧ clock (snd (saveDeck id updatedDeck b)) = clock b
  ∧ (∀ k, k ≠ mtgDecks →
       localStorage (snd (saveDeck id updatedDeck b)) !! k = localStorage b !! k)
  ∧ (fst (saveDeck id updatedDeck b) ≠ Ok true → snd (saveDeck id updatedDeck b) = b).
Proof.
  destruct (saveDeck_outcome id updatedDeck b) as [->|[[e ->]|[text ->]]];
    try (repeat split; reflexivity).
  simpl. repeat split.
  - intros k Hk. apply lookup_insert_ne. congruence.
  - intros H. congruence.
Qed.

Lemma saveDeck_changes_only_the_collection_witness :
  snd (saveDeck (u16 "99") VNull empty_browser) = empty_browser.
Proof.
  destruct (saveDeck_changes_only_the_collection (u16 "99") VNull empty_browser)
    as (_ & _ & _ & _ & _ & H).
  apply H. vm_compute. discriminate.
Defined.

Lemma saveDeck_stored (b : Browser) id updatedDeck text ds :
  localStorage b !! mtgDecks = Some text →
  JSON_parse text = Some (VArr ds) →
  Forall (fun d => nullish d = false) ds →
  saveDeck id updatedDeck b
  = (Ok true,
     setItem mtgDecks
       (JSON_stringify
          (VArr (List.map (fun d => if id_matches id d then updatedDeck else d) ds))) b).
Proof.
  intros Hget Hparse Hobj.
  unfold saveDeck, bind at 1, gets. rewrite Hget.
  rewrite (JSON_parse_nonempty _ _ Hparse).
  unfold JSON_parse_M. rewrite Hparse.
  unfold bind at 1, ret at 1. unfold bind at 1, as_array, ret at 1.
  unfold bind at 1. rewrite mapM_replace by assumption.
  reflexivity.
Qed.

Lemma saveDeck_nothing_stored (b : Browser) id updatedDeck :
  localStorage b !! mtgDecks = None ∨ localStorage b !! mtgDecks = Some [] →
  saveDeck id updatedDeck b = (Ok false, b).
Proof.
  intros [H|H]; unfold saveDeck, bind, gets; rewrite H; reflexivity.
Qed.

Lemma map_no_match id (updatedDeck : jsval) ds :
  Forall (fun d => id_matches id d = false) ds →
  List.map (fun d => if id_matches id d then updatedDeck else d) ds = ds.
Proof.
  induction 1 as [|d ds Hd _ IH]; [reflexivity|].
  simpl. rewrite Hd, IH. reflexivity.
Qed.

(** X7.  On the detail page an edit is kept only if a collection is
    stored: without the item, or with an empty one, the quick
    adjustment, the edit form and the notes field leave the page with
    the deck it had and the storage untouched.  And when a collection is
    stored that holds no deck of the page, the page shows the adjusted
    deck while the collection is written back as it was. *)
Theorem detail_edits_need_a_stored_collection
    id deck stat delta statsInput notes (b : Browser) :
  (localStorage b !! mtgDecks = None ∨ localStorage b !! mtgDecks = Some [] →
     handleQuickStatUpdate id deck stat delta b = (Ok deck, b)
     ∧ handleUpdateStats id deck statsInput notes b = (Ok (deck, false), b)
     ∧ handleNotesBlur id deck notes b = (Ok deck, b))
  ∧ (∀ text ds,
       localStorage b !! mtgDecks = Some text →
       JSON_parse text = Some (VArr ds) →
       Forall (fun d => nullish d = false) ds →
       Forall (fun d => id_matches id d = false) ds →
       handleQuickStatUpdate id deck stat delta b
       = (Ok (handleQuickStatUpdate_deck deck stat delta),
          setItem mtgDecks (JSON_stringify (VArr ds)) b)).
Proof.
  split.
  - intros H. unfold handleQuickStatUpdate, handleUpdateStats, handleNotesBlur.
    unfold bind. rewrite !saveDeck_nothing_stored by assumption.
    repeat split.
  - intros text ds Hget Hparse Hobj Hnone.
    unfold handleQuickStatUpdate, bind.
    rewrite (saveDeck_stored b id _ text ds Hget Hparse Hobj).
    rewrite (map_no_match id _ ds Hnone). reflexivity.
Qed.

Lemma detail_edits_need_a_stored_collection_witness :
  handleQuickStatUpdate (u16 "18") deck_18 Wins 1 empty_browser = (Ok deck_18, empty_browser)
  ∧ fst (handleQuickStatUpdate (u16 "99") deck_18 Wins 1 stored_two_decks)
    = Ok deck_18_won.
Proof.
  split.
  - apply (proj1 (detail_edits_need_a_stored_collection (u16 "18") deck_18 Wins 1
                    (StatsInput.mk 0 0 0) [] empty_browser)).
    left. reflexivity.
  - rewrite (proj2 (detail_edits_need_a_stored_collection (u16 "99") deck_18 Wins 1
                      (StatsInput.mk 0 0 0) [] stored_two_decks)
               (JSON_stringify (VArr two_decks)) two_decks
               eq_refl ltac:(vm_compute; reflexivity)
               ltac:(repeat constructor) ltac:(repeat constructor)).
    reflexivity.
Defined.

Lemma DeckDetail_load_stored id (b : Browser) text ds :
  localStorage b !! mtgDecks = Some text →
  JSON_parse text = Some (VArr ds) →
  Forall (fun d => nullish d = false) ds →
  DeckDetail_load id b = (Ok (List.find (id_matches id) ds), b).
Proof.
  intros Hget Hparse Hobj.
  unfold DeckDetail_load, bind at 1, gets. rewrite Hget.
  rewrite (JSON_parse_nonempty _ _ Hparse).
  unfold JSON_parse_M. rewrite Hparse.
  unfold bind at 1, ret at 1. unfold bind at 1, as_array, ret at 1.
  unfold bind at 1. rewrite findM_first by assumption.
  destruct (List.find (id_matches id) ds) as [d|] eqn:E; [|reflexivity].
  apply find_some in E as [_ E]. rewrite (id_matches_truthy id d E). reflexivity.
Qed.

(** X8.  With a stored collection of decks, the load effect of the
    detail page finds the first deck whose id is the one of the page,
    and none when no deck has it; it changes nothing. *)
Theorem DeckDetail_load_finds_the_first_deck_with_the_id
    id (b : Browser) text ds :
  localStorage b !! mtgDecks = Some text →
  JSON_parse text = Some (VArr ds) →
  Forall (fun d => nullish d = false) ds →
  DeckDetail_load id b = (Ok (List.find (id_matches id) ds), b)
  ∧ (Forall (fun d => id_matches id d = false) ds →
     DeckDetail_load id b = (Ok None, b))
  ∧ (∀ pre d post,
       ds = pre ++ d :: post →
       Forall (fun d' => id_matches id d' = false) pre →
       id_matches id d = true →
       DeckDetail_load id b = (Ok (Some d), b)).
Proof.
  intros Hget Hparse Hobj.
  pose proof (DeckDetail_load_stored id b text ds Hget Hparse Hobj) as Hload.
  split; [exact Hload|]. split.
  - intros Hnone. rewrite Hload. f_equal. f_equal.
    clear - Hnone. induction Hnone as [|d ds Hd _ IH]; [reflexivity|].
    simpl. rewrite Hd. exact IH.
  - intros pre d post -> Hpre Hd. rewrite Hload. f_equal. f_equal.
    clear - Hpre Hd. induction Hpre as [|d' pre Hd' _ IH]; simpl.
    + rewrite Hd. reflexivity.
    + rewrite Hd'. exact IH.
Qed.

Lemma DeckDetail_load_finds_the_first_deck_with_the_id_witness :
  DeckDetail_load (u16 "18") stored_two_decks
  = (Ok (Some (Deck_to_jsval deck_18)), stored_two_decks).
Proof.
  exact (proj1 (DeckDetail_load_finds_the_first_deck_with_the_id
                  (u16 "18") stored_two_decks (JSON_stringify (VArr two_decks)) two_decks
                  eq_refl ltac:(vm_compute; reflexivity) ltac:(repeat constructor))).
Defined.

(** ** Deletion, further *)

Lemma handleDeleteDeck_confirmed {World : Type} (p : Page (World := World)) deckId ds :
  decks (state p) = VArr ds →
  Forall (fun d => nullish d = false) ds →
  handleDeleteDeck true deckId p = (Ok tt, page_keeping (without_id deckId ds) p).
Proof.
  intros Hdecks Hobj.
  unfold handleDeleteDeck, bind at 1, gets. rewrite Hdecks.
  unfold bind at 1, as_array, ret at 1.
  unfold bind at 1. rewrite filterM_other by assumption.
  reflexivity.
Qed.

Lemma filterM_other_throws {S} id ds (st : S) e st' :
  filterM (fun d => let* b := has_id id d in ret (negb b)) ds st = (Throw e, st') →
  e = TypeError.
Proof.
  induction ds as [|d ds IH]; [discriminate|].
  simpl. unfold bind at 1. unfold bind at 1.
  destruct (has_id_cases id d st) as [[-> _]|[-> _]].
  - unfold ret at 1. unfold bind at 1.
    destruct (filterM _ ds st) as [[ys|e''] st''] eqn:E'; [discriminate|].
    intros [= <- <-]. apply IH. reflexivity.
  - intros [= <-]. reflexivity.
Qed.

(** X9.  A deletion that throws has changed nothing, and what it throws
    is a [TypeError] (the collection of the page is not an array, or one
    of its elements is [null]). *)
Theorem handleDeleteDeck_that_throws_changes_nothing
    {World : Type} (p : Page (World := World)) answer deckId e :
  fst (handleDeleteDeck answer deckId p) = Throw e →
  e = TypeError ∧ snd (handleDeleteDeck answer deckId p) = p.
Proof.
  destruct (handleDeleteDeck answer deckId p) as [r p'] eqn:H.
  simpl. intros ->.
  unfold handleDeleteDeck in H. destruct answer; [|discriminate].
  unfold bind at 1, gets in H. unfold bind at 1, as_array in H.
  destruct (decks (state p)); try (injection H as <- <-; split; reflexivity).
  unfold ret at 1 in H. unfold bind at 1 in H.
  pose proof (filterM_other_state deckId vs p) as Hst.
  destruct (filterM _ vs p) as [[kept|e'] p''] eqn:E; simpl in Hst; subst p''.
  - discriminate.
  - injection H as <- <-. split; [|reflexivity].
    exact (filterM_other_throws deckId vs p e' p E).
Qed.

Lemma handleDeleteDeck_that_throws_changes_nothing_witness :
  handleDeleteDeck true (u16 "17")
    (page_with (u16 "[null]") (mkState (VArr [VNull]) false [] [] [] false))
  = (Throw TypeError,
     page_with (u16 "[null]") (mkState (VArr [VNull]) false [] [] [] false)).
Proof.
  destruct (handleDeleteDeck_that_throws_changes_nothing
              (page_with (u16 "[null]") (mkState (VArr [VNull]) false [] [] [] false))
              true (u16 "17") TypeError eq_refl) as [_ H].
  reflexivity.
Defined.

Lemma without_id_twice deckId ds :
  without_id deckId (without_id deckId ds) = without_id deckId ds.
Proof.
  unfold without_id. induction ds as [|d ds IH]; [reflexivity|].
  simpl. destruct (negb (id_matches deckId d)) eqn:E; simpl; rewrite ?E, IH; reflexivity.
Qed.

Lemma without_id_comm a b ds :
  without_id a (without_id b ds) = without_id b (without_id a ds).
Proof.
  unfold without_id. induction ds as [|d ds IH]; [reflexivity|].
  simpl. destruct (negb (id_matches a d)) eqn:Ea, (negb (id_matches b d)) eqn:Eb;
    simpl; rewrite ?Ea, ?Eb, IH; reflexivity.
Qed.

Lemma without_id_objects deckId ds :
  Forall (fun d => nullish d = false) ds →
  Forall (fun d => nullish d = false) (without_id deckId ds).
Proof.
  unfold without_id. induction 1 as [|d ds Hd _ IH]; simpl; [constructor|].
  destruct (negb (id_matches deckId d)); [constructor; assumption | exact IH].
Qed.

(** X10.  On a collection of decks, deleting a deck a second time
    changes nothing, two deletions give the same page in either order,
    and what they leave are the decks with neither id, in their order. *)
Theorem handleDeleteDeck_is_idempotent_and_commutes
    {World : Type} (p : Page (World := World)) (a b : jsstring) ds :
  decks (state p) = VArr ds →
  Forall (fun d => nullish d = false) ds →
  let after x q := snd (handleDeleteDeck true x q) in
  handleDeleteDeck true a (after a p) = (Ok tt, after a p)
  ∧ after a (after b p) = after b (after a p)
  ∧ decks (state (after a (after b p)))
    = VArr (List.filter (fun d => negb (id_matches a d) && negb (id_matches b d)) ds).
Proof.
  intros Hdecks Hobj after.
  assert (∀ x, after x p = page_keeping (without_id x ds) p) as Hafter.
  { intros x. unfold after. rewrite (handleDeleteDeck_confirmed p x ds Hdecks Hobj).
    reflexivity. }
  assert (∀ x y, after x (after y p)
                 = page_keeping (without_id x (without_id y ds)) p) as Htwo.
  { intros x y. rewrite (Hafter y). unfold after.
    rewrite (handleDeleteDeck_confirmed (page_keeping (without_id y ds) p) x
               (without_id y ds) eq_refl (without_id_objects y ds Hobj)).
    unfold page_keeping, setItem. simpl. rewrite insert_insert_eq. reflexivity. }
  split; [|split].
  - rewrite (Hafter a).
    rewrite (handleDeleteDeck_confirmed (page_keeping (without_id a ds) p) a
               (without_id a ds) eq_refl (without_id_objects a ds Hobj)).
    f_equal. rewrite without_id_twice.
    unfold page_keeping, setItem. simpl. rewrite insert_insert_eq. reflexivity.
  - rewrite !Htwo, without_id_comm. reflexivity.
  - rewrite Htwo. simpl. f_equal. unfold without_id.
    clear. induction ds as [|d ds IH]; [reflexivity|].
    simpl. destruct (negb (id_matches b d)) eqn:Eb; simpl;
      destruct (negb (id_matches a d)) eqn:Ea; simpl; rewrite IH; reflexivity.
Qed.

Lemma handleDeleteDeck_is_idempotent_and_commutes_witness :
  decks (state (snd (handleDeleteDeck true (u16 "17")
                       (snd (handleDeleteDeck true (u16 "18")
                               (page_with (JSON_stringify (VArr two_decks))
                                  (mkState (VArr two_decks) false [] [] [] false)))))))
  = VArr [].
Proof.
  rewrite (proj2 (proj2 (handleDeleteDeck_is_idempotent_and_commutes
             (page_with (JSON_stringify (VArr two_decks))
                (mkState (VArr two_decks) false [] [] [] false))
             (u16 "17") (u16 "18") two_decks eq_refl ltac:(repeat constructor)))).
  reflexivity.
Defined.

(** ** The lookups of an import *)

Section LookupOutcome.

Context {World : Type}.
Variable toISOString : Z → jsstring.
Variable P : jsstring → jsval → Prop.
Variable lookup : jsstring → M (Page (World := World)) jsval.
Hypothesis lookup_ok : lookup_returns P lookup.

Lemma import_loop_returns commanderToFind cards decklist commanderData
    (p : Page (World := World)) :
  ∃ datas c w,
    Forall2 (fun card v => P (ParsedLine.name card) v) cards datas
    ∧ import_loop lookup commanderToFind cards decklist commanderData p
      = (Ok (decklist ++ zip_with card_entry cards datas,
             capture commanderToFind cards datas commanderData),
         page_after_loop (length cards) c w p).
Proof.
  revert decklist commanderData p.
  induction cards as [|card cards IH]; intros decklist commanderData p.
  - exists [], (console (browser p)), (world p). split; [constructor|].
    simpl. unfold ret. rewrite app_nil_r. f_equal.
    destruct p as [[ls al co pa cl] w st]. unfold page_after_loop. simpl.
    do 2 f_equal. lia.
  - destruct (lookup_ok (ParsedLine.name card) p) as (v & c1 & w1 & Hv & Hl).
    simpl. unfold bind at 1. rewrite Hl.
    unfold bind at 1. unfold sleep at 1, on_browser at 1, modify at 1.
    set (cd1 := if _ && _ then v else commanderData).
    set (p1 := mkPage _ _ _).
    destruct (IH (decklist ++ [card_entry card v]) cd1 p1)
      as (datas & c & w & Hdatas & Hloop).
    exists (v :: datas), c, w. split; [constructor; assumption|].
    rewrite Hloop. simpl. rewrite <- app_assoc. simpl. f_equal.
    unfold page_after_loop, p1, set_console_world, tick. simpl.
    do 2 f_equal. lia.
Qed.

Lemma handleImport_with_returns (p : Page (World := World)) old first others :
  truthy_str (trim (decklistText (state p))) = true →
  truthy_str (trim (deckName (state p))) = true →
  parseDecklist (decklistText (state p)) = first :: others →
  decks (state p) = VArr old →
  ∃ datas commanderData c w,
    Forall2 (fun card v => P (ParsedLine.name card) v) (first :: others) datas
    ∧ (let captured :=
         capture (commander_target (state p) first) (first :: others) datas VNull in
       if truthy_str (trim (commanderName (state p))) && negb (truthy captured)
       then P (trim (commanderName (state p))) commanderData
       else commanderData = captured)
    ∧ handleImport_with toISOString lookup p
      = (Ok tt,
         page_after_import (length (first :: others)) old
           (newDeck_of toISOString
              (clock (browser p) + 100 * Z.of_nat (length (first :: others)))
              (deckName (state p)) (commanderName (state p)) first
              (zip_with card_entry (first :: others) datas) commanderData)
           c w p).
Proof.
  intros Htext Hname Hparsed Hdecks.
  rewrite (handleImport_with_valid toISOString lookup p Htext Hname).
  unfold try_finally, try_catch, import_try. rewrite Hparsed.
  fold (commander_target (state p) first).
  unfold bind at 1.
  destruct (import_loop_returns (commander_target (state p) first) (first :: others)
              [] VNull (snd (setImporting true p)))
    as (datas & c1 & w1 & Hdatas & ->).
  set (captured := capture _ _ datas VNull).
  unfold bind at 1.
  destruct (truthy_str (trim (commanderName (state p))) && negb (truthy captured)) eqn:Hextra.
  - destruct (lookup_ok (trim (commanderName (state p)))
                (page_after_loop (length (first :: others)) c1 w1 (snd (setImporting true p))))
      as (v & c2 & w2 & Hv & ->).
    exists datas, v, c2, w2. split; [exact Hdatas|]. split.
    { cbv zeta. fold captured. rewrite Hextra. exact Hv. }
    unfold bind at 1, gets. unfold bind at 1. rewrite Hdecks. simpl.
    reflexivity.
  - exists datas, captured, c1, w1. split; [exact Hdatas|]. split.
    { cbv zeta. fold captured. rewrite Hextra. reflexivity. }
    unfold ret at 1. unfold bind at 1, gets. unfold bind at 1. rewrite Hdecks. simpl.
    reflexivity.
Qed.

End LookupOutcome.

Lemma fetchScryfallCard_outcome {World : Type}
    (fetch : request → World → option Response * World) cardName
    (p : Page (World := World)) :
  ∃ v c w,
    fetchScryfallCard fetch cardName p = (Ok v, set_console_world c w p)
    ∧ (c = console (browser p)
       ∨ (v = VNull ∧ c = console (browser p) ++ [u16 "Error fetching Scryfall card:"])).
Proof.
  destruct p as [[ls al co pa cl] w0 st].
  unfold fetchScryfallCard, try_catch, bind at 1, await_fetch. simpl.
  destruct (fetch (CardsNamedExact cardName) w0) as [[[ok1 body1]|] w1]; simpl.
  2:{ eexists _, _, _. split; [reflexivity|]. right. split; reflexivity. }
  destruct ok1; simpl.
  { unfold response_json. simpl.
    destruct body1; simpl; eexists _, _, _; (split; [reflexivity|]);
      [left; reflexivity | right; split; reflexivity]. }
  unfold bind at 1. simpl.
  destruct (fetch (CardsSearch cardName) w1) as [[[ok2 body2]|] w2]; simpl.
  2:{ eexists _, _, _. split; [reflexivity|]. right. split; reflexivity. }
  destruct ok2; simpl.
  2:{ eexists _, _, _. split; [reflexivity|]. left. reflexivity. }
  unfold bind at 1, response_json. simpl.
  destruct body2 as [searchData|]; simpl.
  2:{ eexists _, _, _. split; [reflexivity|]. right. split; reflexivity. }
  unfold bind at 1, get_prop.
  destruct (nullish searchData); simpl.
  { eexists _, _, _. split; [reflexivity|]. right. split; reflexivity. }
  destruct (truthy _ && js_gt0 _); simpl; eexists _, _, _;
    (split; [reflexivity|]); left; reflexivity.
Qed.

Lemma fetchScryfallCard_exact {World : Type}
    (fetch : request → World → option Response * World) cardName
    (p : Page (World := World)) v w1 :
  fetch (CardsNamedExact cardName) (world p) = (Some (mkResponse true (Some v)), w1) →
  fetchScryfallCard fetch cardName p
  = (Ok v, set_console_world (console (browser p)) w1 p).
Proof.
  intros H. destruct p as [[ls al co pa cl] w0 st]. simpl in H.
  unfold fetchScryfallCard, try_catch, bind at 1, await_fetch. simpl.
  rewrite H. reflexivity.
Qed.

Lemma fetchScryfallCard_unavailable {World : Type}
    (fetch : request → World → option Response * World) cardName
    (p : Page (World := World)) :
  unavailable fetch →
  ∃ c w, fetchScryfallCard fetch cardName p = (Ok VNull, set_console_world c w p).
Proof.
  intros Hdown. destruct p as [[ls al co pa cl] w0 st].
  unfold fetchScryfallCard, try_catch, bind at 1, await_fetch. simpl.
  pose proof (Hdown (CardsNamedExact cardName) w0) as H1.
  destruct (fetch (CardsNamedExact cardName) w0) as [[[ok1 body1]|] w1]; simpl in *.
  2:{ eexists _, _. reflexivity. }
  subst ok1. simpl. unfold bind at 1. simpl.
  pose proof (Hdown (CardsSearch cardName) w1) as H2.
  destruct (fetch (CardsSearch cardName) w1) as [[[ok2 body2]|] w2]; simpl in *.
  2:{ eexists _, _. reflexivity. }
  subst ok2. simpl. eexists _, _. reflexivity.
Qed.

(** X11.  [fetchScryfallCard] never throws.  It changes neither the
    state of the page nor the storage, the alerts or the location; on
    the console it writes nothing, or one line, and then it returns
    [null].  (How long the requests take is not said: the time of the
    network is not in the model.) *)
Theorem fetchScryfallCard_never_throws_and_only_logs {World : Type}
    (fetch : request → World → option Response * World) cardName
    (p : Page (World := World)) :
  ∃ v p',
    fetchScryfallCard fetch cardName p = (Ok v, p')
    ∧ state p' = state p
    ∧ localStorage (browser p') = localStorage (browser p)
    ∧ alerts (browser p') = alerts (browser p)
    ∧ path (browser p') = path (browser p)
    ∧ (console (browser p') = console (browser p)
       ∨ (v = VNull
          ∧ console (browser p')
            = console (browser p) ++ [u16 "Error fetching Scryfall card:"])).
Proof.
  destruct (fetchScryfallCard_outcome fetch cardName p) as (v & c & w & -> & Hc).
  exists v, (set_console_world c w p). simpl. repeat split; try reflexivity.
  exact Hc.
Qed.

(** X12.  What [fetchScryfallCard] returns, when it is not [null], is
    what the card service sent: the body of the answer to the exact
    query when that answer is ok, and otherwise - the exact query was
    answered, not ok - the first of the data of an ok answer to the
    search.  Nothing is written on the console then. *)
Theorem fetchScryfallCard_answers_come_from_the_service {World : Type}
    (fetch : request → World → option Response * World) cardName
    (p p' : Page (World := World)) v :
  fetchScryfallCard fetch cardName p = (Ok v, p') →
  v ≠ VNull →
  console (browser p') = console (browser p)
  ∧ ((∃ r, fetch (CardsNamedExact cardName) (world p) = (Some r, world p')
           ∧ ok r = true ∧ body r = Some v)
     ∨ (∃ r1 w1 r2 searchData,
          fetch (CardsNamedExact cardName) (world p) = (Some r1, w1)
          ∧ ok r1 = false
          ∧ fetch (CardsSearch cardName) w1 = (Some r2, world p')
          ∧ ok r2 = true ∧ body r2 = Some searchData
          ∧ v = opt_get0 (opt_get searchData (u16 "data")))).
Proof.
  destruct p as [[ls al co pa cl] w0 st].
  unfold fetchScryfallCard, try_catch, bind at 1, await_fetch. simpl.
  destruct (fetch (CardsNamedExact cardName) w0) as [[[ok1 body1]|] w1] eqn:H1; simpl.
  2:{ intros [= <- <-] Hv. congruence. }
  destruct ok1; simpl.
  { unfold response_json. simpl. destruct body1 as [b|]; simpl.
    - intros [= <- <-] Hv. simpl. split; [reflexivity|]. left.
      eexists. split; [reflexivity|]. split; reflexivity.
    - intros [= <- <-] Hv. congruence. }
  unfold bind at 1. simpl.
  destruct (fetch (CardsSearch cardName) w1) as [[[ok2 body2]|] w2] eqn:H2; simpl.
  2:{ intros [= <- <-] Hv. congruence. }
  destruct ok2; simpl.
  2:{ intros [= <- <-] Hv. congruence. }
  unfold bind at 1, response_json. simpl.
  destruct body2 as [searchData|]; simpl.
  2:{ intros [= <- <-] Hv. congruence. }
  unfold bind at 1, get_prop.
  destruct (nullish searchData); simpl.
  { intros [= <- <-] Hv. congruence. }
  destruct (truthy _ && js_gt0 _); simpl.
  - intros [= <- <-] Hv. simpl. split; [reflexivity|]. right.
    eexists _, _, _, _. split; [reflexivity|]. split; [reflexivity|].
    split; [exact H2|]. split; [reflexivity|]. split; reflexivity.
  - intros [= <- <-] Hv. congruence.
Qed.

Lemma fetchScryfallCard_answers_come_from_the_service_witness :
  console (browser (snd (fetchScryfallCard sample_fetch (u16 "Sol Ring") import_page)))
  = console (browser import_page)
  ∧ ((∃ r, sample_fetch (CardsNamedExact (u16 "Sol Ring")) (world import_page)
           = (Some r, world (snd (fetchScryfallCard sample_fetch (u16 "Sol Ring") import_page)))
           ∧ ok r = true ∧ body r = Some sol_ring_data)
     ∨ (∃ r1 w1 r2 searchData,
          sample_fetch (CardsNamedExact (u16 "Sol Ring")) (world import_page) = (Some r1, w1)
          ∧ ok r1 = false
          ∧ sample_fetch (CardsSearch (u16 "Sol Ring")) w1
            = (Some r2, world (snd (fetchScryfallCard sample_fetch (u16 "Sol Ring") import_page)))
          ∧ ok r2 = true ∧ body r2 = Some searchData
          ∧ sol_ring_data = opt_get0 (opt_get searchData (u16 "data")))).
Proof.
  apply (fetchScryfallCard_answers_come_from_the_service sample_fetch (u16 "Sol Ring")
           import_page _ sol_ring_data).
  - vm_compute. reflexivity.
  - discriminate.
Defined.

(** X13.  [handleImport] asks no card of a form it rejects, whatever the
    lookup is: with a blank decklist, with a blank deck name, and with a
    text in which no line is a card, it shows the one alert of the case
    and leaves the collection, the storage and the network alone. *)
Theorem handleImport_asks_nothing_of_a_form_it_rejects {World : Type}
    (toISOString : Z → jsstring) (lookup : jsstring → M (Page (World := World)) jsval)
    (p : Page (World := World)) :
  (truthy_str (trim (decklistText (state p))) = false →
   handleImport_with toISOString lookup p
   = (Ok tt, mkPage (add_alert (u16 "Please paste a decklist") (browser p))
                    (world p) (state p)))
  ∧ (truthy_str (trim (decklistText (state p))) = true →
     truthy_str (trim (deckName (state p))) = false →
     handleImport_with toISOString lookup p
     = (Ok tt, mkPage (add_alert (u16 "Please enter a deck name") (browser p))
                      (world p) (state p)))
  ∧ (truthy_str (trim (decklistText (state p))) = true →
     truthy_str (trim (deckName (state p))) = true →
     parseDecklist (decklistText (state p)) = [] →
     handleImport_with toISOString lookup p
     = (Ok tt, mkPage (add_alert no_cards_message (browser p)) (world p)
                      (mkState (decks (state p)) (showImportModal (state p))
                               (decklistText (state p)) (deckName (state p))
                               (commanderName (state p)) false))).
Proof.
  split; [|split].
  - intros Htext. unfold handleImport_with, bind at 1, gets. rewrite Htext. reflexivity.
  - intros Htext Hname. unfold handleImport_with, bind at 1, gets.
    rewrite Htext, Hname. reflexivity.
  - intros Htext Hname Hparsed.
    rewrite (handleImport_with_valid toISOString lookup p Htext Hname).
    unfold try_finally, try_catch, import_try. rewrite Hparsed. reflexivity.
Qed.

Lemma handleImport_asks_nothing_of_a_form_it_rejects_witness :
  handleImport_with fixed_date failing_lookup comment_page
  = (Ok tt, mkPage (add_alert no_cards_message (browser comment_page)) (world comment_page)
                   (mkState (decks (state comment_page)) (showImportModal (state comment_page))
                            (decklistText (state comment_page)) (deckName (state comment_page))
                            (commanderName (state comment_page)) false)).
Proof.
  apply (handleImport_asks_nothing_of_a_form_it_rejects fixed_date failing_lookup comment_page);
    vm_compute; reflexivity.
Defined.

Lemma Forall2_same_length {A B} (R : A → B → Prop) l k :
  Forall2 R l k → length l = length k.
Proof. induction 1; simpl; congruence. Qed.

Lemma page_after_import_imported {World : Type} (toISOString : Z → jsstring)
    n old deckName commanderName first decklist commanderData c (w : World)
    (p : Page (World := World)) :
  imported n old
    (newDeck_of toISOString (clock (browser p) + 100 * Z.of_nat n)
       deckName commanderName first decklist commanderData)
    p
    (page_after_import n old
       (newDeck_of toISOString (clock (browser p) + 100 * Z.of_nat n)
          deckName commanderName first decklist commanderData)
       c w p).
Proof.
  unfold imported, page_after_import. simpl.
  split; [reflexivity|]. split; [reflexivity|]. split; [reflexivity|].
  split; [|lia]. eexists. split; reflexivity.
Qed.

Lemma capture_truthy commanderToFind cards datas commanderData :
  truthy commanderData = true →
  capture commanderToFind cards datas commanderData = commanderData.
Proof.
  revert datas. induction cards as [|card cards IH]; intros [|data datas] H;
    simpl; try reflexivity.
  rewrite H, andb_false_r. apply IH, H.
Qed.

Lemma capture_no_match commanderToFind cards datas commanderData :
  Forall (fun card => str_eqb (toLowerCase (ParsedLine.name card))
                              (toLowerCase commanderToFind) = false) cards →
  capture commanderToFind cards datas commanderData = commanderData.
Proof.
  intros H. revert datas. induction H as [|card cards Hc _ IH]; intros [|data datas];
    simpl; try reflexivity.
  rewrite Hc. simpl. apply IH.
Qed.

Lemma capture_null commanderToFind cards datas :
  Forall2 (fun (card : ParsedLine.t) v => v = VNull) cards datas →
  capture commanderToFind cards datas VNull = VNull.
Proof.
  induction 1 as [|card data cards datas -> _ IH]; simpl; [reflexivity|].
  destruct (_ && _); exact IH.
Qed.

Lemma zip_with_bare cards datas :
  Forall2 (fun (card : ParsedLine.t) v => v = VNull) cards datas →
  zip_with card_entry cards datas = map bare_entry cards.
Proof.
  induction 1 as [|card data cards datas -> _ IH]; simpl; [reflexivity|].
  rewrite IH. reflexivity.
Qed.

(** X14.  Whatever the card service answers, the import of a filled
    form whose text holds a card succeeds: the new deck is appended to
    the collection in the state and in the storage, no alert is shown,
    the form is closed and cleared, the page goes to the new deck, and
    one pacing delay was taken for each card.  The deck has one entry
    for each parsed card, in the order of the text, the trimmed name of
    the form, statistics that are all zero and no notes. *)
Theorem handleImport_of_a_valid_form_succeeds {World : Type}
    (fetch : request → World → option Response * World) (toISOString : Z → jsstring)
    (p : Page (World := World)) old first others :
  truthy_str (trim (decklistText (state p))) = true →
  truthy_str (trim (deckName (state p))) = true →
  parseDecklist (decklistText (state p)) = first :: others →
  decks (state p) = VArr old →
  ∃ newDeck datas p',
    handleImport fetch toISOString p = (Ok tt, p')
    ∧ imported (length (first :: others)) old newDeck p p'
    ∧ length datas = length (first :: others)
    ∧ opt_get newDeck (u16 "decklist") = VArr (zip_with card_entry (first :: others) datas)
    ∧ opt_get newDeck (u16 "name") = VStr (trim (deckName (state p)))
    ∧ opt_get newDeck (u16 "stats")
      = VObj [ (u16 "wins", VInt 0); (u16 "losses", VInt 0);
               (u16 "mulligans", VInt 0); (u16 "totalGames", VInt 0) ]
    ∧ opt_get newDeck (u16 "notes") = VStr [].
Proof.
  intros Htext Hname Hparsed Hdecks.
  destruct (handleImport_with_returns toISOString (fun _ _ => True)
              (fetchScryfallCard fetch)) with (p := p) (old := old)
              (first := first) (others := others)
    as (datas & cd & c & w & Hdatas & _ & Heq); try assumption.
  { intros name q.
    destruct (fetchScryfallCard_outcome fetch name q) as (v & c & w & Hq & _).
    exists v, c, w. split; [exact I|exact Hq]. }
  eexists _, datas, _. split; [exact Heq|].
  split; [apply page_after_import_imported|].
  split; [symmetry; exact (Forall2_same_length _ _ _ Hdatas)|].
  repeat split; reflexivity.
Qed.

Lemma handleImport_of_a_valid_form_succeeds_witness :
  ∃ newDeck datas p',
    handleImport sample_fetch fixed_date import_page = (Ok tt, p')
    ∧ imported 2 two_decks newDeck import_page p'
    ∧ length datas = 2%nat
    ∧ opt_get newDeck (u16 "decklist")
      = VArr (zip_with card_entry
                [ParsedLine.mk (u16 "Sol Ring") 1; ParsedLine.mk (u16 "Arcane Signet") 1]
                datas)
    ∧ opt_get newDeck (u16 "name") = VStr (u16 "Artifacts")
    ∧ opt_get newDeck (u16 "stats")
      = VObj [ (u16 "wins", VInt 0); (u16 "losses", VInt 0);
               (u16 "mulligans", VInt 0); (u16 "totalGames", VInt 0) ]
    ∧ opt_get newDeck (u16 "notes") = VStr [].
Proof.
  apply (handleImport_of_a_valid_form_succeeds sample_fetch fixed_date import_page
           two_decks (ParsedLine.mk (u16 "Sol Ring") 1)
           [ParsedLine.mk (u16 "Arcane Signet") 1]);
    vm_compute; reflexivity.
Defined.

(** X15.  When the card service cannot be reached or knows no card, the
    import still succeeds: every entry holds the name and the quantity
    of its line and no image, cost, type or rarity, and the commander is
    the name that was typed, without an image, or [null] when none
    was. *)
Theorem handleImport_without_the_card_service {World : Type}
    (fetch : request → World → option Response * World) (toISOString : Z → jsstring)
    (p : Page (World := World)) old first others :
  unavailable fetch →
  truthy_str (trim (decklistText (state p))) = true →
  truthy_str (trim (deckName (state p))) = true →
  parseDecklist (decklistText (state p)) = first :: others →
  decks (state p) = VArr old →
  ∃ newDeck p',
    handleImport fetch toISOString p = (Ok tt, p')
    ∧ imported (length (first :: others)) old newDeck p p'
    ∧ opt_get newDeck (u16 "decklist") = VArr (map bare_entry (first :: others))
    ∧ opt_get newDeck (u16 "commander")
      = (if truthy_str (trim (commanderName (state p)))
         then VObj [ (u16 "name", VStr (trim (commanderName (state p))));
                     (u16 "imageUrl", VNull) ]
         else VNull).
Proof.
  intros Hdown Htext Hname Hparsed Hdecks.
  destruct (handleImport_with_returns toISOString (fun _ v => v = VNull)
              (fetchScryfallCard fetch)) with (p := p) (old := old)
              (first := first) (others := others)
    as (datas & cd & c & w & Hdatas & Hcd & Heq); try assumption.
  { intros name q.
    destruct (fetchScryfallCard_unavailable fetch name q Hdown) as (c & w & Hq).
    exists VNull, c, w. split; [reflexivity|exact Hq]. }
  eexists _, _. split; [exact Heq|].
  split; [apply page_after_import_imported|].
  assert (cd = VNull) as ->.
  { cbv zeta in Hcd. rewrite (capture_null _ _ _ Hdatas) in Hcd.
    destruct (_ && _); exact Hcd. }
  rewrite (zip_with_bare _ _ Hdatas). split; reflexivity.
Qed.

Lemma handleImport_without_the_card_service_witness :
  ∃ newDeck p',
    handleImport no_service fixed_date commander_page = (Ok tt, p')
    ∧ imported 1 [] newDeck commander_page p'
    ∧ opt_get newDeck (u16 "decklist")
      = VArr [bare_entry (ParsedLine.mk (u16 "Arcane Signet") 1)]
    ∧ opt_get newDeck (u16 "commander")
      = VObj [ (u16 "name", VStr (u16 "Sol Ring")); (u16 "imageUrl", VNull) ].
Proof.
  apply (handleImport_without_the_card_service no_service fixed_date commander_page
           [] (ParsedLine.mk (u16 "Arcane Signet") 1) []).
  - intros rq w. exact I.
  - vm_compute. reflexivity.
  - vm_compute. reflexivity.
  - vm_compute. reflexivity.
  - reflexivity.
Defined.

(** X16.  The commander of an imported deck, for names of the Latin-1
    block (on which the comparison without case of the model is the one
    of the language, and which can all be put in a request): when no
    commander is typed it is the first card of the text, and when one is
    typed that is not a card of the text (compared without case) it is
    looked up on its own; if the service knows the card, the deck holds
    that name with the image of the card. *)
Theorem handleImport_names_the_commander {World : Type}
    (fetch : request → World → option Response * World) (toISOString : Z → jsstring)
    (p : Page (World := World)) old first others v :
  truthy_str (trim (decklistText (state p))) = true →
  truthy_str (trim (deckName (state p))) = true →
  parseDecklist (decklistText (state p)) = first :: others →
  decks (state p) = VArr old →
  latin1 (commanderName (state p)) = true →
  forallb (fun card => latin1 (ParsedLine.name card)) (first :: others) = true →
  (∀ w, ∃ w', fetch (CardsNamedExact (commander_target (state p) first)) w
              = (Some (mkResponse true (Some v)), w')) →
  truthy v = true →
  (truthy_str (trim (commanderName (state p))) = true →
   Forall (fun card => str_eqb (toLowerCase (ParsedLine.name card))
                               (toLowerCase (trim (commanderName (state p)))) = false)
          (first :: others)) →
  ∃ newDeck p',
    handleImport fetch toISOString p = (Ok tt, p')
    ∧ imported (length (first :: others)) old newDeck p p'
    ∧ opt_get newDeck (u16 "commander")
      = VObj [ (u16 "name", VStr (commander_target (state p) first));
               (u16 "imageUrl", image_of v) ].
Proof.
  intros Htext Hname Hparsed Hdecks _ _ Hknown Hv Hother.
  destruct (handleImport_with_returns toISOString
              (fun name d => name = commander_target (state p) first → d = v)
              (fetchScryfallCard fetch)) with (p := p) (old := old)
              (first := first) (others := others)
    as (datas & cd & c & w & Hdatas & Hcd & Heq); try assumption.
  { intros name q.
    destruct (decide (name = commander_target (state p) first)) as [->|Hne].
    - destruct (Hknown (world q)) as [w' Hw].
      exists v, (console (browser q)), w'. split; [reflexivity|].
      apply fetchScryfallCard_exact, Hw.
    - destruct (fetchScryfallCard_outcome fetch name q) as (d & c & w & Hq & _).
      exists d, c, w. split; [tauto|exact Hq]. }
  eexists _, _. split; [exact Heq|].
  split; [apply page_after_import_imported|].
  assert (cd = v) as ->.
  { cbv zeta in Hcd. unfold commander_target in *.
    destruct (truthy_str (trim (commanderName (state p)))) eqn:Hcn.
    - rewrite (capture_no_match _ _ _ _ (Hother eq_refl)) in Hcd. simpl in Hcd.
      apply Hcd. reflexivity.
    - simpl in Hcd. subst cd.
      inversion Hdatas as [|card d cards ds Hd _]; subst. simpl.
      rewrite str_eqb_refl. simpl. rewrite (Hd eq_refl).
      apply capture_truthy, Hv. }
  unfold newDeck_of, commander_target. rewrite Hv.
  destruct (truthy_str (trim (commanderName (state p)))); reflexivity.
Qed.

Lemma handleImport_names_the_commander_witness :
  ∃ newDeck p',
    handleImport sample_fetch fixed_date commander_page = (Ok tt, p')
    ∧ imported 1 [] newDeck commander_page p'
    ∧ opt_get newDeck (u16 "commander")
      = VObj [ (u16 "name", VStr (u16 "Sol Ring"));
               (u16 "imageUrl", image_of sol_ring_data) ].
Proof.
  apply (handleImport_names_the_commander sample_fetch fixed_date commander_page
           [] (ParsedLine.mk (u16 "Arcane Signet") 1) [] sol_ring_data).
  - vm_compute. reflexivity.
  - vm_compute. reflexivity.
  - vm_compute. reflexivity.
  - reflexivity.
  - reflexivity.
  - reflexivity.
  - intros w. exists tt. vm_compute. reflexivity.
  - reflexivity.
  - intros _. constructor; [vm_compute; reflexivity | constructor].
Defined.

(** ** Sorting, further *)

Lemma getSortedDecklist_result localeCompare sortBy d cards (h : heap) :
  h !! d = Some cards →
  let '(sorted, h') := getSortedDecklist localeCompare sortBy (Some d) h in
  h' !! sorted
  = Some (match comparator localeCompare sortBy with
          | Some cmp => array_sort cmp cards
          | None => cards
          end).
Proof.
  intros Hd. unfold getSortedDecklist, comparator, array_new, array_sort_at.
  rewrite Hd. simpl.
  repeat (destruct (str_eqb sortBy _));
    rewrite ?lookup_alter_eq, lookup_insert_eq; reflexivity.
Qed.




(** X17.  Whatever the sort key and the collation, [getSortedDecklist]
    returns the cards of the decklist, each as often as it is there; for
    a key that is none of [name], [mana] and [type] it returns them in
    the order of the decklist. *)
Theorem getSortedDecklist_returns_the_same_cards
    (localeCompare : jsstring → jsstring → Z) sortBy d cards (h : heap) :
  h !! d = Some cards →
  let '(sorted, h') := getSortedDecklist localeCompare sortBy (Some d) h in
  ∃ result,
    h' !! sorted = Some result
    ∧ result ≡ₚ cards
    ∧ (is_sort_key sortBy = false → result = cards).
Proof.
  intros Hd.
  pose proof (getSortedDecklist_result localeCompare sortBy d cards h Hd) as H.
  destruct (getSortedDecklist localeCompare sortBy (Some d) h) as [sorted h'].
  eexists. split; [exact H|]. unfold comparator, is_sort_key.
  destruct (str_eqb sortBy (u16 "name")); [split; [apply array_sort_perm|discriminate]|].
  destruct (str_eqb sortBy (u16 "mana")); [split; [apply array_sort_perm|discriminate]|].
  destruct (str_eqb sortBy (u16 "type")); [split; [apply array_sort_perm|discriminate]|].
  split; reflexivity.
Qed.

Lemma getSortedDecklist_returns_the_same_cards_witness :
  let '(sorted, h') := getSortedDecklist compare_units (u16 "mana") (Some 0%nat) sample_heap in
  ∃ result,
    h' !! sorted = Some result
    ∧ result ≡ₚ sample_cards
    ∧ (is_sort_key (u16 "mana") = false → result = sample_cards).
Proof.
  apply (getSortedDecklist_returns_the_same_cards compare_units (u16 "mana") 0%nat
           sample_cards sample_heap).
  reflexivity.
Defined.

Section SortOrder.

Variable localeCompare : jsstring → jsstring → Z.
Hypothesis collation_consistent : consistent localeCompare.
Hypothesis collation_separates : ∀ a b, localeCompare a b = 0 → a = b.





End SortOrder.



(** ** The type of a card *)

Lemma split_dashless sep s :
  forallb (fun c => negb (N.eqb c sep)) s = true → split sep s = [s].
Proof.
  induction s as [|c s IH]; simpl; [reflexivity|].
  intros H. apply andb_true_iff in H as [Hc Hs].
  apply negb_true_iff in Hc. rewrite Hc, (IH Hs). reflexivity.
Qed.

Lemma getCardType_dashless main :
  dashless main = true →
  getCardType (Some main)
  = if truthy_str (trim main) then trim main else u16 "Unknown".
Proof.
  intros H. unfold getCardType.
  destruct main as [|c main]; [reflexivity|].
  rewrite (split_dashless _ _ H). reflexivity.
Qed.

(** X20.  [getCardType] returns what stands before the first dash of
    the type line, trimmed, or [Unknown] when that is blank; what
    follows the dash has no influence; and the result is never empty and
    neither starts nor ends with white space. *)
Theorem getCardType_is_what_stands_before_the_dash main rest :
  dashless main = true →
  getCardType (Some (main ++ EM_DASH :: rest))
  = (if truthy_str (trim main) then trim main else u16 "Unknown")
  ∧ getCardType (Some main) = getCardType (Some (main ++ EM_DASH :: rest))
  ∧ getCardType (Some (main ++ EM_DASH :: rest)) ≠ []
  ∧ trimmed (getCardType (Some (main ++ EM_DASH :: rest))).
Proof.
  intros H.
  assert (getCardType (Some (main ++ EM_DASH :: rest))
          = if truthy_str (trim main) then trim main else u16 "Unknown") as Heq.
  { unfold getCardType.
    replace (truthy_str (main ++ EM_DASH :: rest)) with true
      by (destruct main; reflexivity).
    rewrite split_app_sep, (split_dashless _ _ H). reflexivity. }
  split; [exact Heq|]. split; [rewrite Heq; apply getCardType_dashless, H|].
  rewrite Heq. destruct (truthy_str (trim main)) eqn:E.
  - split; [|apply trim_trimmed]. intros Hnil. rewrite Hnil in E. discriminate.
  - split; [discriminate|]. split; vm_compute; reflexivity.
Qed.

Lemma getCardType_is_what_stands_before_the_dash_witness :
  getCardType (Some (u16 "Artifact Creature " ++ EM_DASH :: u16 " Golem"))
  = u16 "Artifact Creature"
  ∧ getCardType (Some (u16 "Artifact Creature "))
    = getCardType (Some (u16 "Artifact Creature " ++ EM_DASH :: u16 " Golem"))
  ∧ getCardType (Some (u16 "Artifact Creature " ++ EM_DASH :: u16 " Golem")) ≠ []
  ∧ trimmed (getCardType (Some (u16 "Artifact Creature " ++ EM_DASH :: u16 " Golem"))).
Proof.
  apply (getCardType_is_what_stands_before_the_dash (u16 "Artifact Creature ") (u16 " Golem")).
  reflexivity.
Defined.

(** ** The mana value read off the cost *)

Lemma digit_no_brace c : isDigit c = true → no_brace c = true.
Proof.
  unfold isDigit, no_brace. intros H.
  apply andb_true_iff in H as [H1 H2]. apply N.leb_le in H1, H2.
  apply negb_true_iff, orb_false_iff. split; apply N.eqb_neq; lia.
Qed.

Lemma no_brace_facts c :
  no_brace c = true → N.eqb 123 c = false ∧ N.eqb 125 c = false.
Proof.
  unfold no_brace. intros H. apply negb_true_iff, orb_false_iff in H as [H1 H2].
  apply N.eqb_neq in H1, H2. split; apply N.eqb_neq; congruence.
Qed.

Lemma mana_re_hit t rest pos :
  is_number t = true →
  rmatch mana_re pos (braced t ++ rest) [] (fun pos' _ _ => Some pos')
  = Some (pos + length (braced t))%nat.
Proof.
  unfold is_number. intros H. apply andb_true_iff in H as [Hne Hdigits].
  destruct t as [|c t]; [discriminate|]. clear Hne.
  simpl in Hdigits. apply andb_true_iff in Hdigits as [Hc Ht].
  unfold mana_re, RSeqs, RChar, RPlus, braced. simpl foldr.
  rewrite rmatch_seq. simpl app. rewrite rmatch_set_cons. simpl N.eqb.
  rewrite rmatch_seq, rmatch_group, rmatch_seq, rmatch_set_cons, Hc.
  rewrite <- app_assoc.
  apply rmatch_star_run; [exact Ht | reflexivity |].
  simpl. rewrite length_app. simpl. f_equal. lia.
Qed.

Lemma star_miss {A} t tail pos caps (K : nat → jsstring → captures → option A) :
  forallb no_brace t = true →
  forallb isDigit t = false →
  (∀ pos' c s' caps', N.eqb 125 c = false → K pos' (c :: s') caps' = None) →
  rmatch (RStar (RSet isDigit)) pos (t ++ tail) caps K = None.
Proof.
  intros Hnb Hnd HK. revert pos. induction t as [|c t IH]; intros pos; [discriminate|].
  simpl in Hnb, Hnd. apply andb_true_iff in Hnb as [Hc Ht].
  destruct (no_brace_facts c Hc) as [_ Hc125].
  simpl app. rewrite rmatch_star_set_cons, succ_neqb.
  destruct (isDigit c); simpl in Hnd.
  - rewrite (IH Ht Hnd). apply HK, Hc125.
  - apply HK, Hc125.
Qed.

Lemma mana_re_miss {A} t rest pos (k : nat → jsstring → captures → option A) :
  forallb no_brace t = true →
  is_number t = false →
  rmatch mana_re pos (braced t ++ rest) [] k = None.
Proof.
  intros Hnb Hnum.
  unfold mana_re, RSeqs, RChar, RPlus, braced. simpl foldr.
  rewrite rmatch_seq. simpl app. rewrite rmatch_set_cons. simpl N.eqb.
  rewrite rmatch_seq, rmatch_group, rmatch_seq.
  destruct t as [|c t]; [reflexivity|].
  simpl app. rewrite rmatch_set_cons.
  destruct (isDigit c) eqn:Hc; [|reflexivity].
  simpl in Hnb. apply andb_true_iff in Hnb as [_ Ht].
  unfold is_number in Hnum. simpl in Hnum. rewrite Hc in Hnum. simpl in Hnum.
  rewrite <- app_assoc. apply star_miss; [exact Ht | exact Hnum |].
  intros pos' c' s' caps' Hc'. rewrite rmatch_seq, rmatch_set_cons, Hc'. reflexivity.
Qed.

Lemma mana_re_other {A} c s pos (k : nat → jsstring → captures → option A) :
  N.eqb 123 c = false → rmatch mana_re pos (c :: s) [] k = None.
Proof.
  intros H. unfold mana_re, RSeqs, RChar. simpl foldr.
  rewrite rmatch_seq, rmatch_set_cons, H. reflexivity.
Qed.

Lemma match_all_skip u rest fuel pos :
  forallb (fun c => negb (N.eqb 123 c)) u = true →
  (length u < fuel)%nat →
  match_all_from fuel mana_re pos (u ++ rest)
  = match_all_from (fuel - length u) mana_re (pos + length u) rest.
Proof.
  revert fuel pos. induction u as [|c u IH]; intros fuel pos Hu Hfuel.
  - simpl. rewrite Nat.sub_0_r, Nat.add_0_r. reflexivity.
  - simpl in Hu. apply andb_true_iff in Hu as [Hc Hu]. apply negb_true_iff in Hc.
    destruct fuel as [|fuel]; [simpl in Hfuel; lia|].
    simpl app. cbn [match_all_from]. rewrite (mana_re_other c _ pos _ Hc).
    simpl in Hfuel. rewrite IH by (assumption || lia).
    simpl. rewrite <- Nat.add_succ_comm. reflexivity.
Qed.

Lemma mana_cost_cons t symbols : mana_cost (t :: symbols) = braced t ++ mana_cost symbols.
Proof. reflexivity. Qed.

Lemma length_braced t : length (braced t) = S (S (length t)).
Proof. unfold braced. simpl. rewrite length_app. simpl. lia. Qed.

Lemma match_all_mana symbols fuel pos :
  forallb (forallb no_brace) symbols = true →
  (length (mana_cost symbols) < fuel)%nat →
  match_all_from fuel mana_re pos (mana_cost symbols)
  = map braced (List.filter is_number symbols).
Proof.
  revert fuel pos. induction symbols as [|t symbols IH]; intros fuel pos Hnb Hfuel.
  - destruct fuel; reflexivity.
  - simpl in Hnb. apply andb_true_iff in Hnb as [Ht Hnb].
    rewrite mana_cost_cons in *. rewrite length_app, length_braced in Hfuel.
    destruct fuel as [|fuel]; [lia|].
    cbn [match_all_from List.filter].
    destruct (is_number t) eqn:Hnum.
    + rewrite (mana_re_hit t _ pos Hnum).
      replace (pos + length (braced t) - pos)%nat with (length (braced t)) by lia.
      rewrite take_app_length, drop_app_length, length_braced. simpl.
      rewrite IH by (assumption || lia). reflexivity.
    + rewrite (mana_re_miss t _ pos _ Ht Hnum).
      unfold braced at 1. simpl app. cbv iota.
      rewrite (match_all_skip (t ++ [125%N])).
      * apply IH; [assumption|]. rewrite length_app. simpl. lia.
      * rewrite forallb_app. apply andb_true_iff. split; [|reflexivity].
        clear -Ht. induction t as [|c t IHt]; [reflexivity|].
        cbn [forallb] in *. apply andb_true_iff in Ht as [Hc Ht].
        destruct (no_brace_facts c Hc) as [-> _]. apply IHt, Ht.
      * rewrite length_app. simpl. lia.
Qed.

Lemma replace_all_set p s fuel pos :
  (length s < fuel)%nat →
  replace_all_from fuel (RSet p) [] pos s = List.filter (fun c => negb (p c)) s.
Proof.
  revert fuel pos. induction s as [|c s IH]; intros fuel pos Hfuel.
  - destruct fuel; reflexivity.
  - destruct fuel as [|fuel]; [simpl in Hfuel; lia|]. simpl in Hfuel.
    cbn [replace_all_from List.filter]. rewrite rmatch_set_cons.
    destruct (p c); simpl.
    + replace (S pos - pos)%nat with 1%nat by lia. simpl. apply IH. lia.
    + f_equal. apply IH. lia.
Qed.

Lemma unbrace t :
  forallb isDigit t = true → str_replace_all braces_re [] (braced t) = t.
Proof.
  intros H. unfold str_replace_all, braces_re. rewrite replace_all_set by lia.
  unfold braced. simpl. rewrite List.filter_app. simpl. rewrite app_nil_r.
  induction t as [|c t IH]; [reflexivity|].
  simpl in *. apply andb_true_iff in H as [Hc Ht].
  pose proof (digit_no_brace c Hc) as Hnb. unfold no_brace in Hnb.
  rewrite Hnb. f_equal. apply IH, Ht.
Qed.

Lemma sum_of_matches symbols acc :
  fold_left
    (fun sum m =>
       sum + match parseInt (str_replace_all braces_re [] m) with
             | None => 0
             | Some n => n
             end)
    (map braced (List.filter is_number symbols)) acc
  = acc + foldr Z.add 0 (map symbol_value symbols).
Proof.
  revert acc. induction symbols as [|t symbols IH]; intros acc; simpl; [lia|].
  unfold symbol_value at 1. destruct (is_number t) eqn:Hnum; simpl.
  - unfold is_number in Hnum. apply andb_true_iff in Hnum as [Hne Hd].
    rewrite (unbrace t Hd), parseInt_digits; [|destruct t; [discriminate|congruence]|exact Hd].
    rewrite IH. lia.
  - rewrite IH. lia.
Qed.

(** X21.  Without a stored cmc, the mana value of a cost that is a row of
    symbols in braces is the sum of the symbols that are numbers; every
    other symbol counts as nothing.  (For a sum in the range where the
    numbers of the language are the integers.) *)
Theorem getManaValue_adds_the_generic_symbols name q img ty r symbols :
  forallb (forallb no_brace) symbols = true →
  foldr Z.add 0 (map symbol_value symbols) < 2 ^ 53 →
  getManaValue (CardEntry.mk name q img (Some (mana_cost symbols)) None ty r)
  = foldr Z.add 0 (map symbol_value symbols).
Proof.
  intros Hnb _. unfold getManaValue. simpl.
  destruct symbols as [|t symbols]; [reflexivity|].
  replace (truthy_str (mana_cost (t :: symbols))) with true by reflexivity.
  simpl negb. cbv iota.
  unfold str_match_all. rewrite (match_all_mana _ _ _ Hnb) by lia.
  pose proof (sum_of_matches (t :: symbols) 0) as Hsum.
  destruct (map braced (List.filter is_number (t :: symbols))) as [|m ms] eqn:E.
  - cbn [fold_left] in Hsum. lia.
  - rewrite Hsum. lia.
Qed.

Lemma getManaValue_adds_the_generic_symbols_witness :
  getManaValue (CardEntry.mk (u16 "Card") 1 None
                  (Some (mana_cost [u16 "3"; u16 "G"; u16 "G"; u16 "12"])) None None [])
  = 15.
Proof.
  apply (getManaValue_adds_the_generic_symbols (u16 "Card") 1 None None []
           [u16 "3"; u16 "G"; u16 "G"; u16 "12"]).
  - reflexivity.
  - reflexivity.
Defined.

(** ** The edit form *)

Lemma digits_to_Z_nonneg q : 0 ≤ digits_to_Z q.
Proof.
  unfold digits_to_Z.
  assert (∀ acc, 0 ≤ acc → 0 ≤ fold_left (fun a c => 10 * a + Z.of_N (c - 48)) q acc) as H.
  { induction q as [|c q IH]; intros acc Hacc; simpl; [exact Hacc|].
    apply IH. lia. }
  apply H. lia.
Qed.

Lemma unsigned_input q : forallb isDigit q = true → 0 ≤ num_or_0 (parseInt q).
Proof.
  intros H. destruct q as [|c q]; [vm_compute; discriminate|].
  rewrite parseInt_digits by (congruence || assumption).
  apply digits_to_Z_nonneg.
Qed.

(** X22.  When the three fields of the edit form hold digits only (or
    nothing), the statistics that [handleUpdateStats] saves are not
    negative and their total is the sum of wins and losses. *)
Theorem edit_form_with_unsigned_input_establishes_the_invariant
    deck statsInput notes w l m :
  forallb isDigit w = true → forallb isDigit l = true → forallb isDigit m = true →
  consistent_stats
    (Deck.stats
       (handleUpdateStats_deck deck
          (onChange_mulligans (onChange_losses (onChange_wins statsInput w) l) m)
          notes)).
Proof.
  intros Hw Hl Hm.
  exists (num_or_0 (parseInt w)), (num_or_0 (parseInt l)), (num_or_0 (parseInt m)).
  split; [apply unsigned_input, Hw|]. split; [apply unsigned_input, Hl|].
  split; [apply unsigned_input, Hm|]. reflexivity.
Qed.

Lemma edit_form_with_unsigned_input_establishes_the_invariant_witness :
  consistent_stats
    (Deck.stats
       (handleUpdateStats_deck deck_17
          (onChange_mulligans
             (onChange_losses (onChange_wins (StatsInput.mk 0 0 0) (u16 "12")) (u16 "7")) [])
          (u16 "note"))).
Proof.
  apply (edit_form_with_unsigned_input_establishes_the_invariant deck_17
           (StatsInput.mk 0 0 0) (u16 "note") (u16 "12") (u16 "7") []);
    reflexivity.
Defined.

(** ** JSON: what is written is read back *)

(** *** Numbers *)

Lemma uint_units_digits d : forallb isDigit (uint_units d) = true.
Proof. induction d; simpl; try reflexivity; exact IHd. Qed.

Lemma uint_units_acc d acc :
  fold_left (fun a c => 10 * a + Z.of_N (c - 48)) (uint_units d) (Z.pos acc)
  = Z.pos (Pos.of_uint_acc d acc).
Proof.
  revert acc. induction d; intros acc; try reflexivity;
    unfold uint_units in *; simpl; cbn [fold_left];
    match goal with
    | |- fold_left _ _ ?a = Z.pos (Pos.of_uint_acc _ ?b) =>
        replace a with (Z.pos b) by lia
    end; apply IHd.
Qed.

Lemma uint_units_value d : digits_to_Z (uint_units d) = Z.of_N (Pos.of_uint d).
Proof.
  unfold digits_to_Z.
  induction d; try reflexivity;
    unfold uint_units in *; simpl; cbn [fold_left];
    solve [ exact IHd
          | match goal with
            | |- fold_left _ _ ?a = Z.pos (Pos.of_uint_acc _ ?b) =>
                replace a with (Z.pos b) by lia
            end; apply uint_units_acc ].
Qed.

Lemma to_uint_normal p :
  match Pos.to_uint p with
  | Decimal.Nil | Decimal.D0 _ => False
  | _ => True
  end.
Proof.
  pose proof (DecimalPos.Unsigned.to_of (Pos.to_uint p)) as H.
  rewrite DecimalPos.Unsigned.of_to in H. simpl in H.
  pose proof (nzhead_nonzero (Pos.to_uint p)) as Hnz.
  pose proof (Unsigned.to_uint_nonzero p) as Hne.
  remember (Pos.to_uint p) as d eqn:Hd. clear Hd.
  unfold Decimal.unorm in H.
  destruct (Decimal.nzhead d) as [|u|u|u|u|u|u|u|u|u|u] eqn:E;
    try (rewrite H; exact I).
  - contradiction.
  - exfalso. first [exact (Hnz u eq_refl) | exact (Hnz u E)].
Qed.

Lemma Z_toString_pos p : Z_toString (Z.pos p) = uint_units (Pos.to_uint p).
Proof.
  unfold Z_toString, uint_units. simpl.
  pose proof (to_uint_normal p) as H.
  destruct (Pos.to_uint p); try contradiction; reflexivity.
Qed.

(** The numeral of a positive number: digits, the first of them not a
    zero, that read back as the number. *)
Lemma Z_toString_numeral p :
  ∃ c ds, Z_toString (Z.pos p) = c :: ds
          ∧ isDigit c = true ∧ N.eqb c 48 = false
          ∧ forallb isDigit ds = true
          ∧ digits_to_Z (c :: ds) = Z.pos p.
Proof.
  rewrite Z_toString_pos.
  pose proof (uint_units_value (Pos.to_uint p)) as Hval.
  rewrite DecimalPos.Unsigned.of_to in Hval. simpl in Hval.
  pose proof (uint_units_digits (Pos.to_uint p)) as Hdig.
  pose proof (to_uint_normal p) as H.
  destruct (Pos.to_uint p) as [|d|d|d|d|d|d|d|d|d|d]; try contradiction;
    (eexists _, (uint_units d); split; [reflexivity|];
     split; [reflexivity|]; split; [reflexivity|];
     split; [exact Hdig | exact Hval]).
Qed.

Lemma closes_head c rest :
  closes (c :: rest) →
  isDigit c = false ∧ N.eqb c 46 = false ∧ N.eqb c 101 = false ∧ N.eqb c 69 = false
  ∧ isJsonSpace c = false.
Proof. intros [->|[->| ->]]; repeat split; reflexivity. Qed.

Lemma span_digits_app ds rest :
  forallb isDigit ds = true →
  match rest with [] => True | c :: _ => isDigit c = false end →
  span_digits (ds ++ rest) = (ds, rest).
Proof.
  intros Hds Hrest. induction ds as [|c ds IH]; simpl.
  - destruct rest as [|c rest]; [reflexivity|]. simpl. rewrite Hrest. reflexivity.
  - simpl in Hds. apply andb_true_iff in Hds as [Hc Hds].
    rewrite Hc, (IH Hds). reflexivity.
Qed.

Lemma digit_not_minus c : isDigit c = true → N.eqb c 45 = false.
Proof.
  unfold isDigit. intros H. apply andb_true_iff in H as [H1 H2].
  apply N.leb_le in H1, H2. apply N.eqb_neq. lia.
Qed.

Lemma parse_number_tail ip rest (neg : bool) :
  ip ≠ [] →
  match ip with c :: _ :: _ => N.eqb c 48 = false | _ => True end →
  forallb isDigit ip = true →
  closes rest →
  (let '(ip', s2) := span_digits (ip ++ rest) in
   let leading_zero := match ip' with c :: _ :: _ => N.eqb c 48 | _ => false end in
   if negb (truthy_str ip') || leading_zero then None
   else
     let frac :=
       match s2 with
       | c :: s' =>
           if N.eqb c 46 then
             let '(fp, s3) := span_digits s' in
             if truthy_str fp then Some (fp, s3) else None
           else Some ([], s2)
       | [] => Some ([], s2)
       end in
     match frac with
     | None => None
     | Some (fp, s3) =>
         let expo :=
           match s3 with
           | c :: s' =>
               if N.eqb c 101 || N.eqb c 69 then
                 let '(eneg, s4) :=
                   match s' with
                   | d :: s'' =>
                       if N.eqb d 45 then (true, s'')
                       else if N.eqb d 43 then (false, s'')
                       else (false, s')
                   | [] => (false, s')
                   end in
                 let '(ep, s5) := span_digits s4 in
                 if truthy_str ep
                 then Some ((if eneg then -1 else 1) * digits_to_Z ep, s5)
                 else None
               else Some (0, s3)
           | [] => Some (0, s3)
           end in
         match expo with
         | None => None
         | Some (x, s5) =>
             let m := digits_to_Z (ip' ++ fp) in
             Some (VNum (if neg then - m else m) (x - Z.of_nat (length fp)), s5)
         end
     end)
  = Some (VNum (if neg then - digits_to_Z ip else digits_to_Z ip) 0, rest).
Proof.
  intros Hne Hlead Hdig Hrest.
  rewrite span_digits_app; [|exact Hdig|].
  2:{ destruct rest as [|c rest]; [exact I|]. apply (closes_head c rest Hrest). }
  assert (match ip with c :: _ :: _ => N.eqb c 48 | _ => false end = false) as ->.
  { destruct ip as [|c [|c' ip]]; try reflexivity. exact Hlead. }
  assert (truthy_str ip = true) as -> by (destruct ip; [congruence|reflexivity]).
  simpl negb. simpl orb. cbv iota.
  destruct rest as [|c rest].
  - cbv zeta. cbv iota. rewrite app_nil_r. reflexivity.
  - destruct (closes_head c rest Hrest) as (_ & H46 & H101 & H69 & _).
    cbv zeta. rewrite H46. cbv iota. rewrite H101, H69. simpl orb. cbv iota.
    rewrite app_nil_r. reflexivity.
Qed.

Lemma parse_number_digits ip rest :
  ip ≠ [] →
  match ip with c :: _ :: _ => N.eqb c 48 = false | _ => True end →
  forallb isDigit ip = true →
  closes rest →
  parse_number (ip ++ rest) = Some (VNum (digits_to_Z ip) 0, rest)
  ∧ parse_number (45%N :: ip ++ rest) = Some (VNum (- digits_to_Z ip) 0, rest).
Proof.
  intros Hne Hlead Hdig Hrest. split.
  - unfold parse_number.
    destruct ip as [|c ip]; [congruence|].
    simpl in Hdig. pose proof Hdig as Hdig'. apply andb_true_iff in Hdig as [Hc _].
    simpl app. cbv beta iota. rewrite (digit_not_minus c Hc).
    apply (parse_number_tail (c :: ip) rest false); try assumption.
  - unfold parse_number. simpl N.eqb. cbv iota.
    apply (parse_number_tail ip rest true); assumption.
Qed.

Lemma drop_zeros_split r :
  r = replicate (length r - length (drop_zeros r)) 48%N ++ drop_zeros r.
Proof.
  induction r as [|c r IH]; [reflexivity|].
  simpl drop_zeros. destruct (N.eqb c 48) eqn:E.
  - apply N.eqb_eq in E. subst c.
    assert (length (drop_zeros r) ≤ length r)%nat as Hle.
    { clear. induction r as [|c r IH]; simpl; [lia|].
      destruct (N.eqb c 48); simpl; lia. }
    replace (length (48%N :: r) - length (drop_zeros r))%nat
      with (S (length r - length (drop_zeros r))) by (simpl; lia).
    simpl. f_equal. exact IH.
  - rewrite Nat.sub_diag. reflexivity.
Qed.

Lemma rev_replicate_unit n (c : N) : rev (replicate n c) = replicate n c.
Proof.
  induction n as [|n IH]; [reflexivity|].
  simpl. rewrite IH. clear. induction n as [|n IH]; [reflexivity|].
  simpl. rewrite IH. reflexivity.
Qed.

Lemma strip_trailing_zeros_restore l :
  strip_trailing_zeros l
  ++ zeros (Z.of_nat (length l) + 0 - Z.of_nat (length (strip_trailing_zeros l))) = l
  ∧ (length (strip_trailing_zeros l) ≤ length l)%nat.
Proof.
  unfold strip_trailing_zeros, zeros.
  assert (l = rev (rev l)) as Hl by (symmetry; apply rev_involutive).
  remember (rev l) as r eqn:Hr. clear Hr. subst l.
  pose proof (drop_zeros_split r) as H.
  rewrite !length_rev.
  assert (length (drop_zeros r) ≤ length r)%nat as Hle.
  { apply (f_equal length) in H. rewrite length_app, length_replicate in H. lia. }
  split; [|exact Hle].
  replace (Z.to_nat (Z.of_nat (length r) + 0 - Z.of_nat (length (drop_zeros r))))
    with (length r - length (drop_zeros r))%nat by lia.
  transitivity (rev (replicate (length r - length (drop_zeros r)) 48%N ++ drop_zeros r)).
  - rewrite rev_app_distr, rev_replicate_unit. reflexivity.
  - f_equal. symmetry. exact H.
Qed.

(** An integer of at most 21 digits is written as its numeral and read
    back as it was. *)
Lemma parse_number_toString m rest :
  (length (Z_toString (Z.abs m)) ≤ 21)%nat →
  closes rest →
  parse_number (number_toString m 0 ++ rest) = Some (VNum m 0, rest)
  ∧ ∃ c s, number_toString m 0 = c :: s ∧ isJsonSpace c = false
           ∧ (isDigit c = true ∨ c = 45%N).
Proof.
  intros Hlen Hrest. unfold number_toString.
  destruct m as [|p|p].
  - simpl. split.
    + apply (parse_number_digits (u16 "0") rest); try reflexivity; [discriminate|assumption].
    + eexists _, _. split; [reflexivity|]. split; [reflexivity|]. left. reflexivity.
  - change (Z.pos p =? 0) with false. change (Z.pos p <? 0) with false.
    change (Z.abs (Z.pos p)) with (Z.pos p) in *. cbv iota.
    destruct (strip_trailing_zeros_restore (Z_toString (Z.pos p))) as [Hrestore Hle].
    cbv zeta.
    replace (Z.of_nat (length (strip_trailing_zeros (Z_toString (Z.pos p))))
             <=? Z.of_nat (length (Z_toString (Z.pos p))) + 0) with true
      by (symmetry; apply Z.leb_le; lia).
    replace (Z.of_nat (length (Z_toString (Z.pos p))) + 0 <=? 21) with true
      by (symmetry; apply Z.leb_le; lia).
    simpl andb. cbv iota. rewrite Hrestore. simpl app.
    destruct (Z_toString_numeral p) as (c & ds & Heq & Hc & Hc0 & Hds & Hval).
    rewrite Heq. split.
    + rewrite <- Hval.
      apply (parse_number_digits (c :: ds) rest); try assumption; [discriminate| |].
      * destruct ds; [exact I|exact Hc0].
      * simpl. rewrite Hc, Hds. reflexivity.
    + eexists _, _. split; [reflexivity|]. split; [|left; exact Hc].
      unfold isDigit in Hc. apply andb_true_iff in Hc as [H1 H2].
      apply N.leb_le in H1, H2. unfold isJsonSpace.
      repeat (apply orb_false_iff; split); apply N.eqb_neq; lia.
  - change (Z.neg p =? 0) with false. change (Z.neg p <? 0) with true.
    change (Z.abs (Z.neg p)) with (Z.pos p) in *. cbv iota.
    destruct (strip_trailing_zeros_restore (Z_toString (Z.pos p))) as [Hrestore Hle].
    cbv zeta.
    replace (Z.of_nat (length (strip_trailing_zeros (Z_toString (Z.pos p))))
             <=? Z.of_nat (length (Z_toString (Z.pos p))) + 0) with true
      by (symmetry; apply Z.leb_le; lia).
    replace (Z.of_nat (length (Z_toString (Z.pos p))) + 0 <=? 21) with true
      by (symmetry; apply Z.leb_le; lia).
    simpl andb. cbv iota. rewrite Hrestore. change (u16 "-") with [45%N]. simpl app.
    destruct (Z_toString_numeral p) as (c & ds & Heq & Hc & Hc0 & Hds & Hval).
    rewrite Heq. split.
    + change (Z.neg p) with (- Z.pos p). rewrite <- Hval.
      apply (parse_number_digits (c :: ds) rest); try assumption; [discriminate| |].
      * destruct ds; [exact I|exact Hc0].
      * simpl. rewrite Hc, Hds. reflexivity.
    + eexists _, _. split; [reflexivity|]. split; [reflexivity|]. right. reflexivity.
Qed.

(** *** Strings *)

Lemma hexValue_hexDigit d : (d < 16)%N → hexValue (hexDigit d) = Some d.
Proof.
  intros H.
  assert (d = 0 ∨ d = 1 ∨ d = 2 ∨ d = 3 ∨ d = 4 ∨ d = 5 ∨ d = 6 ∨ d = 7 ∨ d = 8
          ∨ d = 9 ∨ d = 10 ∨ d = 11 ∨ d = 12 ∨ d = 13 ∨ d = 14 ∨ d = 15)%N as Hd by lia.
  repeat (destruct Hd as [->|Hd]; [reflexivity|]). subst d. reflexivity.
Qed.

Lemma hex4_escape c :
  (c < 65536)%N →
  hex4 (hexDigit (c / 4096 mod 16)) (hexDigit (c / 256 mod 16))
       (hexDigit (c / 16 mod 16)) (hexDigit (c mod 16)) = Some c.
Proof.
  intros H. unfold hex4.
  rewrite !hexValue_hexDigit by (apply N.mod_lt; discriminate).
  f_equal.
  assert (c / 16 / 16 = c / 256)%N as E1 by (rewrite N.Div0.div_div; reflexivity).
  assert (c / 256 / 16 = c / 4096)%N as E2 by (rewrite N.Div0.div_div; reflexivity).
  pose proof (N.div_mod c 16 ltac:(discriminate)) as H0.
  pose proof (N.div_mod (c / 16) 16 ltac:(discriminate)) as H1.
  pose proof (N.div_mod (c / 256) 16 ltac:(discriminate)) as H2.
  rewrite E1 in H1. rewrite E2 in H2.
  assert (c / 4096 < 16)%N as H3 by (apply N.Div0.div_lt_upper_bound; lia).
  rewrite (N.mod_small _ _ H3).
  lia.
Qed.

Lemma parse_chars_raw c s :
  N.eqb c 34 = false → N.eqb c 92 = false → N.ltb c 32 = false →
  parse_chars (c :: s) = cons_unit c (parse_chars s).
Proof. intros H1 H2 H3. cbn [parse_chars]. rewrite H1, H2, H3. reflexivity. Qed.

Lemma parse_chars_simple d u s :
  N.eqb d 117 = false → simple_escape d = Some u →
  parse_chars (92%N :: d :: s) = cons_unit u (parse_chars s).
Proof.
  intros H1 H2. cbn [parse_chars]. simpl N.eqb. cbv iota. rewrite H1, H2. reflexivity.
Qed.

Lemma parse_chars_u c s :
  (c < 65536)%N → parse_chars (escape_u c ++ s) = cons_unit c (parse_chars s).
Proof.
  intros H. unfold escape_u. change (u16 "\u") with [92%N; 117%N]. simpl app.
  cbn [parse_chars]. simpl N.eqb. cbv iota. rewrite (hex4_escape c H). reflexivity.
Qed.

Lemma surrogate_raw c :
  isHighSurrogate c = true ∨ isLowSurrogate c = true →
  N.eqb c 34 = false ∧ N.eqb c 92 = false ∧ N.ltb c 32 = false.
Proof.
  unfold isHighSurrogate, isLowSurrogate.
  intros [H|H]; apply andb_true_iff in H as [H1 H2]; apply N.leb_le in H1, H2;
    (split; [apply N.eqb_neq; lia|]; split; [apply N.eqb_neq; lia|]; apply N.ltb_ge; lia).
Qed.

Lemma parse_chars_quote_units n s rest :
  (length s ≤ n)%nat →
  valid_string s = true →
  parse_chars (quote_units s ++ 34%N :: rest) = Some (s, rest).
Proof.
  revert s. induction n as [|n IH]; intros s Hn Hs.
  - destruct s; [reflexivity|simpl in Hn; lia].
  - destruct s as [|c s]; [reflexivity|].
    simpl in Hn, Hs. apply andb_true_iff in Hs as [Hc Hs]. apply N.ltb_lt in Hc.
    assert (parse_chars (quote_units s ++ 34%N :: rest) = Some (s, rest)) as IHs
      by (apply IH; [lia|exact Hs]).
    cbn [quote_units].
    destruct (N.eqb c 34) eqn:E34.
    { apply N.eqb_eq in E34. subst c. change (u16 "\") with [92%N].
      simpl app. rewrite (parse_chars_simple 34 34) by reflexivity.
      rewrite IHs. reflexivity. }
    destruct (N.eqb c 92) eqn:E92.
    { apply N.eqb_eq in E92. subst c. change (u16 "\\") with [92%N; 92%N].
      simpl app. rewrite (parse_chars_simple 92 92) by reflexivity.
      rewrite IHs. reflexivity. }
    destruct (N.eqb c 8) eqn:E8.
    { apply N.eqb_eq in E8. subst c. change (u16 "\b") with [92%N; 98%N].
      simpl app. rewrite (parse_chars_simple 98 8) by reflexivity.
      rewrite IHs. reflexivity. }
    destruct (N.eqb c 9) eqn:E9.
    { apply N.eqb_eq in E9. subst c. change (u16 "\t") with [92%N; 116%N].
      simpl app. rewrite (parse_chars_simple 116 9) by reflexivity.
      rewrite IHs. reflexivity. }
    destruct (N.eqb c 10) eqn:E10.
    { apply N.eqb_eq in E10. subst c. change (u16 "\n") with [92%N; 110%N].
      simpl app. rewrite (parse_chars_simple 110 10) by reflexivity.
      rewrite IHs. reflexivity. }
    destruct (N.eqb c 12) eqn:E12.
    { apply N.eqb_eq in E12. subst c. change (u16 "\f") with [92%N; 102%N].
      simpl app. rewrite (parse_chars_simple 102 12) by reflexivity.
      rewrite IHs. reflexivity. }
    destruct (N.eqb c 13) eqn:E13.
    { apply N.eqb_eq in E13. subst c. change (u16 "\r") with [92%N; 114%N].
      simpl app. rewrite (parse_chars_simple 114 13) by reflexivity.
      rewrite IHs. reflexivity. }
    destruct (N.ltb c 32) eqn:E32.
    { rewrite <- app_assoc, (parse_chars_u c _ Hc), IHs. reflexivity. }
    destruct (isHighSurrogate c) eqn:Ehigh.
    { destruct (surrogate_raw c (or_introl Ehigh)) as (_ & _ & _).
      destruct s as [|d s].
      - rewrite (parse_chars_u c _ Hc). reflexivity.
      - destruct (isLowSurrogate d) eqn:Elow.
        + destruct (surrogate_raw d (or_intror Elow)) as (D34 & D92 & D32).
          simpl in Hs. apply andb_true_iff in Hs as [_ Hs].
          simpl app. rewrite (parse_chars_raw c _ E34 E92 E32).
          rewrite (parse_chars_raw d _ D34 D92 D32).
          rewrite (IH s) by (simpl in Hn; lia || exact Hs). reflexivity.
        + rewrite <- app_assoc, (parse_chars_u c _ Hc), IHs. reflexivity. }
    destruct (isLowSurrogate c) eqn:Elow.
    { rewrite <- app_assoc, (parse_chars_u c _ Hc), IHs. reflexivity. }
    simpl app. rewrite (parse_chars_raw c _ E34 E92 E32), IHs. reflexivity.
Qed.

Lemma parse_chars_quote s rest :
  valid_string s = true →
  parse_chars (quote_units s ++ 34%N :: rest) = Some (s, rest).
Proof. apply (parse_chars_quote_units (length s)). lia. Qed.

(** *** Values *)

Lemma JSON_stringify_arr vs :
  JSON_stringify (VArr vs)
  = u16 "[" ++ join (u16 ",") (List.map JSON_stringify vs) ++ u16 "]".
Proof.
  reflexivity.
Qed.

Lemma JSON_stringify_obj fields :
  JSON_stringify (VObj fields)
  = u16 "{" ++ join (u16 ",") (List.map member (defined_fields fields)) ++ u16 "}".
Proof.
  cbn [JSON_stringify].
  match goal with
  | |- _ ++ join _ (?f fields) ++ _ = _ =>
      assert (f fields = List.map member (defined_fields fields)) as ->; [|reflexivity]
  end.
  induction fields as [|[k x] fields IH]; [reflexivity|].
  unfold defined_fields in *. cbn [List.filter snd].
  destruct x; cbn [is_defined List.map]; rewrite <- IH; reflexivity.
Qed.

Lemma stored_form_arr vs : stored_form (VArr vs) = VArr (List.map stored_form vs).
Proof.
  reflexivity.
Qed.

Lemma stored_form_obj fields :
  stored_form (VObj fields)
  = VObj (List.map (fun kv => (fst kv, stored_form (snd kv))) (defined_fields fields)).
Proof.
  cbn [stored_form]. f_equal.
  induction fields as [|[k x] fields IH]; [reflexivity|].
  unfold defined_fields in *. cbn [List.filter snd].
  destruct (is_defined x); cbn [List.map fst snd]; rewrite <- IH; reflexivity.
Qed.

Lemma size_arr vs : size (VArr vs) = S (sizes vs).
Proof.
  reflexivity.
Qed.

Lemma size_obj fields : (S (sizes (List.map snd (defined_fields fields))) ≤ size (VObj fields))%nat.
Proof.
  cbn [size]. apply le_n_S. unfold sizes, defined_fields.
  induction fields as [|[k x] fields IH]; [reflexivity|].
  cbn [List.filter snd]. destruct (is_defined x); cbn [List.map fold_right snd]; lia.
Qed.

Lemma size_obj_eq fields : size (VObj fields) = S (sizes (List.map snd (defined_fields fields))).
Proof.
  cbn [size]. f_equal. unfold sizes, defined_fields.
  induction fields as [|[k x] fields IH]; [reflexivity|].
  cbn [List.filter snd]. destruct (is_defined x); cbn [List.map fold_right snd]; lia.
Qed.

Lemma writable_arr vs : writable (VArr vs) = forallb writable vs.
Proof.
  reflexivity.
Qed.

Lemma distinct_defined fields :
  distinct (List.map fst fields) = true →
  distinct (List.map fst (defined_fields fields)) = true.
Proof.
  unfold defined_fields. induction fields as [|[k x] fields IH]; [reflexivity|].
  cbn [List.map fst distinct List.filter snd]. intros H.
  apply andb_true_iff in H as [Hk H]. specialize (IH H).
  destruct (is_defined x); [|exact IH].
  cbn [List.map fst distinct]. rewrite IH, andb_true_r.
  apply negb_true_iff in Hk. apply negb_true_iff.
  clear -Hk. induction fields as [|[k' x'] fields IH]; [reflexivity|].
  cbn [List.map fst existsb List.filter snd] in *.
  apply orb_false_iff in Hk as [Hk Hrest].
  destruct (is_defined x'); [|exact (IH Hrest)].
  cbn [List.map fst existsb]. rewrite Hk. exact (IH Hrest).
Qed.

Lemma writable_obj fields :
  writable (VObj fields) = true →
  forallb (fun kv => valid_string (fst kv) && writable (snd kv)) (defined_fields fields) = true
  ∧ distinct (List.map fst (defined_fields fields)) = true.
Proof.
  cbn [writable]. intros H. apply andb_true_iff in H as [H Hd].
  split; [|apply distinct_defined, Hd].
  clear Hd. unfold defined_fields.
  induction fields as [|[k x] fields IH]; [reflexivity|].
  apply andb_true_iff in H as [Hkx H]. cbn [List.filter snd].
  apply andb_true_iff in Hkx as [Hk Hx]. unfold valid_name in Hk.
  apply andb_true_iff in Hk as [Hk _].
  destruct (is_defined x); cbn [forallb fst snd]; [rewrite Hk, Hx|]; apply IH, H.
Qed.

Lemma skip_ws_head c s : isJsonSpace c = false → skip_ws (c :: s) = c :: s.
Proof. intros H. simpl. rewrite H. reflexivity. Qed.

Lemma parse_value_number fuel c s :
  isDigit c = true ∨ c = 45%N →
  parse_value (S fuel) (c :: s) = parse_number (c :: s).
Proof.
  intros H.
  assert (isJsonSpace c = false ∧ N.eqb c 123 = false ∧ N.eqb c 91 = false
          ∧ N.eqb c 34 = false ∧ N.eqb 116 c = false ∧ N.eqb 102 c = false
          ∧ N.eqb 110 c = false) as (H1 & H2 & H3 & H4 & H5 & H6 & H7).
  { destruct H as [H| ->]; [|repeat split; reflexivity].
    unfold isDigit in H. apply andb_true_iff in H as [Ha Hb].
    apply N.leb_le in Ha, Hb. unfold isJsonSpace.
    repeat split; try (apply N.eqb_neq; lia).
    repeat (apply orb_false_iff; split); apply N.eqb_neq; lia. }
  cbn [parse_value]. rewrite (skip_ws_head c s H1). rewrite H2, H3, H4.
  cbn [startsWith u16 list_ascii_of_string List.map]. 
  change (N_of_ascii "t") with 116%N. change (N_of_ascii "f") with 102%N.
  change (N_of_ascii "n") with 110%N.
  rewrite H5, H6, H7. reflexivity.
Qed.

Lemma stringify_head v :
  writable v = true →
  ∃ c s, JSON_stringify v = c :: s
         ∧ isJsonSpace c = false ∧ N.eqb c 93 = false ∧ N.eqb c 125 = false.
Proof.
  intros Hw. destruct v as [| |[|]|m e|s|vs|fields];
    try (eexists _, _; split; [reflexivity|]; repeat split; reflexivity).
  cbn [writable] in Hw. apply andb_true_iff in Hw as [He Hlen].
  apply Z.eqb_eq in He. subst e. apply Nat.leb_le in Hlen.
  destruct (parse_number_toString m [] Hlen I) as (_ & c & s & Heq & Hsp & Hc).
  exists c, s. cbn [JSON_stringify]. split; [exact Heq|]. split; [exact Hsp|].
  destruct Hc as [Hc| ->]; [|split; reflexivity].
  unfold isDigit in Hc. apply andb_true_iff in Hc as [Ha Hb].
  apply N.leb_le in Ha, Hb. split; apply N.eqb_neq; lia.
Qed.

Lemma join_cons2 sep (x y : jsstring) l :
  join sep (x :: y :: l) = x ++ sep ++ join sep (y :: l).
Proof. reflexivity. Qed.

Lemma member_app k x tail :
  member (k, x) ++ tail = 34%N :: quote_units k ++ 34%N :: 58%N :: JSON_stringify x ++ tail.
Proof.
  unfold member, quote. cbn [fst snd]. change (u16 ":") with [58%N].
  rewrite <- !app_assoc. reflexivity.
Qed.

Section Nested.

Variable n : nat.
Hypothesis IHn :
  ∀ v, (size v ≤ n)%nat → writable v = true →
  ∀ rest fuel, closes rest → (size v ≤ fuel)%nat →
  parse_value fuel (JSON_stringify v ++ rest) = Some (stored_form v, rest).

Lemma parse_elements_join vs x acc rest fuel :
  (sizes (x :: vs) ≤ n)%nat →
  forallb writable (x :: vs) = true →
  (sizes (x :: vs) ≤ fuel)%nat →
  parse_elements fuel acc
    (join (u16 ",") (List.map JSON_stringify (x :: vs)) ++ 93%N :: rest)
  = Some (VArr (acc ++ List.map stored_form (x :: vs)), rest).
Proof.
  revert x acc fuel. induction vs as [|y vs IH]; intros x acc fuel Hn Hw Hfuel.
  - cbn [sizes fold_right] in Hn, Hfuel. cbn [forallb] in Hw.
    apply andb_true_iff in Hw as [Hx _].
    destruct fuel as [|fuel]; [lia|].
    cbn [List.map join parse_elements].
    rewrite IHn; [| lia | exact Hx | right; left; reflexivity | lia].
    rewrite skip_ws_head by reflexivity. reflexivity.
  - cbn [sizes fold_right] in Hn, Hfuel. fold (sizes (y :: vs)) in Hn, Hfuel.
    cbn [forallb] in Hw. apply andb_true_iff in Hw as [Hx Hw].
    destruct fuel as [|fuel]; [lia|].
    cbn [List.map]. rewrite join_cons2. cbn [parse_elements].
    rewrite <- !app_assoc.
    rewrite IHn; [| lia | exact Hx | left; reflexivity | lia].
    change (u16 "," ++ ?s) with (44%N :: s).
    rewrite skip_ws_head by reflexivity. simpl N.eqb. cbv iota.
    change (JSON_stringify y :: List.map JSON_stringify vs)
      with (List.map JSON_stringify (y :: vs)).
    rewrite IH; [| cbn [sizes fold_right] in *; lia | exact Hw
                 | cbn [sizes fold_right] in *; lia].
    rewrite <- app_assoc. reflexivity.
Qed.

Lemma obj_set_fresh acc k v :
  existsb (str_eqb k) (List.map fst acc) = false → obj_set acc k v = acc ++ [(k, v)].
Proof.
  induction acc as [|[k' v'] acc IH]; [reflexivity|].
  cbn [List.map fst existsb obj_set]. intros H. apply orb_false_iff in H as [Hk H].
  assert (str_eqb k' k = false) as ->.
  { destruct (str_eqb k' k) eqn:E; [|reflexivity].
    apply str_eqb_eq in E. subst k'. rewrite str_eqb_refl in Hk. discriminate. }
  rewrite (IH H). reflexivity.
Qed.

Lemma parse_members_join fields kx acc rest fuel :
  (sizes (List.map snd (kx :: fields)) ≤ n)%nat →
  forallb (fun kv => valid_string (fst kv) && writable (snd kv)) (kx :: fields) = true →
  forallb (fun kv => is_defined (snd kv)) (kx :: fields) = true →
  distinct (List.map fst acc ++ List.map fst (kx :: fields)) = true →
  (sizes (List.map snd (kx :: fields)) ≤ fuel)%nat →
  parse_members fuel acc
    (join (u16 ",") (List.map member (kx :: fields)) ++ 125%N :: rest)
  = Some (VObj (acc ++ List.map (fun kv => (fst kv, stored_form (snd kv))) (kx :: fields)),
          rest).
Proof.
  revert kx acc fuel.
  assert (∀ k x acc tail fuel,
            valid_string k = true → writable x = true → (size x ≤ n)%nat →
            (size x ≤ fuel)%nat → closes tail →
            parse_members (S fuel) acc (member (k, x) ++ tail)
            = match skip_ws tail with
              | e :: s5 =>
                  if N.eqb e 44 then parse_members fuel (obj_set acc k (stored_form x)) s5
                  else if N.eqb e 125 then Some (VObj (obj_set acc k (stored_form x)), s5)
                  else None
              | [] => None
              end) as Hstep.
  { intros k x acc tail fuel Hk Hx Hsize Hfuel Htail.
    rewrite member_app. cbn [parse_members].
    rewrite skip_ws_head by reflexivity. simpl N.eqb. cbv iota.
    rewrite (parse_chars_quote k _ Hk).
    rewrite skip_ws_head by reflexivity. simpl N.eqb. cbv iota.
    rewrite IHn by assumption. reflexivity. }
  assert (∀ acc k ks, distinct (List.map fst acc ++ k :: ks) = true →
            existsb (str_eqb k) (List.map fst acc) = false
            ∧ distinct (List.map fst (acc ++ [(k, VNull)]) ++ ks) = true) as Hdist.
  { intros acc k ks. induction acc as [|[k' v'] acc IH]; cbn [List.map fst app distinct].
    - intros H. split; [reflexivity|exact H].
    - intros H. apply andb_true_iff in H as [Hk' H].
      destruct (IH H) as [H1 H2]. rewrite existsb_app in Hk'. cbn [existsb] in Hk'.
      apply negb_true_iff in Hk'.
      apply orb_false_iff in Hk' as [Ha Hb]. apply orb_false_iff in Hb as [Hb Hc].
      split.
      + cbn [existsb]. apply orb_false_iff. split; [|exact H1].
        destruct (str_eqb k k') eqn:E; [|reflexivity].
        apply str_eqb_eq in E. subst k'. rewrite str_eqb_refl in Hb. discriminate.
      + apply andb_true_iff. split; [|exact H2].
        apply negb_true_iff. rewrite List.map_app, <- app_assoc, existsb_app.
        cbn [List.map fst app existsb]. rewrite Ha, Hb, Hc. reflexivity. }
  induction fields as [|ky fields IH]; intros [k x] acc fuel Hn Hw Hdef Hd Hfuel.
  - cbn [List.map snd sizes fold_right] in Hn, Hfuel. cbn [forallb fst snd] in Hw, Hdef.
    rewrite andb_true_r in Hw. apply andb_true_iff in Hw as [Hk Hx].
    destruct fuel as [|fuel]; [lia|].
    cbn [List.map join]. rewrite Hstep; [| assumption | assumption | lia | lia
                                        | right; right; reflexivity].
    rewrite skip_ws_head by reflexivity. simpl N.eqb. cbv iota.
    destruct (Hdist acc k [] Hd) as [Hfresh _].
    rewrite (obj_set_fresh acc k _ Hfresh). reflexivity.
  - cbn [List.map snd sizes fold_right] in Hn, Hfuel.
    cbn [forallb fst snd] in Hw, Hdef.
    apply andb_true_iff in Hw as [Hkx Hw]. apply andb_true_iff in Hkx as [Hk Hx].
    apply andb_true_iff in Hdef as [_ Hdef].
    destruct fuel as [|fuel]; [lia|].
    cbn [List.map]. rewrite join_cons2. rewrite <- !app_assoc.
    rewrite Hstep; [| assumption | assumption | lia | lia | left; reflexivity].
    change (u16 "," ++ ?s) with (44%N :: s).
    rewrite skip_ws_head by reflexivity. simpl N.eqb. cbv iota.
    destruct (Hdist acc k (List.map fst (ky :: fields)) Hd) as [Hfresh Hd'].
    rewrite (obj_set_fresh acc k _ Hfresh).
    change (member ky :: List.map member fields) with (List.map member (ky :: fields)).
    rewrite IH.
    + rewrite <- app_assoc. reflexivity.
    + cbn [List.map snd sizes fold_right]. lia.
    + exact Hw.
    + exact Hdef.
    + rewrite List.map_app in *. exact Hd'.
    + cbn [List.map snd sizes fold_right]. lia.
Qed.

End Nested.

Lemma size_pos v : (1 ≤ size v)%nat.
Proof. destruct v; cbn [size]; lia. Qed.

Lemma defined_fields_defined fields :
  forallb (fun kv => is_defined (snd kv)) (defined_fields fields) = true.
Proof.
  unfold defined_fields. induction fields as [|kx fields IH]; [reflexivity|].
  cbn [List.filter]. destruct (is_defined (snd kx)) eqn:E; [|exact IH].
  cbn [forallb]. rewrite E, IH. reflexivity.
Qed.

Lemma join_head sep (p : jsstring) l tail c s :
  p = c :: s → ∃ s', join sep (p :: l) ++ tail = c :: s'.
Proof.
  intros ->. destruct l as [|q l].
  - eexists. reflexivity.
  - rewrite join_cons2. eexists. reflexivity.
Qed.

Lemma parse_value_stringify n :
  ∀ v, (size v ≤ n)%nat → writable v = true →
  ∀ rest fuel, closes rest → (size v ≤ fuel)%nat →
  parse_value fuel (JSON_stringify v ++ rest) = Some (stored_form v, rest).
Proof.
  induction n as [|n IHn]; intros v Hn Hw rest fuel Hrest Hfuel.
  { pose proof (size_pos v). lia. }
  destruct fuel as [|fuel]; [pose proof (size_pos v); lia|].
  destruct v as [| |[|]|m e|s|vs|fields]; try reflexivity.
  - (* numbers *)
    cbn [writable] in Hw. apply andb_true_iff in Hw as [He Hlen].
    apply Z.eqb_eq in He. subst e. apply Nat.leb_le in Hlen.
    destruct (parse_number_toString m rest Hlen Hrest) as (Hp & c & s & Heq & _ & Hc).
    cbn [JSON_stringify stored_form]. rewrite Heq in *. simpl app in *.
    rewrite (parse_value_number fuel c _ Hc). exact Hp.
  - (* strings *)
    cbn [JSON_stringify stored_form writable] in *. unfold quote.
    change ([34%N] ++ quote_units s ++ [34%N]) with (34%N :: quote_units s ++ [34%N]).
    simpl app. rewrite <- app_assoc. cbn [parse_value].
    rewrite skip_ws_head by reflexivity. simpl N.eqb. cbv iota.
    change ([34%N] ++ rest) with (34%N :: rest).
    rewrite (parse_chars_quote s rest Hw). reflexivity.
  - (* arrays *)
    rewrite JSON_stringify_arr, stored_form_arr.
    destruct vs as [|x vs]; [reflexivity|].
    rewrite size_arr in Hn, Hfuel. rewrite writable_arr in Hw.
    destruct (stringify_head x) as (c & sx & Hx & Hsp & H93 & _).
    { cbn [forallb] in Hw. apply andb_true_iff in Hw as [Hw _]. exact Hw. }
    destruct (join_head (u16 ",") (JSON_stringify x) (List.map JSON_stringify vs)
                (93%N :: rest) c sx Hx) as [s' Hs'].
    change (JSON_stringify x :: List.map JSON_stringify vs)
      with (List.map JSON_stringify (x :: vs)) in Hs'.
    pose proof (parse_elements_join n IHn vs x [] rest fuel
                  ltac:(lia) Hw ltac:(lia)) as Helements.
    remember (join (u16 ",") (List.map JSON_stringify (x :: vs))) as body eqn:Hbody.
    clear Hbody. rewrite <- !app_assoc.
    change (u16 "[" ++ body ++ u16 "]" ++ rest) with (91%N :: body ++ 93%N :: rest).
    cbn [parse_value]. rewrite skip_ws_head by reflexivity. simpl N.eqb. cbv iota.
    rewrite Helements. rewrite Hs'. rewrite (skip_ws_head c s' Hsp), H93. reflexivity.
  - (* objects *)
    rewrite JSON_stringify_obj, stored_form_obj.
    pose proof (size_obj fields) as Hsize.
    destruct (writable_obj fields Hw) as [Hvalid Hdist].
    pose proof (defined_fields_defined fields) as Hdef.
    destruct (defined_fields fields) as [|[k x] dfs]; [reflexivity|].
    destruct (join_head (u16 ",") (member (k, x)) (List.map member dfs)
                (125%N :: rest) 34%N (quote_units k ++ [34%N] ++ u16 ":" ++ JSON_stringify x))
      as [s' Hs'].
    { unfold member, quote. cbn [fst snd]. rewrite <- !app_assoc. reflexivity. }
    change (member (k, x) :: List.map member dfs)
      with (List.map member ((k, x) :: dfs)) in Hs'.
    pose proof (parse_members_join n IHn dfs (k, x) [] rest fuel
                  ltac:(lia) Hvalid Hdef Hdist ltac:(lia)) as Hmembers.
    remember (join (u16 ",") (List.map member ((k, x) :: dfs))) as body eqn:Hbody.
    clear Hbody. rewrite <- !app_assoc.
    change (u16 "{" ++ body ++ u16 "}" ++ rest) with (123%N :: body ++ 125%N :: rest).
    cbn [parse_value]. rewrite skip_ws_head by reflexivity. simpl N.eqb. cbv iota.
    rewrite Hmembers. rewrite Hs'. rewrite (skip_ws_head 34%N s') by reflexivity.
    reflexivity.
Qed.

Lemma sizes_le_join (f : jsval → jsstring) vs :
  Forall (fun x => (size x ≤ length (f x))%nat) vs →
  (sizes vs ≤ length (join (u16 ",") (List.map f vs)) + 1)%nat.
Proof.
  induction 1 as [|x vs Hx _ IH]; [cbn; lia|].
  destruct vs as [|y vs].
  - cbn [sizes fold_right List.map join]. lia.
  - cbn [List.map] in *. rewrite join_cons2, !length_app.
    cbn [sizes fold_right] in *. change (length (u16 ",")) with 1%nat. lia.
Qed.

Lemma size_le_length n :
  ∀ v, (size v ≤ n)%nat → writable v = true → (size v ≤ length (JSON_stringify v))%nat.
Proof.
  induction n as [|n IHn]; intros v Hn Hw.
  { pose proof (size_pos v). lia. }
  destruct v as [| |[|]|m e|s|vs|fields]; try (cbn; lia).
  - cbn [writable] in Hw. apply andb_true_iff in Hw as [He Hlen].
    apply Z.eqb_eq in He. subst e. apply Nat.leb_le in Hlen.
    destruct (parse_number_toString m [] Hlen I) as (_ & c & s & Heq & _).
    cbn [JSON_stringify size]. rewrite Heq. simpl. lia.
  - rewrite JSON_stringify_arr, size_arr in *. rewrite writable_arr in Hw.
    rewrite !length_app. change (length (u16 "[")) with 1%nat.
    change (length (u16 "]")) with 1%nat.
    assert (sizes vs ≤ length (join (u16 ",") (List.map JSON_stringify vs)) + 1)%nat; [|lia].
    apply sizes_le_join.
    assert (sizes vs ≤ n)%nat as Hs by lia. clear Hn.
    induction vs as [|x vs IH]; constructor.
    + cbn [forallb] in Hw. apply andb_true_iff in Hw as [Hx _].
      apply IHn; [unfold sizes in *; cbn [fold_right] in *; lia | exact Hx].
    + cbn [forallb] in Hw. apply andb_true_iff in Hw as [_ Hw].
      apply IH; [exact Hw | unfold sizes in *; cbn [fold_right] in *; lia].
  - rewrite JSON_stringify_obj, size_obj_eq in *.
    destruct (writable_obj fields Hw) as [Hvalid _].
    rewrite !length_app. change (length (u16 "{")) with 1%nat.
    change (length (u16 "}")) with 1%nat.
    remember (defined_fields fields) as dfs eqn:Hd. clear Hd Hw fields.
    assert (sizes (List.map snd dfs) ≤ n)%nat as Hs by lia. clear Hn.
    assert (sizes (List.map snd dfs)
            ≤ length (join (u16 ",") (List.map member dfs)) + 1)%nat; [|lia].
    induction dfs as [|[k x] dfs IH]; [cbn; lia|].
    cbn [forallb fst snd] in Hvalid. apply andb_true_iff in Hvalid as [Hkx Hvalid].
    apply andb_true_iff in Hkx as [_ Hx].
    unfold sizes in *. cbn [List.map snd fold_right] in *.
    assert (size x + 3 ≤ length (member (k, x)))%nat as Hm.
    { unfold member, quote. cbn [fst snd]. rewrite !length_app.
      change (length [34%N]) with 1%nat. change (length (u16 ":")) with 1%nat.
      pose proof (IHn x ltac:(lia) Hx). lia. }
    specialize (IH Hvalid ltac:(lia)).
    destruct dfs as [|ky dfs].
    + cbn [List.map join fold_right] in *. lia.
    + cbn [List.map] in *. rewrite join_cons2, !length_app.
      change (length (u16 ",")) with 1%nat. lia.
Qed.

(** What [JSON.stringify] wrote for a writable value, [JSON.parse] reads
    back. *)
Lemma JSON_parse_stringify v :
  writable v = true → JSON_parse (JSON_stringify v) = Some (stored_form v).
Proof.
  intros Hw. unfold JSON_parse.
  pose proof (size_le_length (size v) v (le_n _) Hw) as Hlen.
  pose proof (parse_value_stringify (size v) v (le_n _) Hw []
                (2 * length (JSON_stringify v) + 2) I ltac:(lia)) as H.
  rewrite app_nil_r in H. rewrite H. reflexivity.
Qed.

Lemma stored_form_plain n : ∀ v, (size v ≤ n)%nat → plain v = true → stored_form v = v.
Proof.
  induction n as [|n IHn]; intros v Hn Hp.
  { pose proof (size_pos v). lia. }
  destruct v as [| |[|]|m e|s|vs|fields]; try reflexivity; try discriminate.
  - rewrite stored_form_arr. f_equal. rewrite size_arr in Hn.
    assert (sizes vs ≤ n)%nat as Hs by lia. clear Hn.
    change (plain (VArr vs)) with (forallb plain vs) in Hp.
    induction vs as [|x vs IH]; [reflexivity|].
    cbn [forallb] in Hp. apply andb_true_iff in Hp as [Hx Hp].
    unfold sizes in *. cbn [fold_right] in *.
    cbn [List.map]. rewrite IHn by (lia || assumption). rewrite IH by (assumption || lia).
    reflexivity.
  - rewrite stored_form_obj. f_equal. rewrite size_obj_eq in Hn.
    assert (sizes (List.map snd (defined_fields fields)) ≤ n)%nat as Hs by lia. clear Hn.
    cbn [plain] in Hp. unfold defined_fields in *.
    induction fields as [|[k x] fields IH]; [reflexivity|].
    apply andb_true_iff in Hp as [Hx Hp].
    assert (is_defined x = true) as Hd by (destruct x; [discriminate|reflexivity..]).
    cbn [List.filter snd] in *. rewrite Hd in *.
    unfold sizes in *. cbn [List.map fold_right fst snd] in *.
    rewrite IHn by (lia || assumption). rewrite IH by (assumption || lia).
    reflexivity.
Qed.

Lemma obj_lookup_absent (fields : list (jsstring * jsval)) k :
  existsb (str_eqb k) (List.map fst fields) = false → obj_lookup fields k = VUndefined.
Proof.
  induction fields as [|[k' x] fields IH]; [reflexivity|].
  cbn [List.map fst existsb obj_lookup]. intros H. apply orb_false_iff in H as [Hk H].
  assert (str_eqb k' k = false) as ->.
  { destruct (str_eqb k' k) eqn:E; [|reflexivity].
    apply str_eqb_eq in E. subst k'. rewrite str_eqb_refl in Hk. discriminate. }
  apply IH, H.
Qed.

Lemma existsb_defined k fields :
  existsb (str_eqb k) (List.map fst fields) = false →
  existsb (str_eqb k) (List.map fst (defined_fields fields)) = false.
Proof.
  unfold defined_fields. induction fields as [|[k' x] fields IH]; [reflexivity|].
  cbn [List.map fst existsb List.filter snd]. intros H. apply orb_false_iff in H as [Hk H].
  destruct (is_defined x); [|exact (IH H)].
  cbn [List.map fst existsb]. rewrite Hk. exact (IH H).
Qed.

Lemma obj_lookup_stored fields k :
  distinct (List.map fst fields) = true →
  obj_lookup (List.map (fun kv => (fst kv, stored_form (snd kv))) (defined_fields fields)) k
  = if is_defined (obj_lookup fields k) then stored_form (obj_lookup fields k)
    else VUndefined.
Proof.
  induction fields as [|[k' x] fields IH]; [reflexivity|].
  cbn [List.map fst distinct]. intros H. apply andb_true_iff in H as [Hk H].
  apply negb_true_iff in Hk. specialize (IH H).
  unfold defined_fields in *. cbn [List.filter snd obj_lookup].
  destruct (is_defined x) eqn:Hx.
  - cbn [List.map fst snd obj_lookup].
    destruct (str_eqb k' k); [rewrite Hx; reflexivity | exact IH].
  - destruct (str_eqb k' k) eqn:E; [|exact IH].
    apply str_eqb_eq in E. subst k'. rewrite Hx.
    apply obj_lookup_absent.
    rewrite List.map_map. cbn [fst].
    change (List.map (fun x0 : jsstring * jsval => fst x0)) with (List.map (@fst jsstring jsval)).
    apply (existsb_defined k fields Hk).
Qed.

Lemma id_matches_stored id d :
  writable d = true → id_matches id (stored_form d) = id_matches id d.
Proof.
  intros Hw. destruct d as [| |[|]|m e|s|vs|fields]; try reflexivity.
  rewrite stored_form_obj. unfold id_matches. cbn [opt_get].
  cbn [writable] in Hw. apply andb_true_iff in Hw as [_ Hd].
  rewrite (obj_lookup_stored fields _ Hd).
  destruct (obj_lookup fields (u16 "id")); reflexivity.
Qed.

Lemma nullish_stored d : nullish d = false → nullish (stored_form d) = false.
Proof. destruct d; try discriminate; reflexivity. Qed.

Lemma find_stored id ds :
  forallb writable ds = true →
  List.find (id_matches id) (List.map stored_form ds)
  = option_map stored_form (List.find (id_matches id) ds).
Proof.
  induction ds as [|d ds IH]; [reflexivity|].
  cbn [forallb List.map List.find]. intros H. apply andb_true_iff in H as [Hd H].
  rewrite (id_matches_stored id d Hd).
  destruct (id_matches id d); [reflexivity | exact (IH H)].
Qed.

(** The detail page on a browser in which a writable collection is
    stored. *)
Lemma DeckDetail_load_written id (b : Browser) ds :
  localStorage b !! mtgDecks = Some (JSON_stringify (VArr ds)) →
  writable (VArr ds) = true →
  Forall (fun d => nullish d = false) ds →
  DeckDetail_load id b = (Ok (option_map stored_form (List.find (id_matches id) ds)), b).
Proof.
  intros Hget Hw Hobj.
  rewrite (DeckDetail_load_stored id b _ (List.map stored_form ds) Hget).
  - rewrite find_stored by exact Hw. reflexivity.
  - rewrite (JSON_parse_stringify _ Hw). reflexivity.
  - clear -Hobj. induction Hobj as [|d ds Hd _ IH]; constructor;
      [apply nullish_stored, Hd | exact IH].
Qed.

(** X23.  What the list page saved it loads again: after [saveDecks] of
    a writable collection, the load effect of a page that starts anew
    on the same storage sets the collection that was saved, without the
    properties that were [undefined]; a collection without [undefined]
    comes back as it was. *)
Theorem DeckList_load_reads_back_what_saveDecks_stored
    {World : Type} (p : Page (World := World)) (w : World) (st : DeckListState) ds :
  writable (VArr ds) = true →
  DeckList_load (mkPage (saved_browser (VArr ds) p) w st)
  = (Ok tt, mkPage (saved_browser (VArr ds) p) w
              (with_decks (VArr (List.map stored_form ds)) st))
  ∧ (plain (VArr ds) = true → List.map stored_form ds = ds).
Proof.
  intros Hw. split.
  - unfold DeckList_load, bind at 1, gets.
    unfold saved_browser, saveDecks, bind, setDecks, on_state, on_browser, modify.
    cbn [snd browser localStorage setItem]. rewrite lookup_insert_eq.
    pose proof (JSON_parse_stringify _ Hw) as Hparse.
    rewrite (JSON_parse_nonempty _ _ Hparse).
    unfold JSON_parse_M. rewrite Hparse. reflexivity.
  - intros Hp. pose proof (stored_form_plain _ (VArr ds) (le_n _) Hp) as H.
    rewrite stored_form_arr in H. injection H as H. exact H.
Qed.

Lemma DeckList_load_reads_back_what_saveDecks_stored_witness :
  DeckList_load (mkPage (saved_browser (VArr two_decks) import_page) tt initialState)
  = (Ok tt, mkPage (saved_browser (VArr two_decks) import_page) tt
              (with_decks (VArr two_decks) initialState)).
Proof.
  destruct (DeckList_load_reads_back_what_saveDecks_stored import_page tt initialState
              two_decks ltac:(vm_compute; reflexivity)) as [Hload Hplain].
  rewrite (Hplain ltac:(vm_compute; reflexivity)) in Hload. exact Hload.
Defined.

(** X24.  After an import, the detail page to which the import went
    finds the deck that was imported, when the collection is writable
    and no older deck has the id of the new one. *)
Theorem the_detail_page_finds_the_imported_deck
    {World : Type} (p p' : Page (World := World)) n old newDeck :
  imported n old newDeck p p' →
  writable (VArr (old ++ [newDeck])) = true →
  Forall (fun d => nullish d = false) old →
  (∀ id, opt_get newDeck (u16 "id") = VStr id →
         Forall (fun d => id_matches id d = false) old) →
  ∃ id,
    path (browser p') = Some (u16 "/deck/" ++ id)
    ∧ DeckDetail_load id (browser p') = (Ok (Some (stored_form newDeck)), browser p').
Proof.
  intros (_ & Hstored & _ & (id & Hid & Hpath) & _) Hw Hobj Hfresh.
  exists id. split; [exact Hpath|].
  assert (nullish newDeck = false) as Hnew
    by (destruct newDeck; try discriminate; reflexivity).
  rewrite (DeckDetail_load_written id (browser p') (old ++ [newDeck])).
  - do 3 f_equal. specialize (Hfresh id Hid).
    clear -Hfresh Hid. induction Hfresh as [|d ds Hd _ IH]; cbn [app List.find].
    + unfold id_matches. rewrite Hid. cbn [strict_eq_str]. rewrite str_eqb_refl. reflexivity.
    + rewrite Hd. exact IH.
  - rewrite Hstored. apply lookup_insert_eq.
  - exact Hw.
  - apply Forall_app. split; [exact Hobj | constructor; [exact Hnew | constructor]].
Qed.

Lemma the_detail_page_finds_the_imported_deck_witness :
  ∃ id,
    path (browser sample_imported_page) = Some (u16 "/deck/" ++ id)
    ∧ DeckDetail_load id (browser sample_imported_page)
      = (Ok (Some (stored_form sample_new_deck)), browser sample_imported_page).
Proof.
  apply (the_detail_page_finds_the_imported_deck import_page sample_imported_page
           2 two_decks sample_new_deck).
  - unfold imported. split; [vm_compute; reflexivity|]. split; [vm_compute; reflexivity|].
    split; [vm_compute; reflexivity|]. split; [|vm_compute; discriminate].
    eexists. split; vm_compute; reflexivity.
  - vm_compute. reflexivity.
  - repeat constructor.
  - intros id Hid. vm_compute in Hid. injection Hid as <-.
    repeat constructor.
Defined.

Lemma find_replaced id updatedDeck ds :
  id_matches id updatedDeck = true →
  Exists (fun d => id_matches id d = true) ds →
  List.find (id_matches id) (replaced id updatedDeck ds) = Some updatedDeck.
Proof.
  intros Hid. unfold replaced.
  induction ds as [|d ds IH]; intros H; [inversion H|].
  cbn [List.map List.find].
  destruct (id_matches id d) eqn:Hd; [rewrite Hid; reflexivity|].
  rewrite Hd. apply IH. inversion H as [? ? Hd'|? ? H']; subst; [congruence|exact H'].
Qed.

Lemma replaced_writable id updatedDeck ds :
  writable updatedDeck = true → forallb writable ds = true →
  forallb writable (replaced id updatedDeck ds) = true.
Proof.
  intros Hu. unfold replaced. induction ds as [|d ds IH]; [reflexivity|].
  cbn [forallb List.map]. intros H. apply andb_true_iff in H as [Hd H].
  rewrite (IH H), andb_true_r. destruct (id_matches id d); assumption.
Qed.

Lemma replaced_objects id updatedDeck ds :
  nullish updatedDeck = false → Forall (fun d => nullish d = false) ds →
  Forall (fun d => nullish d = false) (replaced id updatedDeck ds).
Proof.
  intros Hu. unfold replaced. induction 1 as [|d ds Hd _ IH]; cbn [List.map]; constructor.
  - destruct (id_matches id d); assumption.
  - exact IH.
Qed.

(** X25.  An edit that [saveDeck] saved is what the detail page loads:
    on a stored, writable collection that holds a deck of the page,
    [saveDeck] of a writable deck with the id of the page reports that
    it saved, and the load effect then finds that deck. *)
Theorem a_saved_edit_is_what_the_detail_page_loads
    id updatedDeck (b : Browser) text ds :
  localStorage b !! mtgDecks = Some text →
  JSON_parse text = Some (VArr ds) →
  Forall (fun d => nullish d = false) ds →
  writable (VArr ds) = true →
  writable updatedDeck = true →
  id_matches id updatedDeck = true →
  Exists (fun d => id_matches id d = true) ds →
  fst (saveDeck id updatedDeck b) = Ok true
  ∧ DeckDetail_load id (snd (saveDeck id updatedDeck b))
    = (Ok (Some (stored_form updatedDeck)), snd (saveDeck id updatedDeck b)).
Proof.
  intros Hget Hparse Hobj Hw Hwu Hid Hsome.
  rewrite (saveDeck_stored b id updatedDeck text ds Hget Hparse Hobj).
  fold (replaced id updatedDeck ds). cbn [fst snd]. split; [reflexivity|].
  rewrite (DeckDetail_load_written id _ (replaced id updatedDeck ds)).
  - rewrite (find_replaced id updatedDeck ds Hid Hsome). reflexivity.
  - cbn [setItem localStorage]. apply lookup_insert_eq.
  - rewrite writable_arr in *. apply replaced_writable; assumption.
  - apply replaced_objects; [|exact Hobj].
    apply id_matches_truthy in Hid. destruct updatedDeck; try discriminate; reflexivity.
Qed.

Lemma a_saved_edit_is_what_the_detail_page_loads_witness :
  fst (saveDeck (u16 "18") (Deck_to_jsval deck_18_won) stored_two_decks) = Ok true
  ∧ DeckDetail_load (u16 "18")
      (snd (saveDeck (u16 "18") (Deck_to_jsval deck_18_won) stored_two_decks))
    = (Ok (Some (stored_form (Deck_to_jsval deck_18_won))),
       snd (saveDeck (u16 "18") (Deck_to_jsval deck_18_won) stored_two_decks)).
Proof.
  apply (a_saved_edit_is_what_the_detail_page_loads (u16 "18") (Deck_to_jsval deck_18_won)
           stored_two_decks (JSON_stringify (VArr two_decks)) two_decks).
  - reflexivity.
  - vm_compute. reflexivity.
  - repeat constructor.
  - vm_compute. reflexivity.
  - vm_compute. reflexivity.
  - vm_compute. reflexivity.
  - right. left. vm_compute. reflexivity.
Defined.

(** ** The edit form as it was loaded *)

(** X26.  Saving the edit form as the load effect filled it: when the
    counts of the deck are not negative the saved statistics are not
    negative and their total is the sum of wins and losses, whatever the
    total was; and a deck whose statistics were such already is saved as
    it is. *)
Theorem saving_the_loaded_form_repairs_or_keeps_the_statistics (d : Deck.t) notes :
  (0 ≤ num_or_0 (Stats.wins (Deck.stats d)) →
   0 ≤ num_or_0 (Stats.losses (Deck.stats d)) →
   0 ≤ num_or_0 (Stats.mulligans (Deck.stats d)) →
   consistent_stats (Deck.stats (handleUpdateStats_deck d (loaded_statsInput d) notes)))
  ∧ (consistent_stats (Deck.stats d) →
     handleUpdateStats_deck d (loaded_statsInput d) (Deck.notes d) = d).
Proof.
  split.
  - intros Hw Hl Hm. eexists _, _, _. split; [exact Hw|]. split; [exact Hl|].
    split; [exact Hm|]. reflexivity.
  - intros (w & l & m & _ & _ & _ & Hs). destruct d as [id name c dl s n created].
    cbn [Deck.stats] in Hs. subst s. reflexivity.
Qed.

Lemma saving_the_loaded_form_repairs_or_keeps_the_statistics_witness :
  consistent_stats
    (Deck.stats
       (handleUpdateStats_deck
          (handleQuickStatUpdate_deck deck_18_won Losses (-1))
          (loaded_statsInput (handleQuickStatUpdate_deck deck_18_won Losses (-1))) []))
  ∧ handleUpdateStats_deck deck_18_won (loaded_statsInput deck_18_won) (Deck.notes deck_18_won)
    = deck_18_won.
Proof.
  split.
  - apply (proj1 (saving_the_loaded_form_repairs_or_keeps_the_statistics
                    (handleQuickStatUpdate_deck deck_18_won Losses (-1)) []));
      vm_compute; discriminate.
  - apply (proj2 (saving_the_loaded_form_repairs_or_keeps_the_statistics deck_18_won [])).
    exists 1, 0, 0. repeat split; try lia.
Defined.
